(** * cloudviews-light: the frame player and its pointer-driven zoom

    A shallow embedding of the viewer scripts of the repository:

    - [docs/script.js]: the player with the magnifier lens;
    - the player with the clamped-origin zoom ([ZOOM_SCALE = 2.1],
      [CONTROL_INSET_PX = 80]);
    - the player with the fixed-point zoom ([applyZoomAt]);
    - the plain player ([ANIMATION_FPS = 7]).

    The four scripts share the player (animation loop, stepping, scrubber,
    loader) word for word, up to the frame rate and to the lens refresh in
    [displayFrame]; the player is therefore embedded once, in a section over
    these two, and instantiated four times.

    Modelling conventions.
    - A JavaScript number is the rational it denotes ([Q]), an infinity or
      NaN ([Num]); frame indices and pointer ids are integers ([Z]).
    - The elapsed time [currentTime - lastFrameTime], whose comparison with
      the threshold decides whether a tick advances, is computed as the
      engine computes it, in binary64 with rounding to nearest ([js_sub]),
      and so is the frame interval [1000 / ANIMATION_FPS].
    - The formulas on coordinates are stated on the values they denote,
      without rounding; a division by zero yields an infinity or NaN.
    - [imageCache] is a plain object: a lookup also finds the members of
      [Object.prototype] ([object_get]).
    - The page is a record of the script's variables, the parts of the DOM the
      script reads and writes, the host's list of scheduled frame callbacks and
      the promises of the loader.  Every handler is a function on pages.
    - What a handler measures when it runs ([getBoundingClientRect],
      [performance.now]) is an argument of the handler. *)

From Stdlib Require Import ZArith QArith Qminmax Lqa Lia List Bool String.
From stdpp Require Import gmap strings list.
Import ListNotations.

(** ** Host values *)

(** [Math.max] and [Math.min] on finite numbers. *)
Definition Math_max (a b : Q) : Q := Qmax a b.
Definition Math_min (a b : Q) : Q := Qmin a b.

(** *** Numbers beyond the finite ones *)

(** A number: a finite value, an infinity or NaN.  The two zeros are not
    told apart; a zero divisor, the width or height of a rectangle, is the
    positive one. *)
Inductive Num := Fin (q : Q) | PosInf | NegInf | NaN.

(** The integer nearest to [n / d], for [n >= 0] and [d > 0], the even one
    when two are equally near. *)
Definition round_half_even (n d : Z) : Z :=
  let q := (n / d)%Z in
  let r := (n mod d)%Z in
  match (2 * r ?= d)%Z with
  | Lt => q
  | Gt => (q + 1)%Z
  | Eq => if Z.even q then q else (q + 1)%Z
  end.

(** [n / d * 2 ^ (- k)] as a fraction. *)
Definition scaled (n d k : Z) : Z * Z :=
  if (0 <=? k)%Z then (n, d * 2 ^ k)%Z else (n * 2 ^ (- k), d)%Z.

(** The integer part of the binary logarithm of [n / d], for [n, d > 0]. *)
Definition exponent (n d : Z) : Z :=
  let e := (Z.log2 n - Z.log2 d)%Z in
  let (n', d') := scaled n d e in
  if (d' <=? n')%Z then e else (e - 1)%Z.

(** The binary64 number nearest to a real, ties to even: 53 significant
    bits, the least unit 2 ^ -1074, an infinity from 2 ^ 1024 on.  It is the
    value of a numeric literal and the result of every binary64
    operation. *)
Definition binary64 (q : Q) : Num :=
  let n := Z.abs (Qnum q) in
  let d := Z.pos (Qden q) in
  if (n =? 0)%Z then Fin 0%Q
  else
    let u := Z.max (exponent n d - 52) (-1074) in
    let (n', d') := scaled n d u in
    let m := round_half_even n' d' in
    let negative := (Qnum q <? 0)%Z in
    if (0 <=? u)%Z then
      if (2 ^ 1024 <=? m * 2 ^ u)%Z then (if negative then NegInf else PosInf)
      else Fin (inject_Z (if negative then - (m * 2 ^ u) else m * 2 ^ u))
    else Fin (Qred (Qmake (if negative then - m else m) (Z.to_pos (2 ^ (- u))))).

Definition sign_inf (positive : bool) : Num := if positive then PosInf else NegInf.

(** The arithmetic of numbers; [rnd] rounds a finite result: [binary64] for
    the engine's arithmetic on times, [Fin] for the formulas on
    coordinates. *)
Definition num_neg (a : Num) : Num :=
  match a with
  | Fin x => Fin (- x)%Q
  | PosInf => NegInf
  | NegInf => PosInf
  | NaN => NaN
  end.

Definition num_sub (rnd : Q -> Num) (a b : Num) : Num :=
  match a, b with
  | NaN, _ | _, NaN => NaN
  | PosInf, PosInf | NegInf, NegInf => NaN
  | PosInf, _ | _, NegInf => PosInf
  | NegInf, _ | _, PosInf => NegInf
  | Fin x, Fin y => rnd (x - y)%Q
  end.

Definition num_mul (rnd : Q -> Num) (a b : Num) : Num :=
  match a, b with
  | NaN, _ | _, NaN => NaN
  | Fin x, Fin y => rnd (x * y)%Q
  | Fin x, PosInf | PosInf, Fin x =>
      if Qeq_bool x 0%Q then NaN else sign_inf (Qle_bool 0%Q x)
  | Fin x, NegInf | NegInf, Fin x =>
      if Qeq_bool x 0%Q then NaN else sign_inf (negb (Qle_bool 0%Q x))
  | PosInf, PosInf | NegInf, NegInf => PosInf
  | PosInf, NegInf | NegInf, PosInf => NegInf
  end.

Definition num_div (rnd : Q -> Num) (a b : Num) : Num :=
  match a, b with
  | NaN, _ | _, NaN => NaN
  | Fin x, Fin y =>
      if Qeq_bool y 0%Q then (if Qeq_bool x 0%Q then NaN else sign_inf (Qle_bool 0%Q x))
      else rnd (x / y)%Q
  | Fin _, _ => Fin 0%Q
  | PosInf, Fin y => sign_inf (Qle_bool 0%Q y)
  | NegInf, Fin y => sign_inf (negb (Qle_bool 0%Q y))
  | _, _ => NaN
  end.

(** [a - b] and [a / b] in binary64, on numbers given by their literals. *)
Definition js_sub (a b : Q) : Num := num_sub binary64 (binary64 a) (binary64 b).
Definition js_div (a b : Q) : Num := num_div binary64 (binary64 a) (binary64 b).

(** [a >= b] on numbers: false as soon as one is NaN. *)
Definition js_ge (a b : Num) : bool :=
  match a, b with
  | NaN, _ | _, NaN => false
  | PosInf, _ | _, NegInf => true
  | _, PosInf | NegInf, _ => false
  | Fin x, Fin y => Qle_bool y x
  end.

(** Whether the binary64 subtraction [t - s] is exact. *)
Definition sub_exact (t s : Q) : bool :=
  match js_sub t s with
  | Fin d => Qeq_bool d (t - s)%Q
  | _ => false
  end.

(** [a || b] on numbers: [a] unless it is falsy, that is zero. *)
Definition js_or (a b : Q) : Q := if Qeq_bool a 0%Q then b else a.

(** Truthiness of a number. *)
Definition truthy (a : Q) : bool := negb (Qeq_bool a 0%Q).

(** [a % n] on integers, for [n] other than zero: the remainder has the sign
    of the dividend.  The handlers that use it are reachable only once the
    manifest is non-empty. *)
Definition js_rem (a n : Z) : Z := Z.rem a n.

(** [arr[index]]: the element when the index is one of the array, [undefined]
    ([None]) otherwise, negative indices included. *)
Definition array_get {A : Type} (arr : list A) (index : Z) : option A :=
  if (0 <=? index)%Z then arr !! Z.to_nat index else None.

(** The property key a value is turned into when it indexes an object:
    [undefined] becomes the string "undefined". *)
Definition prop_key (path : option string) : string :=
  default "undefined"%string path.

(** A [DOMRect], as returned by [getBoundingClientRect]. *)
Record DOMRect := mkRect {
  rect_left : Q;
  rect_top : Q;
  rect_width : Q;
  rect_height : Q
}.

Inductive PointerType := mouse | touch | pen.

Definition PointerType_eqb (a b : PointerType) : bool :=
  match a, b with
  | mouse, mouse | touch, touch | pen, pen => true
  | _, _ => false
  end.

Record PointerEvent := mkPointer {
  pointerId : Z;
  pointerType : PointerType;
  isPrimary : bool;
  clientX : Q;
  clientY : Q
}.

(** [element.setPointerCapture(id)] and [element.releasePointerCapture(id)], on
    the list of pointers the element holds captured. *)
Definition setPointerCapture (id : Z) (held : list Z) : list Z := id :: held.
Definition releasePointerCapture (id : Z) (held : list Z) : list Z :=
  List.filter (fun p => negb (Z.eqb p id)) held.

(** A decoded image: [new Image()] after its [onload]. *)
Record Image := mkImage {
  src : string;
  naturalWidth : Q;
  naturalHeight : Q
}.

(** *** Plain objects

    [imageCache] is created as [{}].  Reading a property looks first at the
    entries the script has stored and then at the members every object
    inherits from [Object.prototype]; each of these is a function or an
    object, hence truthy, and none has a property [src].  (Storing under the
    key "__proto__" replaces the prototype by the image instead of adding an
    entry; the key reads back the image all the same.  What else the object
    then inherits from the image element is not modelled.) *)
Definition Object_prototype : list string :=
  ["constructor"; "hasOwnProperty"; "isPrototypeOf"; "propertyIsEnumerable";
   "toLocaleString"; "toString"; "valueOf"; "__proto__";
   "__defineGetter__"; "__defineSetter__"; "__lookupGetter__";
   "__lookupSetter__"]%string.

Definition inherited (key : string) : bool := existsb (String.eqb key) Object_prototype.

(** What a property read finds: an image the script stored, or a member of
    [Object.prototype]. *)
Inductive Member := Own (img : Image) | Inherited.

(** [obj[key]]; [None] is [undefined]. *)
Definition object_get (obj : gmap string Image) (key : string) : option Member :=
  match obj !! key with
  | Some img => Some (Own img)
  | None => if inherited key then Some Inherited else None
  end.

(** The value [cachedImage.src] leaves in [goesImage.src]: the source of an
    image, and for a member without that property [undefined], which the
    assignment turns into the string "undefined". *)
Definition member_src (m : Member) : string :=
  match m with
  | Own img => src img
  | Inherited => "undefined"%string
  end.

(** The image behind [imageCache[path]] for the optional reads
    [img?.naturalWidth] and [img?.naturalHeight]: an inherited member has no
    such property and reads like a missing entry. *)
Definition member_image (m : option Member) : option Image :=
  match m with
  | Some (Own img) => Some img
  | Some Inherited | None => None
  end.

Inductive Promise := Pending | Fulfilled | Rejected.

Definition Promise_eqb (a b : Promise) : bool :=
  match a, b with
  | Pending, Pending | Fulfilled, Fulfilled | Rejected, Rejected => true
  | _, _ => false
  end.

(** ** The page *)

(** The script's state variables. *)
Record Vars := mkVars {
  imagePaths : list string;
  imageCache : gmap string Image;
  currentIndex : Z;
  isPlaying : bool;
  animationFrameId : option nat;
  lastFrameTime : Q
}.

(** The texts the script writes into [loadingMessage]. *)
Inductive Message :=
| MsgMarkup
| MsgLoadingImage (loaded total : nat)
| MsgErrorImages
| MsgErrorData.

(** The texts the script writes into [playPauseBtn]. *)
Inductive ButtonText := BtnMarkup | BtnPause | BtnPlay.

(** The elements the player touches. *)
Record Dom := mkDom {
  loadingMessage_text : Message;
  loadingMessage_shown : bool;
  goesImage_src : option string;
  goesImage_shown : bool;
  controls_shown : bool;
  scrubber_value : Z;
  scrubber_max : Z;
  scrubber_shown : bool;
  playPauseBtn_text : ButtonText
}.

(** The host's frame callbacks: the ids handed out by [requestAnimationFrame]
    that have neither run nor been cancelled. *)
Record Host := mkHost {
  raf_pending : list nat;
  raf_next : nat
}.

(** The closure of [fetchImages] and [loadAllImages]: the manifest request, the
    counter, one promise per image and [Promise.all] of them. *)
Record Loader := mkLoader {
  manifest : Promise;
  loadedCount : nat;
  totalCount : nat;
  loadPromises : list Promise;
  allLoaded : Promise
}.

Record Page {X : Type} := mkPage {
  vars : Vars;
  dom : Dom;
  host : Host;
  loader : Loader;
  ext : X
}.
Arguments Page : clear implicits.
Arguments mkPage {X}.

(** *** Field updates *)

Definition set_imagePaths (v : list string) (s : Vars) : Vars :=
  mkVars v (imageCache s) (currentIndex s) (isPlaying s) (animationFrameId s) (lastFrameTime s).
Definition set_imageCache (v : gmap string Image) (s : Vars) : Vars :=
  mkVars (imagePaths s) v (currentIndex s) (isPlaying s) (animationFrameId s) (lastFrameTime s).
Definition set_currentIndex (v : Z) (s : Vars) : Vars :=
  mkVars (imagePaths s) (imageCache s) v (isPlaying s) (animationFrameId s) (lastFrameTime s).
Definition set_isPlaying (v : bool) (s : Vars) : Vars :=
  mkVars (imagePaths s) (imageCache s) (currentIndex s) v (animationFrameId s) (lastFrameTime s).
Definition set_animationFrameId (v : option nat) (s : Vars) : Vars :=
  mkVars (imagePaths s) (imageCache s) (currentIndex s) (isPlaying s) v (lastFrameTime s).
Definition set_lastFrameTime (v : Q) (s : Vars) : Vars :=
  mkVars (imagePaths s) (imageCache s) (currentIndex s) (isPlaying s) (animationFrameId s) v.

Definition set_loadingMessage_text (v : Message) (d : Dom) : Dom :=
  mkDom v (loadingMessage_shown d) (goesImage_src d) (goesImage_shown d) (controls_shown d)
        (scrubber_value d) (scrubber_max d) (scrubber_shown d) (playPauseBtn_text d).
Definition set_loadingMessage_shown (v : bool) (d : Dom) : Dom :=
  mkDom (loadingMessage_text d) v (goesImage_src d) (goesImage_shown d) (controls_shown d)
        (scrubber_value d) (scrubber_max d) (scrubber_shown d) (playPauseBtn_text d).
Definition set_goesImage_src (v : option string) (d : Dom) : Dom :=
  mkDom (loadingMessage_text d) (loadingMessage_shown d) v (goesImage_shown d) (controls_shown d)
        (scrubber_value d) (scrubber_max d) (scrubber_shown d) (playPauseBtn_text d).
Definition set_goesImage_shown (v : bool) (d : Dom) : Dom :=
  mkDom (loadingMessage_text d) (loadingMessage_shown d) (goesImage_src d) v (controls_shown d)
        (scrubber_value d) (scrubber_max d) (scrubber_shown d) (playPauseBtn_text d).
Definition set_controls_shown (v : bool) (d : Dom) : Dom :=
  mkDom (loadingMessage_text d) (loadingMessage_shown d) (goesImage_src d) (goesImage_shown d) v
        (scrubber_value d) (scrubber_max d) (scrubber_shown d) (playPauseBtn_text d).
Definition set_scrubber_shown (v : bool) (d : Dom) : Dom :=
  mkDom (loadingMessage_text d) (loadingMessage_shown d) (goesImage_src d) (goesImage_shown d)
        (controls_shown d) (scrubber_value d) (scrubber_max d) v (playPauseBtn_text d).
Definition set_playPauseBtn_text (v : ButtonText) (d : Dom) : Dom :=
  mkDom (loadingMessage_text d) (loadingMessage_shown d) (goesImage_src d) (goesImage_shown d)
        (controls_shown d) (scrubber_value d) (scrubber_max d) (scrubber_shown d) v.

(** A range input keeps its value inside its bounds (the minimum is the
    default 0): a value assigned to it, and the old value when the maximum is
    reassigned, is brought back into [0, max]. *)
Definition range_sanitize (max v : Z) : Z := Z.max 0 (Z.min max v).

Definition set_scrubber_value (v : Z) (d : Dom) : Dom :=
  mkDom (loadingMessage_text d) (loadingMessage_shown d) (goesImage_src d) (goesImage_shown d)
        (controls_shown d) (range_sanitize (scrubber_max d) v) (scrubber_max d)
        (scrubber_shown d) (playPauseBtn_text d).
Definition set_scrubber_max (m : Z) (d : Dom) : Dom :=
  mkDom (loadingMessage_text d) (loadingMessage_shown d) (goesImage_src d) (goesImage_shown d)
        (controls_shown d) (range_sanitize m (scrubber_value d)) m
        (scrubber_shown d) (playPauseBtn_text d).

Definition with_vars {X} (f : Vars -> Vars) (st : Page X) : Page X :=
  mkPage (f (vars st)) (dom st) (host st) (loader st) (ext st).
Definition with_dom {X} (f : Dom -> Dom) (st : Page X) : Page X :=
  mkPage (vars st) (f (dom st)) (host st) (loader st) (ext st).
Definition with_host {X} (f : Host -> Host) (st : Page X) : Page X :=
  mkPage (vars st) (dom st) (f (host st)) (loader st) (ext st).
Definition with_loader {X} (f : Loader -> Loader) (st : Page X) : Page X :=
  mkPage (vars st) (dom st) (host st) (f (loader st)) (ext st).
Definition with_ext {X} (x : X) (st : Page X) : Page X :=
  mkPage (vars st) (dom st) (host st) (loader st) x.

(** [imagePaths.length]. *)
Definition frameCount {X} (st : Page X) : Z :=
  Z.of_nat (length (imagePaths (vars st))).

(** *** The host's frame callbacks *)

(** [animationFrameId = requestAnimationFrame(runAnimationLoop)]. *)
Definition requestAnimationFrame {X} (st : Page X) : Page X :=
  let id := raf_next (host st) in
  with_vars (set_animationFrameId (Some id))
    (with_host (fun h => mkHost (raf_pending h ++ [id]) (S id)) st).

(** [cancelAnimationFrame(animationFrameId)]; nothing happens while the
    variable is still [undefined]. *)
Definition cancelAnimationFrame {X} (st : Page X) : Page X :=
  match animationFrameId (vars st) with
  | Some id =>
      with_host (fun h => mkHost (List.filter (fun j => negb (Nat.eqb j id)) (raf_pending h))
                                 (raf_next h)) st
  | None => st
  end.

(** ** The player

    [startAnimation] ... [handleScrubberInput], the same in the four scripts.
    [ANIMATION_FPS] is 5 or 7.  [onFrameShown] stands for what [displayFrame]
    does after it has swapped the source: nothing in three scripts, the lens
    refresh in [docs/script.js]; it yields the new state of the zoom or
    lens. *)

Section Player.

Context {X : Type}.
Variable ANIMATION_FPS : Q.
Variable onFrameShown : Page X -> X.

Definition FRAME_INTERVAL_MS : Num := js_div 1000%Q ANIMATION_FPS.
Definition LAST_FRAME_HOLD_TIME_MS : Num := Fin 1000%Q.

(** [now] is the value of [performance.now()]. *)
Definition startAnimation (now : Q) (st : Page X) : Page X :=
  if isPlaying (vars st) then st
  else
    let st := with_vars (set_isPlaying true) st in
    let st := with_dom (set_playPauseBtn_text BtnPause) st in
    let st := with_vars (set_lastFrameTime now) st in
    requestAnimationFrame st.

Definition stopAnimation (st : Page X) : Page X :=
  if negb (isPlaying (vars st)) then st
  else
    let st := with_vars (set_isPlaying false) st in
    let st := with_dom (set_playPauseBtn_text BtnPlay) st in
    cancelAnimationFrame st.

Definition togglePlayPause (now : Q) (st : Page X) : Page X :=
  if isPlaying (vars st) then stopAnimation st
  else if (0 <? frameCount st)%Z then startAnimation now st
  else st.

Definition displayFrame (index : Z) (st : Page X) : Page X :=
  let path := array_get (imagePaths (vars st)) index in
  match object_get (imageCache (vars st)) (prop_key path) with
  | Some cachedImage =>
      let st := with_dom (set_goesImage_src (Some (member_src cachedImage))) st in
      with_ext (onFrameShown st) st
  | None => st
  end.

Definition updateUI (index : Z) (st : Page X) : Page X :=
  let st := with_vars (set_currentIndex index) st in
  let st := with_dom (set_scrubber_value index) st in
  displayFrame index st.

Definition prevFrame (st : Page X) : Page X :=
  let st := stopAnimation st in
  let newIndex := js_rem (currentIndex (vars st) - 1 + frameCount st) (frameCount st) in
  updateUI newIndex st.

Definition nextFrame (st : Page X) : Page X :=
  let st := stopAnimation st in
  let newIndex := js_rem (currentIndex (vars st) + 1) (frameCount st) in
  updateUI newIndex st.

(** The dwell of the frame on display. *)
Definition currentFrameInterval (st : Page X) : Num :=
  let isLastFrame := (currentIndex (vars st) =? frameCount st - 1)%Z in
  if isLastFrame then LAST_FRAME_HOLD_TIME_MS else FRAME_INTERVAL_MS.

Definition runAnimationLoop (currentTime : Q) (st : Page X) : Page X :=
  if negb (isPlaying (vars st)) then st
  else
    let timeSinceLastFrame := js_sub currentTime (lastFrameTime (vars st)) in
    let st :=
      if js_ge timeSinceLastFrame (currentFrameInterval st) then
        let st := with_vars (set_lastFrameTime currentTime) st in
        let nextIndex := js_rem (currentIndex (vars st) + 1) (frameCount st) in
        updateUI nextIndex st
      else st in
    requestAnimationFrame st.

(** [handleScrubberInput]: [parseInt(scrubber.value, 10)] reads back the
    integer the control holds. *)
Definition handleScrubberInput (st : Page X) : Page X :=
  let st := stopAnimation st in
  let newIndex := scrubber_value (dom st) in
  updateUI newIndex st.

(** *** Loading *)

(** The [try] block of [loadAllImages] after [await Promise.all]. *)
Definition loadAllImages_then (now : Q) (st : Page X) : Page X :=
  let st := with_dom (set_loadingMessage_shown false) st in
  let st := with_dom (set_goesImage_shown true) st in
  let st := with_dom (set_controls_shown true) st in
  let st := with_dom (set_scrubber_max (frameCount st - 1)) st in
  let st := with_dom (set_scrubber_shown true) st in
  let st := updateUI 0 st in
  let st := with_vars (set_isPlaying false) st in
  togglePlayPause now st.

(** The [catch] block of [loadAllImages]. *)
Definition loadAllImages_catch (st : Page X) : Page X :=
  with_dom (set_loadingMessage_text MsgErrorImages) st.

(** [loadAllImages] up to its [await]: one pending promise per path. *)
Definition loadAllImages (st : Page X) : Page X :=
  if (frameCount st =? 0)%Z then st
  else
    let n := length (imagePaths (vars st)) in
    with_loader (fun l => mkLoader (manifest l) 0 n (repeat Pending n) Pending) st.

Definition all_fulfilled (ps : list Promise) : bool :=
  forallb (fun p => Promise_eqb p Fulfilled) ps.

(** [img.onload] of the image at position [i] of the manifest, which has
    decoded to the given natural size, followed by the continuation of
    [Promise.all] when this was the last image and no image has failed
    before. *)
Definition img_onload (i : nat) (naturalW naturalH : Q) (now : Q) (st : Page X) : Page X :=
  match imagePaths (vars st) !! i with
  | None => st
  | Some path =>
      let img := mkImage path naturalW naturalH in
      let st := with_loader (fun l =>
                  mkLoader (manifest l) (S (loadedCount l)) (totalCount l)
                           (loadPromises l) (allLoaded l)) st in
      let st := with_dom (set_loadingMessage_text
                  (MsgLoadingImage (loadedCount (loader st)) (totalCount (loader st)))) st in
      let st := with_vars (fun v => set_imageCache (<[path := img]> (imageCache v)) v) st in
      let st := with_loader (fun l =>
                  mkLoader (manifest l) (loadedCount l) (totalCount l)
                           (<[i := Fulfilled]> (loadPromises l)) (allLoaded l)) st in
      if Promise_eqb (allLoaded (loader st)) Pending
         && all_fulfilled (loadPromises (loader st))
      then
        let st := with_loader (fun l =>
                    mkLoader (manifest l) (loadedCount l) (totalCount l)
                             (loadPromises l) Fulfilled) st in
        loadAllImages_then now st
      else st
  end.

(** [img.onerror] of the image at position [i], followed by the [catch]
    block when this is the first failure. *)
Definition img_onerror (i : nat) (st : Page X) : Page X :=
  let st := with_loader (fun l =>
              mkLoader (manifest l) (loadedCount l) (totalCount l)
                       (<[i := Rejected]> (loadPromises l)) (allLoaded l)) st in
  if Promise_eqb (allLoaded (loader st)) Pending then
    let st := with_loader (fun l =>
                mkLoader (manifest l) (loadedCount l) (totalCount l)
                         (loadPromises l) Rejected) st in
    loadAllImages_catch st
  else st.

(** [fetchImages] once the manifest has arrived and decoded. *)
Definition fetchImages_then (paths : list string) (st : Page X) : Page X :=
  let st := with_loader (fun l =>
              mkLoader Fulfilled (loadedCount l) (totalCount l)
                       (loadPromises l) (allLoaded l)) st in
  let st := with_vars (set_imagePaths paths) st in
  if (0 <? frameCount st)%Z then loadAllImages st else st.

(** The [catch] block of [fetchImages]. *)
Definition fetchImages_catch (st : Page X) : Page X :=
  let st := with_loader (fun l =>
              mkLoader Rejected (loadedCount l) (totalCount l)
                       (loadPromises l) (allLoaded l)) st in
  with_dom (set_loadingMessage_text MsgErrorData) st.

(** *** Events *)

(** The host runs the frame callbacks that are due; each is
    [runAnimationLoop]. *)
Definition animationFrame (now : Q) (st : Page X) : Page X :=
  let due := raf_pending (host st) in
  let st := with_host (fun h => mkHost [] (raf_next h)) st in
  fold_left (fun s _ => runAnimationLoop now s) due st.

Inductive Event :=
| ManifestArrived (paths : list string)
| ManifestFailed
| ImageLoaded (i : nat) (naturalW naturalH : Q) (now : Q)
| ImageFailed (i : nat)
| FrameCallback (now : Q)
| ClickPlayPause (now : Q)
| ClickPrev
| ClickNext
| ScrubberChange (v : Z).

(** Whether the host can deliver the event: a request or an image settles
    once, a frame callback runs only when one is scheduled, and a control
    that is not displayed receives no input; the scrubber only yields values
    within its bounds. *)
Definition enabled (e : Event) (st : Page X) : bool :=
  match e with
  | ManifestArrived _ | ManifestFailed => Promise_eqb (manifest (loader st)) Pending
  | ImageLoaded i _ _ _ | ImageFailed i =>
      match loadPromises (loader st) !! i with
      | Some Pending => true
      | _ => false
      end
  | FrameCallback _ =>
      match raf_pending (host st) with [] => false | _ => true end
  | ClickPlayPause _ | ClickPrev | ClickNext => controls_shown (dom st)
  | ScrubberChange v =>
      scrubber_shown (dom st) && (0 <=? v)%Z && (v <=? scrubber_max (dom st))%Z
  end.

Definition handle (e : Event) (st : Page X) : Page X :=
  match e with
  | ManifestArrived paths => fetchImages_then paths st
  | ManifestFailed => fetchImages_catch st
  | ImageLoaded i w h now => img_onload i w h now st
  | ImageFailed i => img_onerror i st
  | FrameCallback now => animationFrame now st
  | ClickPlayPause now => togglePlayPause now st
  | ClickPrev => prevFrame st
  | ClickNext => nextFrame st
  | ScrubberChange v => handleScrubberInput (with_dom (set_scrubber_value v) st)
  end.

Definition dispatch (e : Event) (st : Page X) : option (Page X) :=
  if enabled e st then Some (handle e st) else None.

(** A whole session: the events in order, [None] as soon as one of them
    cannot be delivered. *)
Fixpoint session (es : list Event) (st : Page X) : option (Page X) :=
  match es with
  | [] => Some st
  | e :: es' =>
      match dispatch e st with
      | Some st' => session es' st'
      | None => None
      end
  end.

(** Ticking: the host runs the scheduled frame callback at each of the given
    times. *)
Definition ticking (times : list Q) (st : Page X) : Page X :=
  fold_left (fun s t => animationFrame t s) times st.

(** Whether the tick at [currentTime] advances the frame. *)
Definition advancesAt (currentTime : Q) (st : Page X) : bool :=
  isPlaying (vars st)
  && js_ge (js_sub currentTime (lastFrameTime (vars st))) (currentFrameInterval st).

(** The number of advances made while ticking. *)
Fixpoint advances (times : list Q) (st : Page X) : nat :=
  match times with
  | [] => 0
  | t :: times' =>
      (if advancesAt t st then 1 else 0)%nat + advances times' (animationFrame t st)
  end.

End Player.

(** *** The ideal timeline

    For a frame interval of [interval] milliseconds, the value of
    [FRAME_INTERVAL_MS]: [dwell interval n index] is the dwell of frame
    [index] among [n]; [frameAfter n index k] is the frame on display after
    [k] advances; [elapsed interval n index k] is the time the first [k]
    dwells take together, so that a player at frame [index] since time
    [since] is due for its [k]-th advance at
    [since + elapsed interval n index k]. *)

Definition dwell (interval : Q) (n index : Z) : Q :=
  if (index =? n - 1)%Z then 1000%Q else interval.

Fixpoint frameAfter (n index : Z) (k : nat) : Z :=
  match k with
  | O => index
  | S k' => frameAfter n (js_rem (index + 1) n) k'
  end.

Fixpoint elapsed (interval : Q) (n index : Z) (k : nat) : Q :=
  match k with
  | O => 0%Q
  | S k' => (dwell interval n index + elapsed interval n (js_rem (index + 1) n) k')%Q
  end.

(** The time of one loop: (N - 1) * frameInterval + holdDuration. *)
Definition loopTime (interval : Q) (n : Z) : Q :=
  (inject_Z (n - 1) * interval + 1000)%Q.

(** Tick times on which every subtraction the engine can make, of the time
    of the last advance ([since] or an earlier tick) from the time of a tick,
    is exact in binary64; whole milliseconds are. *)
Fixpoint exact_ticks (since : Q) (times : list Q) : bool :=
  match times with
  | [] => true
  | t :: times' => forallb (fun u => sub_exact u since) times && exact_ticks t times'
  end.

(** *** The two phases of a page

    Before the loader has reported full success the page is [waiting]: the
    loading presentation, nothing revealed, no frame callback scheduled.
    From then on it is [synced]: the playback interface is revealed and the
    scrubber follows the current frame. *)

Record waiting {X} (st : Page X) : Prop := mkWaiting {
  waiting_message : loadingMessage_shown (dom st) = true;
  waiting_image : goesImage_shown (dom st) = false /\ goesImage_src (dom st) = None;
  waiting_controls : controls_shown (dom st) = false;
  waiting_scrubber : scrubber_shown (dom st) = false;
  waiting_flag : isPlaying (vars st) = true;
  waiting_frames : raf_pending (host st) = [] /\ animationFrameId (vars st) = None
}.

Record synced {X} (st : Page X) : Prop := mkSynced {
  synced_frames : (0 < frameCount st)%Z;
  synced_index : (0 <= currentIndex (vars st) < frameCount st)%Z;
  synced_max : scrubber_max (dom st) = (frameCount st - 1)%Z;
  synced_scrubber : scrubber_value (dom st) = currentIndex (vars st);
  synced_shown : scrubber_shown (dom st) = true /\ controls_shown (dom st) = true
}.

Record invariant {X} (st : Page X) : Prop := mkInvariant {
  inv_loaded : allLoaded (loader st) = Fulfilled -> synced st;
  inv_waiting : allLoaded (loader st) <> Fulfilled -> waiting st;
  inv_settled : allLoaded (loader st) = Fulfilled ->
                forallb (fun p => Promise_eqb p Fulfilled) (loadPromises (loader st)) = true;
  inv_manifest : manifest (loader st) <> Fulfilled ->
                 loadPromises (loader st) = [] /\ allLoaded (loader st) = Pending
}.

(** The frame callbacks match the flag: one callback is scheduled, the one
    [animationFrameId] names, while [isPlaying] is set, and none otherwise. *)
Definition callbacks_match {X} (st : Page X) : Prop :=
  if isPlaying (vars st)
  then exists id, raf_pending (host st) = [id] /\ animationFrameId (vars st) = Some id
  else raf_pending (host st) = [].

(** Every frame in the cache is a frame of the manifest, and the cache is
    empty for as long as the manifest has not arrived. *)
Definition cached_from_manifest {X} (st : Page X) : Prop :=
  (manifest (loader st) <> Fulfilled -> imageCache (vars st) = ∅)
  /\ (forall key : string,
        is_Some (imageCache (vars st) !! key) -> key ∈ imagePaths (vars st)).

(** The number of images loaded so far: the fulfilled promises. *)
Definition fulfilledCount (ps : list Promise) : nat :=
  length (List.filter (fun p => Promise_eqb p Fulfilled) ps).

(** The bookkeeping of the loader: the counter counts the loaded images,
    there is one promise per frame of the manifest, and there are no frames
    before the manifest has arrived. *)
Definition loader_counts {X} (st : Page X) : Prop :=
  loadedCount (loader st) = fulfilledCount (loadPromises (loader st))
  /\ length (loadPromises (loader st)) = length (imagePaths (vars st))
  /\ totalCount (loader st) = length (imagePaths (vars st))
  /\ (manifest (loader st) <> Fulfilled -> imagePaths (vars st) = []).

(** Every cache entry is the image of its own key, and every frame whose
    promise has fulfilled is in the cache. *)
Definition cache_filled {X} (st : Page X) : Prop :=
  (forall (key : string) (img : Image),
      imageCache (vars st) !! key = Some img -> src img = key)
  /\ (forall (i : nat) (path : string),
        loadPromises (loader st) !! i = Some Fulfilled ->
        imagePaths (vars st) !! i = Some path ->
        is_Some (imageCache (vars st) !! path)).

(** Every frame of the manifest is in the cache, as the image of its path. *)
Definition cache_complete {X} (st : Page X) : Prop :=
  forall (i : nat) (path : string),
    imagePaths (vars st) !! i = Some path ->
    exists img, imageCache (vars st) !! path = Some img /\ src img = path.

(** The image element shows the frame at [currentIndex]. *)
Definition displays_current {X} (st : Page X) : Prop :=
  exists path : string,
    array_get (imagePaths (vars st)) (currentIndex (vars st)) = Some path
    /\ goesImage_src (dom st) = Some path.



(** Tick times that increase strictly from [since] on, as the timestamps of a
    monotonic clock do. *)
Fixpoint increasing (since : Q) (times : list Q) : bool :=
  match times with
  | [] => true
  | t :: times' => negb (Qle_bool t since) && increasing t times'
  end.

(** Tick times none of which is later than [limit]. *)
Definition within (limit : Q) (times : list Q) : bool :=
  forallb (fun t => Qle_bool t limit) times.

(** Whether there is a tick at the instant [d]. *)
Definition tickAt (d : Q) (times : list Q) : bool :=
  existsb (fun t => Qeq_bool t d) times.

(** The variables as the scripts declare them. *)
Definition initialVars : Vars := mkVars [] ∅ 0%Z true None 0%Q.

(** Modelled from the spec: the page markup and its style sheet are not among
    the sources.  The page starts in its loading presentation: the loading
    message is displayed; the image, the controls and the scrubber are not
    displayed until the loader reveals them; the range input has its default
    bounds. *)
Definition initialDom : Dom := mkDom MsgMarkup true None false false 0%Z 100%Z false BtnMarkup.
Definition initialHost : Host := mkHost [] 1.
Definition initialLoader : Loader := mkLoader Pending 0 0 [] Pending.
Definition initialPage {X} (x : X) : Page X :=
  mkPage initialVars initialDom initialHost initialLoader x.

(** ** The plain player *)

Module Plain.
Definition ANIMATION_FPS : Q := 7%Q.
Definition initial : Page unit := initialPage tt.
Definition handle : Event -> Page unit -> Page unit := handle ANIMATION_FPS ext.
Definition session : list Event -> Page unit -> option (Page unit) :=
  session ANIMATION_FPS ext.
End Plain.

(** ** Clamped-origin zoom *)

Module ClampedZoom.
Local Open Scope Q_scope.

Definition ZOOM_SCALE : Q := 21 # 10.
Definition CONTROL_INSET_PX : Q := 80.
Definition ALLOW_MOUSE_INPUT : bool := true.
Definition ANIMATION_FPS : Q := 5.

(** [isZooming], [imageRectCache], the pointers [imageContainer] holds
    captured, and the inline style of [zoomWrapper]: the transform origin in
    percent and the scale; [None] is the cleared style. *)
Record Zoom := mkZoom {
  isZooming : bool;
  imageRectCache : option DOMRect;
  captured : list Z;
  transformOrigin : option (Q * Q);
  transform : option Q
}.

Definition idle : Zoom := mkZoom false None [] None None.

Definition controlBoxWidth (rect : DOMRect) : Q :=
  Math_max 1 (rect_width rect - 2 * CONTROL_INSET_PX).
Definition controlBoxHeight (rect : DOMRect) : Q :=
  Math_max 1 (rect_height rect - 2 * CONTROL_INSET_PX).

Definition clampedX (rect : DOMRect) (event : PointerEvent) : Q :=
  let x := clientX event - rect_left rect in
  let inset := CONTROL_INSET_PX in
  Math_max inset (Math_min x (rect_width rect - inset)).
Definition clampedY (rect : DOMRect) (event : PointerEvent) : Q :=
  let y := clientY event - rect_top rect in
  let inset := CONTROL_INSET_PX in
  Math_max inset (Math_min y (rect_height rect - inset)).

(** Steps 1 to 4 of [applyZoom]: the origin fractions. *)
Definition originX (rect : DOMRect) (event : PointerEvent) : Q :=
  (clampedX rect event - CONTROL_INSET_PX) / controlBoxWidth rect.
Definition originY (rect : DOMRect) (event : PointerEvent) : Q :=
  (clampedY rect event - CONTROL_INSET_PX) / controlBoxHeight rect.

Definition applyZoom (event : PointerEvent) (z : Zoom) : Zoom :=
  match imageRectCache z with
  | None => z
  | Some rect =>
      mkZoom (isZooming z) (imageRectCache z) (captured z)
             (Some (originX rect event * 100, originY rect event * 100))
             (Some ZOOM_SCALE)
  end.

Definition resetZoom (z : Zoom) : Zoom :=
  mkZoom (isZooming z) (imageRectCache z) (captured z) None None.

(** [bounding] is [goesImage.getBoundingClientRect()] at the time of the
    event. *)
Definition handlePointerDown (bounding : DOMRect) (event : PointerEvent) (z : Zoom) : Zoom :=
  if negb ALLOW_MOUSE_INPUT && PointerType_eqb (pointerType event) mouse then z
  else if negb (isPrimary event) then z
  else
    let z := mkZoom true (imageRectCache z) (captured z) (transformOrigin z) (transform z) in
    let z := mkZoom (isZooming z) (Some bounding) (captured z) (transformOrigin z) (transform z) in
    let z := mkZoom (isZooming z) (imageRectCache z)
                    (setPointerCapture (pointerId event) (captured z))
                    (transformOrigin z) (transform z) in
    applyZoom event z.

Definition handlePointerMove (event : PointerEvent) (z : Zoom) : Zoom :=
  if negb (isZooming z) then z else applyZoom event z.

Definition handlePointerUp (event : PointerEvent) (z : Zoom) : Zoom :=
  if negb (isZooming z) then z
  else
    let z := mkZoom false (imageRectCache z) (captured z) (transformOrigin z) (transform z) in
    let z := mkZoom (isZooming z) (imageRectCache z)
                    (releasePointerCapture (pointerId event) (captured z))
                    (transformOrigin z) (transform z) in
    let z := mkZoom (isZooming z) None (captured z) (transformOrigin z) (transform z) in
    resetZoom z.

(** The pointer events of [imageContainer]; each carries the rectangle the
    image has in the layout at that moment. *)
Inductive Pointer :=
| Down (bounding : DOMRect) (event : PointerEvent)
| Move (bounding : DOMRect) (event : PointerEvent)
| Up (event : PointerEvent).

Definition pointer (p : Pointer) (z : Zoom) : Zoom :=
  match p with
  | Down bounding event => handlePointerDown bounding event z
  | Move _ event => handlePointerMove event z
  | Up event => handlePointerUp event z
  end.

Definition gesture (ps : list Pointer) (z : Zoom) : Zoom :=
  fold_left (fun z p => pointer p z) ps z.

(** The event a listener receives. *)
Definition event_of (p : Pointer) : PointerEvent :=
  match p with
  | Down _ event | Move _ event | Up event => event
  end.

(** Pointer-moves, each with the rectangle the image has in the layout when
    it arrives. *)
Definition moves (ms : list (DOMRect * PointerEvent)) : list Pointer :=
  map (fun m => Move (fst m) (snd m)) ms.

Definition initial : Page Zoom := initialPage idle.
Definition handle : Event -> Page Zoom -> Page Zoom := handle ANIMATION_FPS ext.
Definition session : list Event -> Page Zoom -> option (Page Zoom) :=
  session ANIMATION_FPS ext.
End ClampedZoom.

(** ** Fixed-point zoom *)

Module FixedZoom.
Local Open Scope Q_scope.

Definition ZOOM_SCALE : Q := 2.
Definition ANIMATION_FPS : Q := 5.

(** [zoomActive], [zoomPointerId], the pointers [goesImage] holds captured,
    and the inline style of [goesImage]: the transform origin in pixels and
    the scale. *)
Record Zoom := mkZoom {
  zoomActive : bool;
  zoomPointerId : option Z;
  captured : list Z;
  transformOrigin : option (Q * Q);
  transform : option Q
}.

Definition idle : Zoom := mkZoom false None [] None None.

(** [bounding] is [goesImage.getBoundingClientRect()], measured by the
    function itself on every call. *)
Definition applyZoomAt (bounding : DOMRect) (e : PointerEvent) (z : Zoom) : Zoom :=
  let rect := bounding in
  let x := clientX e - rect_left rect in
  let y := clientY e - rect_top rect in
  mkZoom (zoomActive z) (zoomPointerId z) (captured z) (Some (x, y)) (Some ZOOM_SCALE).

Definition startZoom (bounding : DOMRect) (e : PointerEvent) (z : Zoom) : Zoom :=
  if zoomActive z then z
  else
    let z := mkZoom true (zoomPointerId z) (captured z) (transformOrigin z) (transform z) in
    let z := mkZoom (zoomActive z) (Some (pointerId e)) (captured z)
                    (transformOrigin z) (transform z) in
    let z := mkZoom (zoomActive z) (zoomPointerId z)
                    (setPointerCapture (pointerId e) (captured z))
                    (transformOrigin z) (transform z) in
    applyZoomAt bounding e z.

Definition is_pointer (id : option Z) (e : PointerEvent) : bool :=
  match id with
  | Some p => Z.eqb (pointerId e) p
  | None => false
  end.

Definition moveZoom (bounding : DOMRect) (e : PointerEvent) (z : Zoom) : Zoom :=
  if negb (zoomActive z) || negb (is_pointer (zoomPointerId z) e) then z
  else applyZoomAt bounding e z.

Definition endZoom (e : PointerEvent) (z : Zoom) : Zoom :=
  if negb (zoomActive z) || negb (is_pointer (zoomPointerId z) e) then z
  else
    let z := mkZoom (zoomActive z) (zoomPointerId z)
                    (match zoomPointerId z with
                     | Some p => releasePointerCapture p (captured z)
                     | None => captured z
                     end)
                    (transformOrigin z) (transform z) in
    let z := mkZoom false (zoomPointerId z) (captured z) (transformOrigin z) (transform z) in
    let z := mkZoom (zoomActive z) None (captured z) (transformOrigin z) (transform z) in
    mkZoom (zoomActive z) (zoomPointerId z) (captured z) None (Some 1).

(** The [pointerdown] listener of [goesImage]. *)
Definition onPointerDown (bounding : DOMRect) (e : PointerEvent) (z : Zoom) : Zoom :=
  if PointerType_eqb (pointerType e) touch || PointerType_eqb (pointerType e) pen
  then startZoom bounding e z
  else z.

Inductive Pointer :=
| Down (bounding : DOMRect) (e : PointerEvent)
| Move (bounding : DOMRect) (e : PointerEvent)
| Up (e : PointerEvent).

Definition pointer (p : Pointer) (z : Zoom) : Zoom :=
  match p with
  | Down bounding e => onPointerDown bounding e z
  | Move bounding e => moveZoom bounding e z
  | Up e => endZoom e z
  end.

Definition gesture (ps : list Pointer) (z : Zoom) : Zoom :=
  fold_left (fun z p => pointer p z) ps z.

(** The event a listener receives. *)
Definition event_of (p : Pointer) : PointerEvent :=
  match p with
  | Down _ e | Move _ e | Up e => e
  end.

Definition initial : Page Zoom := initialPage idle.
Definition handle : Event -> Page Zoom -> Page Zoom := handle ANIMATION_FPS ext.
Definition session : list Event -> Page Zoom -> option (Page Zoom) :=
  session ANIMATION_FPS ext.
End FixedZoom.

(** ** Magnifier lens ([docs/script.js]) *)

Module Magnifier.
Local Open Scope Q_scope.

Definition ANIMATION_FPS : Q := 5.
Definition MAG_ZOOM : Q := 5 # 2.
Definition MAG_DIAMETER : Q := 180.
Definition MAG_RADIUS : Q := MAG_DIAMETER / 2.
Definition MAG_OFFSET_x : Q := 16.
Definition MAG_OFFSET_y : Q := - (MAG_RADIUS + 16).

(** The inline style of the lens element; lengths in pixels. *)
Record Style := mkStyle {
  display : bool;
  backgroundImage : option string;
  backgroundSize : option (Q * Q);
  backgroundPosition : option (Num * Num);
  left_px : option Q;
  top_px : option Q
}.

(** [magnifierActive], [activePointerId], the pointers [goesImage] holds
    captured, the natural size the image element reports, and the style of
    the lens. *)
Record Lens := mkLens {
  magnifierActive : bool;
  activePointerId : option Z;
  captured : list Z;
  goesImage_naturalWidth : Q;
  goesImage_naturalHeight : Q;
  style : Style
}.

Definition with_style (f : Style -> Style) (l : Lens) : Lens :=
  mkLens (magnifierActive l) (activePointerId l) (captured l)
         (goesImage_naturalWidth l) (goesImage_naturalHeight l) (f (style l)).

Definition idle : Lens :=
  mkLens false None [] 0 0 (mkStyle false None None None None None).

Definition clamp (value min max : Q) : Q := Math_max min (Math_min max value).

(** The natural-image coordinate of a pointer coordinate in the words of the
    specification: the position relative to the image rectangle, clamped
    into the rectangle and scaled by the ratio of the natural size to the
    displayed size. *)
Definition naturalCoord (pointer origin displayed natural : Q) : Q :=
  clamp (pointer - origin) 0 displayed * (natural / displayed).

(** The frame the lens shows: [imageCache[imagePaths[currentIndex]]], as far
    as its natural size goes; a member of [Object.prototype] has none and
    reads like a missing entry. *)
Definition currentImage (st : Page Lens) : option Image :=
  member_image
    (object_get (imageCache (vars st))
                (prop_key (array_get (imagePaths (vars st)) (currentIndex (vars st))))).

(** [img?.naturalWidth || goesImage.naturalWidth || 0], and the same for the
    height; a missing [img] gives the falsy [undefined], here 0. *)
Definition nW (img : option Image) (l : Lens) : Q :=
  js_or (js_or (from_option naturalWidth 0 img) (goesImage_naturalWidth l)) 0.
Definition nH (img : option Image) (l : Lens) : Q :=
  js_or (js_or (from_option naturalHeight 0 img) (goesImage_naturalHeight l)) 0.

(** The new lens after [updateMagnifierSource()]; an empty path is falsy as
    [undefined] is. *)
Definition updateMagnifierSource (st : Page Lens) : Lens :=
  match array_get (imagePaths (vars st)) (currentIndex (vars st)) with
  | None => ext st
  | Some path =>
      if String.eqb path "" then ext st
      else
        let l := with_style (fun s =>
                   mkStyle (display s) (Some path) (backgroundSize s)
                           (backgroundPosition s) (left_px s) (top_px s)) (ext st) in
        let img := member_image (object_get (imageCache (vars st)) path) in
        let nW := nW img l in
        let nH := nH img l in
        if truthy nW && truthy nH then
          with_style (fun s =>
            mkStyle (display s) (backgroundImage s) (Some (nW * MAG_ZOOM, nH * MAG_ZOOM))
                    (backgroundPosition s) (left_px s) (top_px s)) l
        else l
  end.

(** The new lens after [moveMagnifier(clientX, clientY)]; [imgRect] and
    [containerRect] are the two rectangles the function measures. *)
Definition moveMagnifier (imgRect containerRect : DOMRect) (clientX clientY : Q)
           (st : Page Lens) : Lens :=
  let xRelImg := clientX - rect_left imgRect in
  let yRelImg := clientY - rect_top imgRect in
  let xRelImg := clamp xRelImg 0 (rect_width imgRect) in
  let yRelImg := clamp yRelImg 0 (rect_height imgRect) in
  let path := array_get (imagePaths (vars st)) (currentIndex (vars st)) in
  let img := member_image (object_get (imageCache (vars st)) (prop_key path)) in
  let nW := nW img (ext st) in
  let nH := nH img (ext st) in
  if negb (truthy nW) || negb (truthy nH) then ext st
  else
    let scaleX := num_div Fin (Fin nW) (Fin (rect_width imgRect)) in
    let scaleY := num_div Fin (Fin nH) (Fin (rect_height imgRect)) in
    let nx := num_mul Fin (Fin xRelImg) scaleX in
    let ny := num_mul Fin (Fin yRelImg) scaleY in
    let bgX := num_neg (num_sub Fin (num_mul Fin nx (Fin MAG_ZOOM)) (Fin MAG_RADIUS)) in
    let bgY := num_neg (num_sub Fin (num_mul Fin ny (Fin MAG_ZOOM)) (Fin MAG_RADIUS)) in
    let l := with_style (fun s =>
               mkStyle (display s) (backgroundImage s) (backgroundSize s)
                       (Some (bgX, bgY)) (left_px s) (top_px s)) (ext st) in
    let centerX := (clientX - rect_left containerRect) + MAG_OFFSET_x in
    let centerY := (clientY - rect_top containerRect) + MAG_OFFSET_y in
    let left := clamp (centerX - MAG_RADIUS) 0 (rect_width containerRect - MAG_DIAMETER) in
    let top := clamp (centerY - MAG_RADIUS) 0 (rect_height containerRect - MAG_DIAMETER) in
    with_style (fun s =>
      mkStyle (display s) (backgroundImage s) (backgroundSize s)
              (backgroundPosition s) (Some left) (Some top)) l.

Definition showMagnifier (imgRect containerRect : DOMRect) (e : PointerEvent)
           (st : Page Lens) : Page Lens :=
  if magnifierActive (ext st) then st
  else
    let l := ext st in
    let l := mkLens (magnifierActive l) (Some (pointerId e)) (captured l)
                    (goesImage_naturalWidth l) (goesImage_naturalHeight l) (style l) in
    let l := mkLens true (activePointerId l) (captured l)
                    (goesImage_naturalWidth l) (goesImage_naturalHeight l) (style l) in
    let l := mkLens (magnifierActive l) (activePointerId l)
                    (setPointerCapture (pointerId e) (captured l))
                    (goesImage_naturalWidth l) (goesImage_naturalHeight l) (style l) in
    let st := with_ext l st in
    let st := with_ext (updateMagnifierSource st) st in
    let st := with_ext (with_style (fun s =>
                mkStyle true (backgroundImage s) (backgroundSize s)
                        (backgroundPosition s) (left_px s) (top_px s)) (ext st)) st in
    with_ext (moveMagnifier imgRect containerRect (clientX e) (clientY e) st) st.

Definition is_pointer (id : option Z) (e : PointerEvent) : bool :=
  match id with
  | Some p => Z.eqb (pointerId e) p
  | None => false
  end.

Definition updateMagnifier (imgRect containerRect : DOMRect) (e : PointerEvent)
           (st : Page Lens) : Page Lens :=
  if negb (magnifierActive (ext st)) || negb (is_pointer (activePointerId (ext st)) e) then st
  else with_ext (moveMagnifier imgRect containerRect (clientX e) (clientY e) st) st.

Definition hideMagnifier (e : PointerEvent) (st : Page Lens) : Page Lens :=
  if negb (magnifierActive (ext st)) || negb (is_pointer (activePointerId (ext st)) e) then st
  else
    let l := ext st in
    let l := mkLens (magnifierActive l) (activePointerId l)
                    (match activePointerId l with
                     | Some p => releasePointerCapture p (captured l)
                     | None => captured l
                     end)
                    (goesImage_naturalWidth l) (goesImage_naturalHeight l) (style l) in
    let l := mkLens (magnifierActive l) None (captured l)
                    (goesImage_naturalWidth l) (goesImage_naturalHeight l) (style l) in
    let l := mkLens false (activePointerId l) (captured l)
                    (goesImage_naturalWidth l) (goesImage_naturalHeight l) (style l) in
    with_ext (with_style (fun s =>
      mkStyle false (backgroundImage s) (backgroundSize s)
              (backgroundPosition s) (left_px s) (top_px s)) l) st.

(** The [pointerdown] listener of [goesImage]. *)
Definition onPointerDown (imgRect containerRect : DOMRect) (e : PointerEvent)
           (st : Page Lens) : Page Lens :=
  if PointerType_eqb (pointerType e) touch || PointerType_eqb (pointerType e) pen
  then showMagnifier imgRect containerRect e st
  else st.

(** What [displayFrame] does once it has swapped the source. *)
Definition onFrameShown (st : Page Lens) : Lens :=
  if magnifierActive (ext st) then updateMagnifierSource st else ext st.

Inductive Pointer :=
| Down (imgRect containerRect : DOMRect) (e : PointerEvent)
| Move (imgRect containerRect : DOMRect) (e : PointerEvent)
| Up (e : PointerEvent).

Definition pointer (p : Pointer) (st : Page Lens) : Page Lens :=
  match p with
  | Down imgRect containerRect e => onPointerDown imgRect containerRect e st
  | Move imgRect containerRect e => updateMagnifier imgRect containerRect e st
  | Up e => hideMagnifier e st
  end.

Definition gesture (ps : list Pointer) (st : Page Lens) : Page Lens :=
  fold_left (fun st p => pointer p st) ps st.

(** The event a listener receives. *)
Definition event_of (p : Pointer) : PointerEvent :=
  match p with
  | Down _ _ e | Move _ _ e | Up e => e
  end.

Definition initial : Page Lens := initialPage idle.
Definition displayFrame : Z -> Page Lens -> Page Lens := displayFrame onFrameShown.
Definition handle : Event -> Page Lens -> Page Lens := handle ANIMATION_FPS onFrameShown.
Definition session : list Event -> Page Lens -> option (Page Lens) :=
  session ANIMATION_FPS onFrameShown.







End Magnifier.

(** ** Concrete sessions *)

Module Scenario.
Local Open Scope Q_scope.

(** The manifest ["a.png", "b.png", "c.png"]. *)
Definition frames : list string := ["a.png"; "b.png"; "c.png"]%string.

(** The manifest arrives and the three images load, 800 x 600 each, the last
    one at time [now]. *)
Definition loadAll (now : Q) : list Event :=
  [ManifestArrived frames;
   ImageLoaded 0 800 600 now; ImageLoaded 1 800 600 now; ImageLoaded 2 800 600 now].

(** The page of each script after that session, playing at frame 0 since
    time 0. *)
Definition plain : Page unit := default Plain.initial (Plain.session (loadAll 0) Plain.initial).
Definition clamped : Page ClampedZoom.Zoom :=
  default ClampedZoom.initial (ClampedZoom.session (loadAll 0) ClampedZoom.initial).
Definition fixed : Page FixedZoom.Zoom :=
  default FixedZoom.initial (FixedZoom.session (loadAll 0) FixedZoom.initial).
Definition lens : Page Magnifier.Lens :=
  default Magnifier.initial (Magnifier.session (loadAll 0) Magnifier.initial).

(** Ticks at a fixed period: [period], [2 * period], ..., [n * period]. *)
Definition every (period : Q) (n : nat) : list Q :=
  map (fun k => inject_Z (Z.of_nat k) * period) (seq 1 n).
End Scenario.

(** * Properties *)

(** ** Numbers *)

(** Case analysis on every [Math.max] and [Math.min] of the goal, then linear
    arithmetic. *)
Ltac minmax_split a b f spec :=
  let H := fresh "H" in
  let m := fresh "m" in
  pose proof (spec a b) as H;
  set (m := f a b) in *; clearbody m;
  destruct H as [[? ?] | [? ?]].

Ltac minmax_cases :=
  unfold Math_max, Math_min in *;
  repeat match goal with
    | |- context [Qmax ?a ?b] => minmax_split a b Qmax Q.max_spec
    | |- context [Qmin ?a ?b] => minmax_split a b Qmin Q.min_spec
    | _ : context [Qmax ?a ?b] |- _ => minmax_split a b Qmax Q.max_spec
    | _ : context [Qmin ?a ?b] |- _ => minmax_split a b Qmin Q.min_spec
    end.

Lemma Math_max_ge_l (a b : Q) : (a <= Math_max a b)%Q.
Proof. minmax_cases; lra. Qed.

(** A quotient with a numerator in [0, d] and a denominator [d >= 1] (or any
    positive one) is a fraction of the unit interval. *)
Lemma fraction_in_unit (n d : Q) :
  (0 < d -> 0 <= n -> n <= d -> 0 <= n / d <= 1)%Q.
Proof.
  intros Hd Hn Hnd. split.
  - apply Qle_shift_div_l; [exact Hd | lra].
  - apply Qle_shift_div_r; [exact Hd | lra].
Qed.

Lemma fraction_zero (n d : Q) : (n == 0 -> n / d == 0)%Q.
Proof. intros H. rewrite H. unfold Qdiv. ring. Qed.

Lemma fraction_one (n d : Q) : (0 < d -> n == d -> n / d == 1)%Q.
Proof. intros Hd H. rewrite H. field. lra. Qed.

Lemma fraction_half (n d : Q) : (0 < d -> 2 * n == d -> n / d == 1 # 2)%Q.
Proof. intros Hd H. rewrite <- H. field. lra. Qed.

(** ** Clamped-origin zoom: the origin fractions *)

Section ClampedOrigin.
Import ClampedZoom.
Local Open Scope Q_scope.

Lemma controlBoxWidth_ge_1 rect : 1 <= controlBoxWidth rect.
Proof. unfold controlBoxWidth. apply Math_max_ge_l. Qed.

Lemma controlBoxHeight_ge_1 rect : 1 <= controlBoxHeight rect.
Proof. unfold controlBoxHeight. apply Math_max_ge_l. Qed.

(** The clamp of one axis, as a function of the pointer coordinate [p]
    relative to the rectangle and of the side [w] of the rectangle. *)
Lemma axis_range (p w : Q) :
  0 <= (Math_max 80 (Math_min p (w - 80)) - 80) / Math_max 1 (w - 2 * 80) <= 1.
Proof.
  apply fraction_in_unit; minmax_cases; lra.
Qed.

Lemma axis_low (p w : Q) :
  p <= 80 -> (Math_max 80 (Math_min p (w - 80)) - 80) / Math_max 1 (w - 2 * 80) == 0.
Proof.
  intros Hp. apply fraction_zero. minmax_cases; lra.
Qed.

Lemma axis_degenerate (p w : Q) :
  w <= 2 * 80 ->
  Math_max 1 (w - 2 * 80) == 1
  /\ Math_max 80 (Math_min p (w - 80)) == 80
  /\ (Math_max 80 (Math_min p (w - 80)) - 80) / Math_max 1 (w - 2 * 80) == 0.
Proof.
  intros Hw. split; [| split].
  - minmax_cases; lra.
  - minmax_cases; lra.
  - apply fraction_zero. minmax_cases; lra.
Qed.

Lemma axis_high (p w : Q) :
  2 * 80 + 1 <= w -> w - 80 <= p ->
  (Math_max 80 (Math_min p (w - 80)) - 80) / Math_max 1 (w - 2 * 80) == 1.
Proof.
  intros Hw Hp. apply fraction_one; minmax_cases; lra.
Qed.

Lemma axis_centre (p w : Q) :
  2 * 80 + 1 <= w -> p == w / 2 ->
  (Math_max 80 (Math_min p (w - 80)) - 80) / Math_max 1 (w - 2 * 80) == 1 # 2.
Proof.
  intros Hw Hp.
  assert (Hp' : 2 * p == w) by (rewrite Hp; field).
  apply fraction_half; minmax_cases; lra.
Qed.

Lemma originX_range rect event : 0 <= originX rect event <= 1.
Proof. apply axis_range. Qed.

Lemma originY_range rect event : 0 <= originY rect event <= 1.
Proof. apply axis_range. Qed.

Lemma applyZoom_origin rect event z :
  imageRectCache z = Some rect ->
  transformOrigin (applyZoom event z)
  = Some (originX rect event * 100, originY rect event * 100).
Proof. intros H. unfold applyZoom. rewrite H. reflexivity. Qed.

End ClampedOrigin.

Section ClampedOriginClaims.
Import ClampedZoom.
Local Open Scope Q_scope.

(** C7, as stated, fails on small rectangles.  On a 100 x 100 rectangle the
    pointer at the exact centre (50, 50) gets the origin (0, 0), not
    (0.5, 0.5); and on a rectangle 160.5 wide a pointer to the right of the
    control box gets the fraction 0.5, which is neither 0 nor 1. *)
Lemma C7_counterexample :
  (originX (mkRect 0 0 100 100) (mkPointer 1 touch true 50 50) == 0
   /\ originY (mkRect 0 0 100 100) (mkPointer 1 touch true 50 50) == 0
   /\ ~ originX (mkRect 0 0 100 100) (mkPointer 1 touch true 50 50) == 1 # 2)
  /\ (rect_width (mkRect 0 0 (321 # 2) 300) - CONTROL_INSET_PX
        < clientX (mkPointer 1 touch true 200 150) - rect_left (mkRect 0 0 (321 # 2) 300)
      /\ originX (mkRect 0 0 (321 # 2) 300) (mkPointer 1 touch true 200 150) == 1 # 2
      /\ ~ originX (mkRect 0 0 (321 # 2) 300) (mkPointer 1 touch true 200 150) == 0
      /\ ~ originX (mkRect 0 0 (321 # 2) 300) (mkPointer 1 touch true 200 150) == 1).
Proof.
  repeat split; try (vm_compute; reflexivity); try (intro H; vm_compute in H; discriminate).
Qed.

(** C7 (amended).  Under clamped-origin zoom with the symmetric inset
    [CONTROL_INSET_PX] = 80, for every rectangle and every pointer position
    both origin fractions lie in [0, 1].  A position left of (above) the
    control box gives the fraction 0.  When the rectangle is at least
    2 * inset + 1 wide (high), so that the control box is at least one pixel
    wide (high), a position right of (below) the control box gives exactly 1
    and the pointer at the centre of the rectangle gives 0.5.  Pointer-down
    at the top-left corner of a 400 x 300 rectangle clamps the position to
    (80, 80) and sets the origin (0, 0). *)
Theorem C7_clamped_origin_fractions :
  (forall rect event,
      let x := clientX event - rect_left rect in
      let y := clientY event - rect_top rect in
      (0 <= originX rect event <= 1 /\ 0 <= originY rect event <= 1)
      /\ (x <= CONTROL_INSET_PX -> originX rect event == 0)
      /\ (y <= CONTROL_INSET_PX -> originY rect event == 0)
      /\ (2 * CONTROL_INSET_PX + 1 <= rect_width rect ->
          rect_width rect - CONTROL_INSET_PX <= x -> originX rect event == 1)
      /\ (2 * CONTROL_INSET_PX + 1 <= rect_height rect ->
          rect_height rect - CONTROL_INSET_PX <= y -> originY rect event == 1)
      /\ (2 * CONTROL_INSET_PX + 1 <= rect_width rect ->
          x == rect_width rect / 2 -> originX rect event == 1 # 2)
      /\ (2 * CONTROL_INSET_PX + 1 <= rect_height rect ->
          y == rect_height rect / 2 -> originY rect event == 1 # 2))
  /\ (forall left top id type z,
        let rect := mkRect left top 400 300 in
        let event := mkPointer id type true left top in
        clampedX rect event == 80 /\ clampedY rect event == 80
        /\ originX rect event == 0 /\ originY rect event == 0
        /\ transformOrigin (handlePointerDown rect event z)
           = Some (originX rect event * 100, originY rect event * 100)).
Proof.
  split.
  - intros rect event x y. unfold CONTROL_INSET_PX.
    split; [split; [apply originX_range | apply originY_range] |].
    split; [intros H; apply axis_low; exact H |].
    split; [intros H; apply axis_low; exact H |].
    split; [intros Hw H; apply axis_high; assumption |].
    split; [intros Hw H; apply axis_high; assumption |].
    split; intros Hw H; apply axis_centre; assumption.
  - intros left top id type z rect event.
    assert (Hx : clientX event - rect_left rect <= 80) by (simpl; lra).
    assert (Hy : clientY event - rect_top rect <= 80) by (simpl; lra).
    split; [| split; [| split; [| split]]].
    + unfold clampedX, CONTROL_INSET_PX. simpl. minmax_cases; lra.
    + unfold clampedY, CONTROL_INSET_PX. simpl. minmax_cases; lra.
    + apply axis_low. exact Hx.
    + apply axis_low. exact Hy.
    + reflexivity.
Qed.

(** C10.  The origin computation is total on degenerate snapshots: both
    denominators are at least 1, so the division is never by zero; when the
    width (height) of the rectangle is at most twice the inset, the
    denominator is exactly 1, the clamp returns the inset and the fraction
    of that axis is 0; in every case both fractions lie in [0, 1], and a
    primary pointer-down always sets the origin from them. *)
Theorem C10_degenerate_rect_total :
  forall rect event,
    (1 <= controlBoxWidth rect /\ 1 <= controlBoxHeight rect)
    /\ (rect_width rect <= 2 * CONTROL_INSET_PX ->
        controlBoxWidth rect == 1
        /\ clampedX rect event == CONTROL_INSET_PX
        /\ originX rect event == 0)
    /\ (rect_height rect <= 2 * CONTROL_INSET_PX ->
        controlBoxHeight rect == 1
        /\ clampedY rect event == CONTROL_INSET_PX
        /\ originY rect event == 0)
    /\ (0 <= originX rect event <= 1 /\ 0 <= originY rect event <= 1)
    /\ (forall z, isPrimary event = true ->
          transformOrigin (handlePointerDown rect event z)
          = Some (originX rect event * 100, originY rect event * 100)).
Proof.
  intros rect event.
  split; [split; [apply controlBoxWidth_ge_1 | apply controlBoxHeight_ge_1] |].
  split; [intros H; apply (axis_degenerate _ _ H) |].
  split; [intros H; apply (axis_degenerate _ _ H) |].
  split; [split; [apply originX_range | apply originY_range] |].
  intros z Hp. unfold handlePointerDown. rewrite Hp. reflexivity.
Qed.

(** C7 at the centre of a 400 x 300 rectangle. *)
Lemma C7_witness :
  originX (mkRect 10 20 400 300) (mkPointer 1 touch true 210 170) == 1 # 2
  /\ originY (mkRect 10 20 400 300) (mkPointer 1 touch true 210 170) == 1 # 2.
Proof.
  destruct (proj1 C7_clamped_origin_fractions
              (mkRect 10 20 400 300) (mkPointer 1 touch true 210 170))
    as (_ & _ & _ & _ & _ & Hx & Hy).
  split; [apply Hx | apply Hy]; vm_compute; first [reflexivity | discriminate].
Defined.

(** C10 on a 100 x 50 rectangle. *)
Lemma C10_witness :
  originX (mkRect 0 0 100 50) (mkPointer 1 touch true 70 10) == 0
  /\ originY (mkRect 0 0 100 50) (mkPointer 1 touch true 70 10) == 0
  /\ transformOrigin (handlePointerDown (mkRect 0 0 100 50) (mkPointer 1 touch true 70 10) idle)
     = Some (originX (mkRect 0 0 100 50) (mkPointer 1 touch true 70 10) * 100,
             originY (mkRect 0 0 100 50) (mkPointer 1 touch true 70 10) * 100).
Proof.
  destruct (C10_degenerate_rect_total (mkRect 0 0 100 50) (mkPointer 1 touch true 70 10))
    as (_ & Hx & Hy & _ & Hd).
  split; [| split].
  - apply Hx. vm_compute. discriminate.
  - apply Hy. vm_compute. discriminate.
  - apply Hd. reflexivity.
Defined.

End ClampedOriginClaims.

(** ** Magnifier lens: background position and lens position *)

Section MagnifierLens.
Import Magnifier.
Local Open Scope Q_scope.

Lemma clamp_range (value min max : Q) :
  min <= max -> min <= clamp value min max <= max.
Proof. intros H. unfold clamp. minmax_cases; lra. Qed.

Lemma truthy_nonzero (a : Q) : ~ a == 0 -> truthy a = true.
Proof.
  intros H. unfold truthy. destruct (Qeq_bool a 0) eqn:E; [| reflexivity].
  apply Qeq_bool_iff in E. contradiction.
Qed.

Lemma Qeq_bool_nonzero (a : Q) : ~ a == 0 -> Qeq_bool a 0 = false.
Proof.
  intros H. destruct (Qeq_bool a 0) eqn:E; [| reflexivity].
  apply Qeq_bool_iff in E. contradiction.
Qed.

(** C6, as stated, fails outside the conditions the formulas need.  On the
    loaded page (frames of 800 x 600) with the pointer at (120, 200): in a
    container 150 px wide, narrower than the 180 px lens, the left of the
    lens is 0, which is not within [0, 150 - 180]; and when the image is
    displayed with a rectangle of size 0 x 0, the divisions by the displayed
    size leave NaN in both coordinates of the background position, not the
    value of the formula.  On a page whose frames have loaded without a
    natural size (0 x 0), [moveMagnifier] returns at its guard and sets
    neither the background position nor the left and top of the lens. *)
Lemma C6_counterexample :
  let nosize :=
    default Magnifier.initial
      (Magnifier.session
         [ManifestArrived Scenario.frames;
          ImageLoaded 0 0 0 0; ImageLoaded 1 0 0 0; ImageLoaded 2 0 0 0] Magnifier.initial) in
  (exists left : Q,
      left_px (style (moveMagnifier (mkRect 0 0 400 300) (mkRect 0 0 150 300) 120 200
                        Scenario.lens)) = Some left
      /\ left == 0
      /\ ~ (0 <= left <= rect_width (mkRect 0 0 150 300) - MAG_DIAMETER))
  /\ backgroundPosition
       (style (moveMagnifier (mkRect 0 0 0 0) (mkRect 0 0 400 300) 120 200 Scenario.lens))
     = Some (NaN, NaN)
  /\ (allLoaded (loader nosize) = Fulfilled
      /\ backgroundPosition
           (style (moveMagnifier (mkRect 0 0 400 300) (mkRect 0 0 400 300) 120 200 nosize))
         = None
      /\ left_px
           (style (moveMagnifier (mkRect 0 0 400 300) (mkRect 0 0 400 300) 120 200 nosize))
         = None
      /\ top_px
           (style (moveMagnifier (mkRect 0 0 400 300) (mkRect 0 0 400 300) 120 200 nosize))
         = None).
Proof.
  intros nosize.
  split; [| split; [vm_compute; reflexivity | vm_compute; repeat split]].
  eexists. split; [vm_compute; reflexivity |].
  split; [reflexivity |]. intros [_ H]. vm_compute in H. apply H. reflexivity.
Qed.

(** C6 (amended).  For every pointer position, once [moveMagnifier] has
    passed its guard (the natural width and height of the current frame are
    not 0): when the displayed image has a width and a height other than 0,
    the background position of the lens is, in each axis,
    -(naturalCoord * zoom - lensRadius), where naturalCoord is the pointer
    position clamped into the image rectangle and scaled by the ratio of
    natural to displayed size; and when the container is at least as wide
    (high) as the lens, the left (top) of the lens lies within
    [0, containerSize - lensDiameter]. *)
Theorem C6_magnifier_lens :
  forall (imgRect containerRect : DOMRect) (clientX clientY : Q) (st : Page Lens),
    let w := nW (currentImage st) (ext st) in
    let h := nH (currentImage st) (ext st) in
    ~ w == 0 -> ~ h == 0 ->
    let nx := naturalCoord clientX (rect_left imgRect) (rect_width imgRect) w in
    let ny := naturalCoord clientY (rect_top imgRect) (rect_height imgRect) h in
    let s := style (moveMagnifier imgRect containerRect clientX clientY st) in
    (~ rect_width imgRect == 0 -> ~ rect_height imgRect == 0 ->
     backgroundPosition s
     = Some (Fin (- (nx * MAG_ZOOM - MAG_RADIUS)), Fin (- (ny * MAG_ZOOM - MAG_RADIUS))))
    /\ (exists left top : Q,
          left_px s = Some left /\ top_px s = Some top
          /\ (MAG_DIAMETER <= rect_width containerRect ->
              0 <= left <= rect_width containerRect - MAG_DIAMETER)
          /\ (MAG_DIAMETER <= rect_height containerRect ->
              0 <= top <= rect_height containerRect - MAG_DIAMETER)).
Proof.
  intros imgRect containerRect cx cy st w h Hw Hh nx ny s.
  subst s. unfold moveMagnifier. fold (currentImage st). fold w. fold h.
  rewrite (truthy_nonzero w Hw), (truthy_nonzero h Hh). simpl.
  split.
  - intros Hiw Hih.
    rewrite (Qeq_bool_nonzero _ Hiw), (Qeq_bool_nonzero _ Hih). reflexivity.
  - eexists _, _. split; [reflexivity |]. split; [reflexivity |].
    split; intros H; apply clamp_range; lra.
Qed.

End MagnifierLens.


Section MagnifierLensWitness.
Import Magnifier.
Local Open Scope Q_scope.

(** C6 (amended) on the loaded page: an 800 x 600 frame displayed 400 x 300
    in a container of the same size, the pointer at (500, 40), right of the
    image. *)
Lemma C6_witness :
  backgroundPosition
    (style (moveMagnifier (mkRect 0 0 400 300) (mkRect 0 0 400 300) 500 40 Scenario.lens))
  = Some (Fin (- (naturalCoord 500 0 400 800 * MAG_ZOOM - MAG_RADIUS)),
          Fin (- (naturalCoord 40 0 300 600 * MAG_ZOOM - MAG_RADIUS)))
  /\ (naturalCoord 500 0 400 800 == 800 /\ naturalCoord 40 0 300 600 == 80)
  /\ exists left top : Q,
       left_px (style (moveMagnifier (mkRect 0 0 400 300) (mkRect 0 0 400 300) 500 40
                         Scenario.lens)) = Some left
       /\ top_px (style (moveMagnifier (mkRect 0 0 400 300) (mkRect 0 0 400 300) 500 40
                           Scenario.lens)) = Some top
       /\ 0 <= left <= 220 /\ 0 <= top <= 120.
Proof.
  destruct (C6_magnifier_lens (mkRect 0 0 400 300) (mkRect 0 0 400 300) 500 40 Scenario.lens)
    as (Hbg & left & top & Hl & Ht & HL & HT);
    try (vm_compute; intros H; discriminate).
  split.
  - rewrite Hbg by (vm_compute; intros H; discriminate). reflexivity.
  - split; [split; vm_compute; reflexivity |].
    exists left, top. split; [exact Hl |]. split; [exact Ht |].
    split; [apply HL | apply HT]; vm_compute; discriminate.
Defined.

End MagnifierLensWitness.

(** ** Gestures: the geometry a pointer-move uses *)

Section GestureGeometry.
Local Open Scope Q_scope.

Lemma clamped_move_keeps_snapshot (e : PointerEvent) (z : ClampedZoom.Zoom) :
  ClampedZoom.imageRectCache (ClampedZoom.handlePointerMove e z)
  = ClampedZoom.imageRectCache z
  /\ ClampedZoom.isZooming (ClampedZoom.handlePointerMove e z) = ClampedZoom.isZooming z
  /\ ClampedZoom.captured (ClampedZoom.handlePointerMove e z) = ClampedZoom.captured z.
Proof.
  unfold ClampedZoom.handlePointerMove, ClampedZoom.applyZoom.
  destruct (ClampedZoom.isZooming z) eqn:E; simpl; [| rewrite E; repeat split].
  destruct (ClampedZoom.imageRectCache z) eqn:F; simpl; rewrite ?E, ?F; repeat split.
Qed.

(** While only moves arrive, the clamped-origin zoom keeps its snapshot and
    stays active. *)
Lemma clamped_moves_keep_snapshot (ms : list (DOMRect * PointerEvent)) (z : ClampedZoom.Zoom) :
  ClampedZoom.imageRectCache (ClampedZoom.gesture (ClampedZoom.moves ms) z)
  = ClampedZoom.imageRectCache z
  /\ ClampedZoom.isZooming (ClampedZoom.gesture (ClampedZoom.moves ms) z)
     = ClampedZoom.isZooming z
  /\ ClampedZoom.captured (ClampedZoom.gesture (ClampedZoom.moves ms) z)
     = ClampedZoom.captured z.
Proof.
  revert z. induction ms as [| [b e] ms IH]; intros z; [repeat split |].
  change (ClampedZoom.gesture (ClampedZoom.moves ((b, e) :: ms)) z)
    with (ClampedZoom.gesture (ClampedZoom.moves ms) (ClampedZoom.handlePointerMove e z)).
  destruct (IH (ClampedZoom.handlePointerMove e z)) as (H1 & H2 & H3).
  destruct (clamped_move_keeps_snapshot e z) as (K1 & K2 & K3).
  rewrite H1, H2, H3. repeat split; assumption.
Qed.

Lemma clamped_gesture_app (ps qs : list ClampedZoom.Pointer) (z : ClampedZoom.Zoom) :
  ClampedZoom.gesture (ps ++ qs) z = ClampedZoom.gesture qs (ClampedZoom.gesture ps z).
Proof. unfold ClampedZoom.gesture. apply fold_left_app. Qed.

Lemma clamped_down_snapshot (bounding : DOMRect) (event : PointerEvent) (z : ClampedZoom.Zoom) :
  isPrimary event = true ->
  ClampedZoom.imageRectCache (ClampedZoom.handlePointerDown bounding event z) = Some bounding
  /\ ClampedZoom.isZooming (ClampedZoom.handlePointerDown bounding event z) = true.
Proof.
  intros Hp. unfold ClampedZoom.handlePointerDown. rewrite Hp. simpl. split; reflexivity.
Qed.

(** C3, as stated, fails for the fixed-point zoom.  The gesture starts at
    (100, 100) on an image at (0, 0); the image has moved to (50, 0) when the
    pointer moves to (120, 100).  The origin is then (70, 100), computed from
    the rectangle measured at the move, not (120, 100), which the rectangle
    of the pointer-down would give. *)
Lemma C3_counterexample :
  exists ox oy,
    FixedZoom.transformOrigin
      (FixedZoom.gesture
         [FixedZoom.Down (mkRect 0 0 400 300) (mkPointer 1 touch true 100 100);
          FixedZoom.Move (mkRect 50 0 400 300) (mkPointer 1 touch true 120 100)]
         FixedZoom.idle)
    = Some (ox, oy)
    /\ ox == 120 - rect_left (mkRect 50 0 400 300)
    /\ ~ ox == 120 - rect_left (mkRect 0 0 400 300).
Proof.
  eexists _, _. split; [vm_compute; reflexivity |].
  split; [vm_compute; reflexivity | intro H; vm_compute in H; discriminate].
Qed.

(** C3 (amended).  In the clamped-origin zoom a primary pointer-down
    snapshots the rectangle of the image, and every pointer-move that
    follows, for as long as only moves arrive, computes the transform from
    that snapshot, whatever rectangle the image has in the layout by then.
    The fixed-point zoom and the magnifier keep no snapshot: each of their
    pointer-moves computes from the rectangles measured at that move. *)
Theorem C3_gesture_geometry :
  (forall bounding down ms liveRect move z,
      isPrimary down = true ->
      let z' := ClampedZoom.gesture
                  (ClampedZoom.Down bounding down
                     :: ClampedZoom.moves ms ++ [ClampedZoom.Move liveRect move]) z in
      ClampedZoom.imageRectCache z' = Some bounding
      /\ ClampedZoom.transformOrigin z'
         = Some (ClampedZoom.originX bounding move * 100,
                 ClampedZoom.originY bounding move * 100))
  /\ (forall liveRect move z,
        FixedZoom.zoomActive z = true ->
        FixedZoom.zoomPointerId z = Some (pointerId move) ->
        FixedZoom.transformOrigin (FixedZoom.moveZoom liveRect move z)
        = Some (clientX move - rect_left liveRect, clientY move - rect_top liveRect))
  /\ (forall liveImgRect liveContainerRect move st,
        Magnifier.magnifierActive (ext st) = true ->
        Magnifier.activePointerId (ext st) = Some (pointerId move) ->
        ext (Magnifier.updateMagnifier liveImgRect liveContainerRect move st)
        = Magnifier.moveMagnifier liveImgRect liveContainerRect
            (clientX move) (clientY move) st).
Proof.
  split; [| split].
  - intros bounding down ms liveRect move z Hp z'. subst z'.
    change (ClampedZoom.Down bounding down
              :: ClampedZoom.moves ms ++ [ClampedZoom.Move liveRect move])
      with ([ClampedZoom.Down bounding down]
              ++ ClampedZoom.moves ms ++ [ClampedZoom.Move liveRect move]).
    rewrite !clamped_gesture_app.
    change (ClampedZoom.gesture [ClampedZoom.Down bounding down] z)
      with (ClampedZoom.handlePointerDown bounding down z).
    destruct (clamped_down_snapshot bounding down z Hp) as [Hs Ha].
    destruct (clamped_moves_keep_snapshot ms (ClampedZoom.handlePointerDown bounding down z))
      as (Ks & Ka & _).
    rewrite Hs in Ks. rewrite Ha in Ka.
    set (z1 := ClampedZoom.gesture (ClampedZoom.moves ms)
                 (ClampedZoom.handlePointerDown bounding down z)) in *.
    change (ClampedZoom.gesture [ClampedZoom.Move liveRect move] z1)
      with (ClampedZoom.handlePointerMove move z1).
    unfold ClampedZoom.handlePointerMove. rewrite Ka. simpl.
    split.
    + unfold ClampedZoom.applyZoom. rewrite Ks. reflexivity.
    + apply applyZoom_origin. exact Ks.
  - intros liveRect move z Ha Hid. unfold FixedZoom.moveZoom.
    rewrite Ha, Hid. simpl. rewrite Z.eqb_refl. reflexivity.
  - intros liveImgRect liveContainerRect move st Ha Hid. unfold Magnifier.updateMagnifier.
    rewrite Ha, Hid. simpl. rewrite Z.eqb_refl. reflexivity.
Qed.

(** C3 (amended) on a gesture during which the image moves twice. *)
Lemma C3_witness :
  ClampedZoom.transformOrigin
    (ClampedZoom.gesture
       (ClampedZoom.Down (mkRect 0 0 400 300) (mkPointer 1 touch true 100 100)
          :: ClampedZoom.moves [(mkRect 50 0 400 300, mkPointer 1 touch true 110 100)]
          ++ [ClampedZoom.Move (mkRect 90 10 400 300) (mkPointer 1 touch true 120 100)])
       ClampedZoom.idle)
  = Some (ClampedZoom.originX (mkRect 0 0 400 300) (mkPointer 1 touch true 120 100) * 100,
          ClampedZoom.originY (mkRect 0 0 400 300) (mkPointer 1 touch true 120 100) * 100)
  /\ FixedZoom.transformOrigin
       (FixedZoom.moveZoom (mkRect 50 0 400 300) (mkPointer 1 touch true 120 100)
          (FixedZoom.startZoom (mkRect 0 0 400 300) (mkPointer 1 touch true 100 100)
             FixedZoom.idle))
     = Some (120 - 50, 100 - 0).
Proof.
  destruct C3_gesture_geometry as (Hc & Hf & _). split.
  - apply Hc. reflexivity.
  - apply Hf; reflexivity.
Defined.

End GestureGeometry.

(** ** Gestures: a second pointer-down *)

Section SecondPointer.
Local Open Scope Q_scope.

(** C8, as stated, fails for the clamped-origin zoom.  A touch (pointer 1)
    starts a gesture on an image at (0, 0); while it is active a mouse
    button (pointer 2, the primary pointer of its own kind) goes down with
    the image at (50, 0).  The handler takes a new snapshot and captures
    pointer 2 as well. *)
Lemma C8_counterexample :
  let z1 := ClampedZoom.handlePointerDown (mkRect 0 0 400 300)
              (mkPointer 1 touch true 100 100) ClampedZoom.idle in
  let z2 := ClampedZoom.handlePointerDown (mkRect 50 0 400 300)
              (mkPointer 2 mouse true 300 200) z1 in
  ClampedZoom.isZooming z1 = true
  /\ ClampedZoom.imageRectCache z1 = Some (mkRect 0 0 400 300)
  /\ ClampedZoom.captured z1 = [1%Z]
  /\ ClampedZoom.imageRectCache z2 = Some (mkRect 50 0 400 300)
  /\ ClampedZoom.captured z2 = [2%Z; 1%Z]
  /\ ClampedZoom.imageRectCache z2 <> ClampedZoom.imageRectCache z1
  /\ z2 <> z1.
Proof.
  vm_compute. repeat split; try discriminate.
Qed.

(** C8 (amended).  In the fixed-point zoom and in the magnifier, while a
    gesture is active a pointer-down from any pointer, primary or not, of
    any id, leaves the whole state as it is: no new gesture, no new
    measurement, the same captured pointer id.  In the clamped-origin zoom,
    which records no pointer id, a pointer-down from a non-primary pointer
    leaves the whole state as it is, during a gesture or not. *)
Theorem C8_second_pointer_down :
  (forall bounding e z,
      FixedZoom.zoomActive z = true -> FixedZoom.onPointerDown bounding e z = z)
  /\ (forall imgRect containerRect e st,
        Magnifier.magnifierActive (ext st) = true ->
        Magnifier.onPointerDown imgRect containerRect e st = st)
  /\ (forall bounding e z,
        isPrimary e = false -> ClampedZoom.handlePointerDown bounding e z = z).
Proof.
  split; [| split].
  - intros bounding e z Ha. unfold FixedZoom.onPointerDown, FixedZoom.startZoom.
    rewrite Ha. destruct (_ || _); reflexivity.
  - intros imgRect containerRect e st Ha.
    unfold Magnifier.onPointerDown, Magnifier.showMagnifier.
    rewrite Ha. destruct (_ || _); reflexivity.
  - intros bounding e z Hp. unfold ClampedZoom.handlePointerDown.
    rewrite Hp. reflexivity.
Qed.

(** C8 (amended) on a second finger going down during a gesture. *)
Lemma C8_witness :
  let second := mkPointer 2 touch false 300 200 in
  let zf := FixedZoom.onPointerDown (mkRect 0 0 400 300)
              (mkPointer 1 touch true 100 100) FixedZoom.idle in
  let zc := ClampedZoom.handlePointerDown (mkRect 0 0 400 300)
              (mkPointer 1 touch true 100 100) ClampedZoom.idle in
  let sm := Magnifier.onPointerDown (mkRect 0 0 400 300) (mkRect 0 0 400 300)
              (mkPointer 1 touch true 100 100) Scenario.lens in
  FixedZoom.onPointerDown (mkRect 50 0 400 300) second zf = zf
  /\ Magnifier.onPointerDown (mkRect 50 0 400 300) (mkRect 0 0 400 300) second sm = sm
  /\ ClampedZoom.handlePointerDown (mkRect 50 0 400 300) second zc = zc.
Proof.
  intros second zf zc sm. destruct C8_second_pointer_down as (Hf & Hm & Hc).
  split; [| split].
  - apply Hf. reflexivity.
  - apply Hm. vm_compute. reflexivity.
  - apply Hc. reflexivity.
Defined.

End SecondPointer.

(** ** The player: phases of a session *)

Lemma range_sanitize_id (max v : Z) : (0 <= v <= max)%Z -> range_sanitize max v = v.
Proof. unfold range_sanitize. lia. Qed.

Lemma js_rem_range (a n : Z) : (0 <= a)%Z -> (0 < n)%Z -> (0 <= js_rem a n < n)%Z.
Proof. intros Ha Hn. unfold js_rem. apply Z.rem_bound_pos; lia. Qed.

Lemma all_fulfilled_no_pending (ps : list Promise) (i : nat) :
  forallb (fun p => Promise_eqb p Fulfilled) ps = true -> ps !! i <> Some Pending.
Proof.
  intros H E. rewrite forallb_forall in H.
  apply list_elem_of_lookup_2, list_elem_of_In, H in E. discriminate.
Qed.

(** Projections of a page after field updates. *)
Ltac page_simpl :=
  unfold frameCount, requestAnimationFrame, cancelAnimationFrame in *;
  cbn [vars dom host loader ext with_vars with_dom with_host with_loader with_ext
       imagePaths imageCache currentIndex isPlaying animationFrameId lastFrameTime
       set_imagePaths set_imageCache set_currentIndex set_isPlaying set_animationFrameId
       set_lastFrameTime
       loadingMessage_text loadingMessage_shown goesImage_src goesImage_shown controls_shown
       scrubber_value scrubber_max scrubber_shown playPauseBtn_text
       set_loadingMessage_text set_loadingMessage_shown set_goesImage_src set_goesImage_shown
       set_controls_shown set_scrubber_shown set_playPauseBtn_text set_scrubber_value
       set_scrubber_max
       raf_pending raf_next manifest loadedCount totalCount loadPromises allLoaded
       Promise_eqb negb andb] in *.

Ltac page_open st :=
  destruct st as [[? ? ? ? ? ?] [? ? ? ? ? ? ? ? ?] [? ?] [? ? ? ? ?] ?]; page_simpl.

(** Case analysis along the branches of a handler. *)
Ltac page_cases :=
  repeat (match goal with
          | |- context [if negb ?c then _ else _] => destruct c eqn:?
          | |- context [if ?c then _ else _] => destruct c eqn:?
          | |- context [match ?x with Some _ => _ | None => _ end] => destruct x eqn:?
          end; page_simpl).

Section PlayerPhases.
Context {X : Type}.
Variable ANIMATION_FPS : Q.
Variable onFrameShown : Page X -> X.

Lemma updateUI_synced (index : Z) (st : Page X) :
  (0 < frameCount st)%Z -> scrubber_max (dom st) = (frameCount st - 1)%Z ->
  scrubber_shown (dom st) = true -> controls_shown (dom st) = true ->
  (0 <= index < frameCount st)%Z ->
  synced (updateUI onFrameShown index st)
  /\ currentIndex (vars (updateUI onFrameShown index st)) = index.
Proof.
  intros H1 H2 H3 H4 H5. unfold updateUI, displayFrame. page_open st.
  page_cases; (split; [| reflexivity]);
    (constructor; page_simpl; [lia | lia | assumption | apply range_sanitize_id; lia | auto]).
Qed.

Lemma updateUI_rest (index : Z) (st : Page X) :
  loader (updateUI onFrameShown index st) = loader st
  /\ host (updateUI onFrameShown index st) = host st
  /\ isPlaying (vars (updateUI onFrameShown index st)) = isPlaying (vars st)
  /\ lastFrameTime (vars (updateUI onFrameShown index st)) = lastFrameTime (vars st)
  /\ imagePaths (vars (updateUI onFrameShown index st)) = imagePaths (vars st)
  /\ animationFrameId (vars (updateUI onFrameShown index st)) = animationFrameId (vars st).
Proof.
  unfold updateUI, displayFrame. page_open st. page_cases; repeat split.
Qed.

Lemma stopAnimation_synced (st : Page X) :
  synced st -> synced (stopAnimation st).
Proof.
  intros [H1 H2 H3 H4 H5]. unfold stopAnimation. page_open st.
  page_cases; constructor; page_simpl; assumption.
Qed.

Lemma stopAnimation_rest (st : Page X) :
  loader (stopAnimation st) = loader st
  /\ currentIndex (vars (stopAnimation st)) = currentIndex (vars st)
  /\ isPlaying (vars (stopAnimation st)) = false.
Proof.
  unfold stopAnimation. page_open st. page_cases; repeat split.
Qed.

Lemma startAnimation_synced (now : Q) (st : Page X) :
  synced st -> synced (startAnimation now st).
Proof.
  intros [H1 H2 H3 H4 H5]. unfold startAnimation. page_open st.
  page_cases; constructor; page_simpl; assumption.
Qed.

Lemma togglePlayPause_synced (now : Q) (st : Page X) :
  synced st -> synced (togglePlayPause now st)
  /\ loader (togglePlayPause now st) = loader st.
Proof.
  intros H. unfold togglePlayPause.
  destruct (isPlaying (vars st)).
  - split; [apply stopAnimation_synced, H | apply stopAnimation_rest].
  - destruct (0 <? frameCount st)%Z; [| split; [exact H | reflexivity]].
    split; [apply startAnimation_synced, H |].
    unfold startAnimation. page_open st. page_cases; reflexivity.
Qed.

Lemma prevFrame_synced (st : Page X) :
  synced st ->
  synced (prevFrame onFrameShown st)
  /\ loader (prevFrame onFrameShown st) = loader st
  /\ currentIndex (vars (prevFrame onFrameShown st))
     = js_rem (currentIndex (vars st) - 1 + frameCount st) (frameCount st).
Proof.
  intros H. pose proof (stopAnimation_synced st H) as [H1 H2 H3 H4 [H5 H6]].
  destruct (stopAnimation_rest st) as (L & C & _).
  assert (F : frameCount (stopAnimation st) = frameCount st).
  { unfold stopAnimation. page_open st. page_cases; reflexivity. }
  unfold prevFrame.
  destruct (updateUI_synced
              (js_rem (currentIndex (vars (stopAnimation st)) - 1 + frameCount (stopAnimation st))
                      (frameCount (stopAnimation st)))
              (stopAnimation st)) as [S E]; try assumption.
  { apply js_rem_range; lia. }
  split; [exact S |]. split.
  - rewrite (proj1 (updateUI_rest _ _)). exact L.
  - rewrite E, C, F. reflexivity.
Qed.

Lemma nextFrame_synced (st : Page X) :
  synced st ->
  synced (nextFrame onFrameShown st)
  /\ loader (nextFrame onFrameShown st) = loader st
  /\ currentIndex (vars (nextFrame onFrameShown st))
     = js_rem (currentIndex (vars st) + 1) (frameCount st).
Proof.
  intros H. pose proof (stopAnimation_synced st H) as [H1 H2 H3 H4 [H5 H6]].
  destruct (stopAnimation_rest st) as (L & C & _).
  assert (F : frameCount (stopAnimation st) = frameCount st).
  { unfold stopAnimation. page_open st. page_cases; reflexivity. }
  unfold nextFrame.
  destruct (updateUI_synced
              (js_rem (currentIndex (vars (stopAnimation st)) + 1)
                      (frameCount (stopAnimation st)))
              (stopAnimation st)) as [S E]; try assumption.
  { apply js_rem_range; lia. }
  split; [exact S |]. split.
  - rewrite (proj1 (updateUI_rest _ _)). exact L.
  - rewrite E, C, F. reflexivity.
Qed.

End PlayerPhases.

Section PlayerSession.
Context {X : Type}.
Variable ANIMATION_FPS : Q.
Variable onFrameShown : Page X -> X.

Lemma stopAnimation_keeps (st : Page X) :
  frameCount (stopAnimation st) = frameCount st
  /\ scrubber_value (dom (stopAnimation st)) = scrubber_value (dom st)
  /\ scrubber_max (dom (stopAnimation st)) = scrubber_max (dom st)
  /\ scrubber_shown (dom (stopAnimation st)) = scrubber_shown (dom st)
  /\ controls_shown (dom (stopAnimation st)) = controls_shown (dom st).
Proof.
  unfold stopAnimation. page_open st. page_cases; repeat split.
Qed.

Lemma handleScrubberInput_synced (v : Z) (st : Page X) :
  synced st -> (0 <= v <= scrubber_max (dom st))%Z ->
  let st' := handleScrubberInput onFrameShown (with_dom (set_scrubber_value v) st) in
  synced st' /\ loader st' = loader st /\ currentIndex (vars st') = v.
Proof.
  intros [H1 H2 H3 H4 [H5 H6]] Hv st'. subst st'.
  set (st1 := with_dom (set_scrubber_value v) st).
  assert (V : scrubber_value (dom st1) = v).
  { subst st1. page_open st. apply range_sanitize_id. exact Hv. }
  assert (K : frameCount st1 = frameCount st /\ scrubber_max (dom st1) = scrubber_max (dom st)
              /\ scrubber_shown (dom st1) = scrubber_shown (dom st)
              /\ controls_shown (dom st1) = controls_shown (dom st)
              /\ loader st1 = loader st).
  { subst st1. page_open st. repeat split. }
  destruct K as (K1 & K2 & K3 & K4 & K5).
  destruct (stopAnimation_keeps st1) as (F & S1 & S2 & S3 & S4).
  destruct (stopAnimation_rest st1) as (L & _ & _).
  unfold handleScrubberInput.
  destruct (updateUI_synced onFrameShown (scrubber_value (dom (stopAnimation st1)))
              (stopAnimation st1)) as [S E]; try lia; try congruence.
  split; [exact S |]. split.
  - rewrite (proj1 (updateUI_rest _ _ _)). congruence.
  - rewrite E. congruence.
Qed.

Lemma runAnimationLoop_synced (now : Q) (st : Page X) :
  synced st ->
  synced (runAnimationLoop ANIMATION_FPS onFrameShown now st)
  /\ loader (runAnimationLoop ANIMATION_FPS onFrameShown now st) = loader st.
Proof.
  intros H. unfold runAnimationLoop.
  destruct (negb (isPlaying (vars st))); [split; [exact H | reflexivity] |].
  destruct (js_ge _ _).
  - set (st1 := with_vars (set_lastFrameTime now) st).
    assert (H1 : synced st1).
    { destruct H as [H1 H2 H3 H4 H5]. subst st1. page_open st. constructor; assumption. }
    destruct H1 as [H1 H2 H3 H4 [H5 H6]].
    destruct (updateUI_synced onFrameShown
                (js_rem (currentIndex (vars st1) + 1) (frameCount st1)) st1)
      as [[S1 S2 S3 S4 S5] E]; try assumption.
    { apply js_rem_range; lia. }
    destruct (updateUI_rest onFrameShown
                (js_rem (currentIndex (vars st1) + 1) (frameCount st1)) st1)
      as (L & _).
    set (st2 := updateUI onFrameShown _ st1) in *.
    split.
    + page_open st2. constructor; assumption.
    + page_open st2. rewrite L. subst st1. page_open st. reflexivity.
  - destruct H as [H1 H2 H3 H4 H5]. page_open st. split; [constructor; assumption | reflexivity].
Qed.

Lemma animationFrame_synced (now : Q) (st : Page X) :
  synced st ->
  synced (animationFrame ANIMATION_FPS onFrameShown now st)
  /\ loader (animationFrame ANIMATION_FPS onFrameShown now st) = loader st.
Proof.
  intros H. unfold animationFrame.
  set (st1 := with_host _ st).
  assert (H1 : synced st1 /\ loader st1 = loader st).
  { destruct H as [H1 H2 H3 H4 H5]. subst st1. page_open st.
    split; [constructor; assumption | reflexivity]. }
  clearbody st1. revert st1 H1.
  induction (raf_pending (host st)) as [| id due IH]; intros st1 [S L]; [split; assumption |].
  simpl. apply IH.
  destruct (runAnimationLoop_synced now st1 S) as [S' L'].
  split; [exact S' | congruence].
Qed.

End PlayerSession.

Section PlayerInvariant.
Context {X : Type}.
Variable ANIMATION_FPS : Q.
Variable onFrameShown : Page X -> X.

Lemma invariant_initial (x : X) : invariant (initialPage x).
Proof.
  constructor; simpl; try discriminate.
  - intros _. constructor; simpl; auto.
  - intros _. split; reflexivity.
Qed.

Lemma invariant_loaded_step (st st' : Page X) :
  invariant st -> allLoaded (loader st) = Fulfilled ->
  loader st' = loader st -> synced st' -> invariant st'.
Proof.
  intros [I1 I2 I3 I4] Hl E S. constructor; rewrite E.
  - intros _. exact S.
  - intros H. contradiction.
  - exact I3.
  - exact I4.
Qed.

Lemma not_waiting_loaded (st : Page X) :
  invariant st ->
  controls_shown (dom st) = true \/ scrubber_shown (dom st) = true
  \/ raf_pending (host st) <> [] ->
  allLoaded (loader st) = Fulfilled.
Proof.
  intros [_ I2 _ _] H.
  destruct (allLoaded (loader st)) eqn:E; [| reflexivity |];
    (destruct I2 as [_ _ W3 W4 _ [W6 _]]; [discriminate |]);
    destruct H as [H | [H | H]]; congruence.
Qed.

Lemma pending_not_loaded (st : Page X) (i : nat) :
  invariant st -> loadPromises (loader st) !! i = Some Pending ->
  allLoaded (loader st) <> Fulfilled /\ manifest (loader st) = Fulfilled /\ waiting st.
Proof.
  intros [_ I2 I3 I4] H.
  assert (N : allLoaded (loader st) <> Fulfilled).
  { intros E. exact (all_fulfilled_no_pending _ i (I3 E) H). }
  split; [exact N |]. split; [| exact (I2 N)].
  destruct (manifest (loader st)) eqn:E; [| reflexivity |];
    (destruct I4 as [I4 _]; [discriminate |]); rewrite I4 in H; discriminate.
Qed.

Lemma loadAllImages_then_synced (now : Q) (st : Page X) :
  (0 < frameCount st)%Z ->
  let st' := loadAllImages_then onFrameShown now st in
  synced st' /\ loader st' = loader st.
Proof.
  intros Hn st'. subst st'. unfold loadAllImages_then.
  set (st1 := with_dom (set_scrubber_shown true) _).
  destruct (updateUI_synced onFrameShown 0 st1) as [S _];
    try (subst st1; page_open st; first [reflexivity | lia]).
  destruct (updateUI_rest onFrameShown 0 st1) as (L & _).
  set (st2 := updateUI onFrameShown 0 st1) in *.
  assert (S3 : synced (with_vars (set_isPlaying false) st2)
               /\ loader (with_vars (set_isPlaying false) st2) = loader st).
  { destruct S as [H1 H2 H3 H4 H5]. page_open st2.
    split; [constructor; assumption |]. rewrite L. subst st1. page_open st. reflexivity. }
  destruct S3 as [S3 L3].
  destruct (togglePlayPause_synced now _ S3) as [S4 L4].
  split; [exact S4 | congruence].
Qed.

Lemma img_onload_invariant (i : nat) (w h now : Q) (st : Page X) :
  invariant st -> loadPromises (loader st) !! i = Some Pending ->
  invariant (img_onload onFrameShown i w h now st).
Proof.
  intros I E. destruct (pending_not_loaded st i I E) as (N & M & W).
  unfold img_onload. destruct (imagePaths (vars st) !! i) as [path |] eqn:P; [| exact I].
  assert (Hn : (0 < frameCount st)%Z).
  { apply lookup_lt_Some in P. unfold frameCount. lia. }
  match goal with |- context [if ?c then _ else _] => destruct c eqn:C end.
  - apply andb_true_iff in C. destruct C as [C1 C2].
    match goal with |- invariant (loadAllImages_then _ _ ?s) => set (st1 := s) in * end.
    destruct (loadAllImages_then_synced now st1) as [S L].
    { subst st1. page_open st. exact Hn. }
    constructor; rewrite L.
    + intros _. exact S.
    + intros F. exfalso. apply F. subst st1. page_open st. reflexivity.
    + intros _. subst st1. page_open st. exact C2.
    + intros F. exfalso. apply F. subst st1. page_open st. exact M.
  - destruct I as [I1 I2 I3 I4]. destruct W as [W1 [W2 W2'] W3 W4 W5 [W6 W7]].
    page_open st. constructor; page_simpl.
    + intros F. contradiction.
    + intros _. constructor; page_simpl; auto.
    + intros F. contradiction.
    + intros F. contradiction.
Qed.

Lemma img_onerror_invariant (i : nat) (st : Page X) :
  invariant st -> loadPromises (loader st) !! i = Some Pending ->
  invariant (img_onerror i st)
  /\ allLoaded (loader (img_onerror i st)) = Rejected.
Proof.
  intros I E. destruct (pending_not_loaded st i I E) as (N & M & W).
  destruct W as [W1 [W2 W2'] W3 W4 W5 [W6 W7]].
  unfold img_onerror. page_open st.
  destruct allLoaded0; page_simpl; try contradiction;
    (split; [| reflexivity]); constructor; page_simpl; try discriminate;
      try (intros F; contradiction);
      intros _; constructor; page_simpl; auto.
Qed.

End PlayerInvariant.

Section PlayerReachable.
Context {X : Type}.
Variable ANIMATION_FPS : Q.
Variable onFrameShown : Page X -> X.

Lemma fetch_invariant (st : Page X) :
  invariant st -> manifest (loader st) = Pending ->
  (forall paths, invariant (fetchImages_then paths st)
                 /\ allLoaded (loader (fetchImages_then paths st)) = Pending)
  /\ invariant (fetchImages_catch st)
  /\ allLoaded (loader (fetchImages_catch st)) = Pending.
Proof.
  intros [I1 I2 I3 I4] M.
  destruct I4 as [P A]; [congruence |].
  destruct I2 as [W1 [W2 W2'] W3 W4 W5 [W6 W7]]; [congruence |].
  split; [intros paths | split].
  - unfold fetchImages_then, loadAllImages. page_open st. subst.
    page_cases; (split; [| reflexivity]); constructor; page_simpl; try discriminate;
      try (intros F; exfalso; apply F; reflexivity);
      intros _; constructor; page_simpl; auto.
  - unfold fetchImages_catch. page_open st. subst.
    constructor; page_simpl; try discriminate.
    + intros _. constructor; page_simpl; auto.
    + intros _. split; reflexivity.
  - unfold fetchImages_catch. page_open st. exact A.
Qed.

(** Every event the host can deliver keeps the invariant. *)
Lemma handle_invariant (e : Event) (st : Page X) :
  invariant st -> enabled e st = true ->
  invariant (handle ANIMATION_FPS onFrameShown e st).
Proof.
  intros I En. destruct e as [paths | | i w h now | i | now | now | | | v]; simpl in *.
  - destruct (manifest (loader st)) eqn:M; try discriminate.
    apply (fetch_invariant st I M).
  - destruct (manifest (loader st)) eqn:M; try discriminate.
    apply (fetch_invariant st I M).
  - destruct (loadPromises (loader st) !! i) as [[| |] |] eqn:P; try discriminate.
    apply img_onload_invariant; assumption.
  - destruct (loadPromises (loader st) !! i) as [[| |] |] eqn:P; try discriminate.
    apply img_onerror_invariant; assumption.
  - assert (L : allLoaded (loader st) = Fulfilled).
    { apply not_waiting_loaded; [exact I |]. right; right.
      destruct (raf_pending (host st)); [discriminate | discriminate]. }
    destruct (animationFrame_synced ANIMATION_FPS onFrameShown now st (inv_loaded st I L))
      as [S E].
    exact (invariant_loaded_step st _ I L E S).
  - assert (L : allLoaded (loader st) = Fulfilled)
      by (apply not_waiting_loaded; [exact I | left; exact En]).
    destruct (togglePlayPause_synced now st (inv_loaded st I L)) as [S E].
    exact (invariant_loaded_step st _ I L E S).
  - assert (L : allLoaded (loader st) = Fulfilled)
      by (apply not_waiting_loaded; [exact I | left; exact En]).
    destruct (prevFrame_synced onFrameShown st (inv_loaded st I L)) as (S & E & _).
    exact (invariant_loaded_step st _ I L E S).
  - assert (L : allLoaded (loader st) = Fulfilled)
      by (apply not_waiting_loaded; [exact I | left; exact En]).
    destruct (nextFrame_synced onFrameShown st (inv_loaded st I L)) as (S & E & _).
    exact (invariant_loaded_step st _ I L E S).
  - apply andb_true_iff in En. destruct En as [En Hv2].
    apply andb_true_iff in En. destruct En as [En Hv1].
    apply Z.leb_le in Hv1, Hv2.
    assert (L : allLoaded (loader st) = Fulfilled)
      by (apply not_waiting_loaded; [exact I | right; left; exact En]).
    destruct (handleScrubberInput_synced onFrameShown v st (inv_loaded st I L))
      as (S & E & _); [lia |].
    exact (invariant_loaded_step st _ I L E S).
Qed.

Lemma dispatch_invariant (e : Event) (st st' : Page X) :
  invariant st -> dispatch ANIMATION_FPS onFrameShown e st = Some st' -> invariant st'.
Proof.
  unfold dispatch. intros I H. destruct (enabled e st) eqn:En; [| discriminate].
  injection H as <-. apply handle_invariant; assumption.
Qed.

Lemma session_invariant (es : list Event) (st st' : Page X) :
  invariant st -> session ANIMATION_FPS onFrameShown es st = Some st' -> invariant st'.
Proof.
  revert st. induction es as [| e es IH]; intros st I H; simpl in H.
  - injection H as <-. exact I.
  - destruct (dispatch ANIMATION_FPS onFrameShown e st) as [st1 |] eqn:D; [| discriminate].
    exact (IH st1 (dispatch_invariant e st st1 I D) H).
Qed.

Lemma session_app (es1 es2 : list Event) (st : Page X) :
  session ANIMATION_FPS onFrameShown (es1 ++ es2) st
  = match session ANIMATION_FPS onFrameShown es1 st with
    | Some st1 => session ANIMATION_FPS onFrameShown es2 st1
    | None => None
    end.
Proof.
  revert st. induction es1 as [| e es1 IH]; intros st; simpl; [reflexivity |].
  destruct (dispatch ANIMATION_FPS onFrameShown e st); [apply IH | reflexivity].
Qed.

End PlayerReachable.

Section PlayerLoad.
Context {X : Type}.
Variable ANIMATION_FPS : Q.
Variable onFrameShown : Page X -> X.

(** Once the load has completed, the loader's state is final. *)
Lemma loaded_stays (e : Event) (st st' : Page X) :
  invariant st -> allLoaded (loader st) = Fulfilled ->
  dispatch ANIMATION_FPS onFrameShown e st = Some st' ->
  loader st' = loader st.
Proof.
  intros I L D. unfold dispatch in D.
  destruct (enabled e st) eqn:En; [| discriminate]. injection D as <-.
  pose proof (inv_loaded st I L) as S.
  destruct e as [paths | | i w h now | i | now | now | | | v]; simpl in *.
  - destruct (manifest (loader st)) eqn:M; try discriminate.
    destruct (inv_manifest st I) as [_ A]; congruence.
  - destruct (manifest (loader st)) eqn:M; try discriminate.
    destruct (inv_manifest st I) as [_ A]; congruence.
  - destruct (loadPromises (loader st) !! i) as [[| |] |] eqn:P; try discriminate.
    destruct (pending_not_loaded st i I P) as (N & _). contradiction.
  - destruct (loadPromises (loader st) !! i) as [[| |] |] eqn:P; try discriminate.
    destruct (pending_not_loaded st i I P) as (N & _). contradiction.
  - apply animationFrame_synced. exact S.
  - apply togglePlayPause_synced. exact S.
  - apply prevFrame_synced. exact S.
  - apply nextFrame_synced. exact S.
  - apply andb_true_iff in En. destruct En as [En Hv2].
    apply andb_true_iff in En. destruct En as [En Hv1].
    apply Z.leb_le in Hv1, Hv2.
    apply (handleScrubberInput_synced onFrameShown v st S). lia.
Qed.

(** Once the load has failed, it stays failed. *)
Lemma rejected_stays (e : Event) (st st' : Page X) :
  invariant st -> allLoaded (loader st) = Rejected ->
  dispatch ANIMATION_FPS onFrameShown e st = Some st' ->
  allLoaded (loader st') = Rejected.
Proof.
  intros I L D. unfold dispatch in D.
  destruct (enabled e st) eqn:En; [| discriminate]. injection D as <-.
  assert (W : forall P : Prop,
             controls_shown (dom st) = true \/ scrubber_shown (dom st) = true
             \/ raf_pending (host st) <> [] -> P).
  { intros P H. pose proof (not_waiting_loaded st I H). congruence. }
  destruct e as [paths | | i w h now | i | now | now | | | v]; simpl in *.
  - destruct (manifest (loader st)) eqn:M; try discriminate.
    destruct (inv_manifest st I) as [_ A]; congruence.
  - destruct (manifest (loader st)) eqn:M; try discriminate.
    destruct (inv_manifest st I) as [_ A]; congruence.
  - unfold img_onload. page_open st. subst. page_cases; try discriminate; reflexivity.
  - unfold img_onerror. page_open st. subst. reflexivity.
  - apply W. right; right. destruct (raf_pending (host st)); discriminate.
  - apply W. left. exact En.
  - apply W. left. exact En.
  - apply W. left. exact En.
  - apply W. right; left.
    apply andb_true_iff in En. destruct En as [En _].
    apply andb_true_iff in En. destruct En as [En _]. exact En.
Qed.

(** The step that completes the load is the [onload] of the last image; it
    leaves the player at frame 0, playing, with its first frame callback
    scheduled. *)
Lemma load_completion (e : Event) (st st' : Page X) :
  invariant st -> allLoaded (loader st) <> Fulfilled ->
  dispatch ANIMATION_FPS onFrameShown e st = Some st' ->
  allLoaded (loader st') = Fulfilled ->
  (exists i w h now,
      e = ImageLoaded i w h now
      /\ loadPromises (loader st) !! i = Some Pending
      /\ lastFrameTime (vars st') = now)
  /\ forallb (fun p => Promise_eqb p Fulfilled) (loadPromises (loader st')) = true
  /\ isPlaying (vars st') = true
  /\ raf_pending (host st') = [raf_next (host st)]
  /\ animationFrameId (vars st') = Some (raf_next (host st))
  /\ currentIndex (vars st') = 0%Z
  /\ scrubber_value (dom st') = 0%Z.
Proof.
  intros I N D L. pose proof (dispatch_invariant ANIMATION_FPS onFrameShown e st st' I D) as I'.
  unfold dispatch in D.
  destruct (enabled e st) eqn:En; [| discriminate]. injection D as <-.
  assert (W : forall P : Prop,
             controls_shown (dom st) = true \/ scrubber_shown (dom st) = true
             \/ raf_pending (host st) <> [] -> P).
  { intros P H. pose proof (not_waiting_loaded st I H). contradiction. }
  destruct e as [paths | | i w h now | i | now | now | | | v]; simpl in *.
  - destruct (manifest (loader st)) eqn:M; try discriminate.
    destruct (fetch_invariant st I M) as (F & _). destruct (F paths) as [_ A]. congruence.
  - destruct (manifest (loader st)) eqn:M; try discriminate.
    destruct (fetch_invariant st I M) as (_ & _ & A). congruence.
  - destruct (loadPromises (loader st) !! i) as [[| |] |] eqn:P; try discriminate.
    split; [exists i, w, h, now; split; [reflexivity | split; [exact P |]] |].
    + revert L. unfold img_onload.
      destruct (imagePaths (vars st) !! i) as [path |] eqn:Q; [| intros; contradiction].
      unfold loadAllImages_then, togglePlayPause, startAnimation, updateUI, displayFrame.
      page_open st. page_cases; intros; try reflexivity; try contradiction.
      all: apply lookup_lt_Some in Q; apply Z.ltb_ge in Heqb0; lia.
    + split; [exact (inv_settled _ I' L) |].
      destruct (pending_not_loaded st i I P) as (_ & _ & Wt).
      destruct Wt as [W1 [W2 W2'] W3 W4 W5 [W6 W7]].
      revert L. unfold img_onload.
      destruct (imagePaths (vars st) !! i) as [path |] eqn:Q; [| intros; contradiction].
      unfold loadAllImages_then, togglePlayPause, startAnimation, updateUI, displayFrame.
      page_open st. subst. page_cases; intros; try contradiction;
        try (apply lookup_lt_Some in Q; apply Z.ltb_ge in Heqb0; lia);
        repeat split; apply range_sanitize_id;
        apply lookup_lt_Some in Q; lia.
  - destruct (loadPromises (loader st) !! i) as [[| |] |] eqn:P; try discriminate.
    destruct (img_onerror_invariant i st I P) as [_ R]. congruence.
  - apply W. right; right. destruct (raf_pending (host st)); discriminate.
  - apply W. left. exact En.
  - apply W. left. exact En.
  - apply W. left. exact En.
  - apply W. right; left.
    apply andb_true_iff in En. destruct En as [En _].
    apply andb_true_iff in En. destruct En as [En _]. exact En.
Qed.

End PlayerLoad.

(** ** The player: claims about sessions *)

(** C2.  In each of the four scripts, in every state a session reaches once
    the load has completed, the value of the scrubber equals [currentIndex],
    which is a valid frame index.  After each further event (the step to the
    previous or next frame, a seek through the scrubber, a frame callback that
    advances or not, a click on play/pause) the two are equal again; the steps
    leave both at the neighbouring index modulo N and the seek leaves both at
    the value chosen. *)
Theorem C2_scrubber_follows_currentIndex :
  forall (X : Type) (ANIMATION_FPS : Q) (onFrameShown : Page X -> X) (x : X)
         (es : list Event) (st : Page X),
    session ANIMATION_FPS onFrameShown es (initialPage x) = Some st ->
    allLoaded (loader st) = Fulfilled ->
    scrubber_value (dom st) = currentIndex (vars st)
    /\ (0 <= currentIndex (vars st) < frameCount st)%Z
    /\ (forall e st',
          dispatch ANIMATION_FPS onFrameShown e st = Some st' ->
          scrubber_value (dom st') = currentIndex (vars st')
          /\ match e with
             | ClickPrev =>
                 currentIndex (vars st')
                 = js_rem (currentIndex (vars st) - 1 + frameCount st) (frameCount st)
             | ClickNext =>
                 currentIndex (vars st') = js_rem (currentIndex (vars st) + 1) (frameCount st)
             | ScrubberChange v => currentIndex (vars st') = v
             | _ => True
             end).
Proof.
  intros X fps hook x es st Hs Hl.
  pose proof (session_invariant fps hook es _ st (invariant_initial x) Hs) as I.
  pose proof (inv_loaded st I Hl) as S.
  split; [apply (synced_scrubber st S) |]. split; [apply (synced_index st S) |].
  intros e st' D.
  pose proof (dispatch_invariant fps hook e st st' I D) as I'.
  pose proof (loaded_stays fps hook e st st' I Hl D) as L.
  split.
  - apply synced_scrubber, (inv_loaded st' I'). rewrite L. exact Hl.
  - unfold dispatch in D. destruct (enabled e st) eqn:En; [| discriminate].
    injection D as <-. destruct e; try exact Logic.I; simpl in *.
    + apply (prevFrame_synced hook st S).
    + apply (nextFrame_synced hook st S).
    + apply andb_true_iff in En. destruct En as [En Hv2].
      apply andb_true_iff in En. destruct En as [En Hv1].
      apply Z.leb_le in Hv1, Hv2.
      apply (handleScrubberInput_synced hook v st S). lia.
Qed.

(** C2 on a session of the magnifier script: load, next, previous, seek to
    the last frame, play, and the frame callback that ends the hold. *)
Lemma C2_witness :
  let es := Scenario.loadAll 0
            ++ [ClickNext; ClickPrev; ScrubberChange 2; ClickPlayPause 100;
                FrameCallback 1100] in
  let st := default Magnifier.initial (Magnifier.session es Magnifier.initial) in
  scrubber_value (dom st) = currentIndex (vars st)
  /\ currentIndex (vars st) = 0%Z.
Proof.
  intros es st.
  destruct (C2_scrubber_follows_currentIndex Magnifier.Lens Magnifier.ANIMATION_FPS
              Magnifier.onFrameShown Magnifier.idle es st) as (H & _ & _).
  - vm_compute. reflexivity.
  - vm_compute. reflexivity.
  - split; [exact H | vm_compute; reflexivity].
Defined.

(** C4, as stated, fails at the very first state: each script declares
    [isPlaying = true], so the flag does not read Stopped before the load. *)
Lemma C4_counterexample :
  isPlaying (vars Magnifier.initial) = true
  /\ isPlaying (vars ClampedZoom.initial) = true
  /\ isPlaying (vars FixedZoom.initial) = true
  /\ isPlaying (vars Plain.initial) = true
  /\ isPlaying (vars Magnifier.initial) <> false.
Proof. repeat split; discriminate. Qed.

(** C4 (amended).  In each of the four scripts the flag [isPlaying] is
    declared [true], yet the engine does not drive before the load completes:
    in the first state and in every state a session reaches before that no
    frame callback is scheduled, and the flag is still as declared.  The event
    that completes the load is the [onload] of the last pending image, with
    every image loaded; it leaves the player playing at frame 0 with its first
    frame callback scheduled and the time of completion as the last-tick
    time. *)
Theorem C4_engine_waits_for_load :
  forall (X : Type) (ANIMATION_FPS : Q) (onFrameShown : Page X -> X) (x : X),
    (isPlaying (vars (initialPage x)) = true /\ raf_pending (host (initialPage x)) = [])
    /\ (forall es st,
          session ANIMATION_FPS onFrameShown es (initialPage x) = Some st ->
          allLoaded (loader st) <> Fulfilled ->
          raf_pending (host st) = [] /\ animationFrameId (vars st) = None
          /\ isPlaying (vars st) = true)
    /\ (forall es st e st',
          session ANIMATION_FPS onFrameShown es (initialPage x) = Some st ->
          allLoaded (loader st) <> Fulfilled ->
          dispatch ANIMATION_FPS onFrameShown e st = Some st' ->
          allLoaded (loader st') = Fulfilled ->
          (exists i w h now,
              e = ImageLoaded i w h now
              /\ loadPromises (loader st) !! i = Some Pending
              /\ lastFrameTime (vars st') = now)
          /\ forallb (fun p => Promise_eqb p Fulfilled) (loadPromises (loader st')) = true
          /\ isPlaying (vars st') = true
          /\ raf_pending (host st') = [raf_next (host st)]
          /\ currentIndex (vars st') = 0%Z).
Proof.
  intros X fps hook x. split; [split; reflexivity |]. split.
  - intros es st Hs Hn.
    pose proof (session_invariant fps hook es _ st (invariant_initial x) Hs) as I.
    destruct (inv_waiting st I Hn) as [_ _ _ _ W5 [W6 W7]]. auto.
  - intros es st e st' Hs Hn D L.
    pose proof (session_invariant fps hook es _ st (invariant_initial x) Hs) as I.
    destruct (load_completion fps hook e st st' I Hn D L) as (H1 & H2 & H3 & H4 & _ & H6 & _).
    auto.
Qed.

(** C4 (amended) on the magnifier script: after the manifest and two of three
    images nothing is scheduled; the third image starts the player. *)
Lemma C4_witness :
  let es := [ManifestArrived Scenario.frames; ImageLoaded 1 800 600 10; ImageLoaded 0 800 600 20] in
  let st := default Magnifier.initial (Magnifier.session es Magnifier.initial) in
  let st' := Magnifier.handle (ImageLoaded 2 800 600 30) st in
  (raf_pending (host st) = [] /\ isPlaying (vars st) = true)
  /\ (isPlaying (vars st') = true /\ raf_pending (host st') = [raf_next (host st)]
      /\ currentIndex (vars st') = 0%Z).
Proof.
  intros es st st'.
  destruct (C4_engine_waits_for_load Magnifier.Lens Magnifier.ANIMATION_FPS
              Magnifier.onFrameShown Magnifier.idle) as (_ & H1 & H2).
  split.
  - destruct (H1 es st) as (A & _ & B).
    + vm_compute. reflexivity.
    + vm_compute. discriminate.
    + split; assumption.
  - destruct (H2 es st (ImageLoaded 2 800 600 30) st') as (_ & _ & A & B & C).
    + vm_compute. reflexivity.
    + vm_compute. discriminate.
    + vm_compute. reflexivity.
    + vm_compute. reflexivity.
    + repeat split; assumption.
Defined.

(** After the failure of an image the load is over: whatever follows, the
    page stays in the loading presentation, nothing is revealed and no frame
    callback is ever scheduled. *)
Lemma load_failure_terminal :
  forall (X : Type) (ANIMATION_FPS : Q) (onFrameShown : Page X -> X) (x : X)
         (es1 : list Event) (i : nat) (es2 : list Event) (st : Page X),
    session ANIMATION_FPS onFrameShown (es1 ++ ImageFailed i :: es2) (initialPage x) = Some st ->
    allLoaded (loader st) = Rejected /\ waiting st.
Proof.
  intros X fps hook x es1 i es2 st H. rewrite session_app in H.
  destruct (session fps hook es1 (initialPage x)) as [st1 |] eqn:H1; [| discriminate].
  pose proof (session_invariant fps hook es1 _ st1 (invariant_initial x) H1) as I1.
  simpl in H. destruct (dispatch fps hook (ImageFailed i) st1) as [st2 |] eqn:D; [| discriminate].
  pose proof (dispatch_invariant fps hook _ _ _ I1 D) as I2.
  assert (R2 : allLoaded (loader st2) = Rejected).
  { unfold dispatch in D. destruct (enabled (ImageFailed i) st1) eqn:En; [| discriminate].
    injection D as <-. simpl in En.
    destruct (loadPromises (loader st1) !! i) as [[| |] |] eqn:P; try discriminate.
    apply (img_onerror_invariant i st1 I1 P). }
  clear H1 D I1. revert st2 I2 R2 H.
  induction es2 as [| e es2 IH]; intros st2 I2 R2 H; simpl in H.
  - injection H as <-. split; [exact R2 |]. apply (inv_waiting st2 I2). congruence.
  - destruct (dispatch fps hook e st2) as [st3 |] eqn:D; [| discriminate].
    apply (IH st3); [| | exact H].
    + exact (dispatch_invariant fps hook _ _ _ I2 D).
    + exact (rejected_stays fps hook e st2 st3 I2 R2 D).
Qed.

(** C5: where the code departs from the claim.  The manifest lists two
    images; the first fails, then the second loads.  The failure puts the
    error message up, nothing is revealed and nothing is scheduled, as
    claimed; but the [onload] of the second image then replaces the error
    message with the progress text "Loading Image 1/2...", which stays. *)
Theorem C5_error_message_overwritten :
  forall (X : Type) (ANIMATION_FPS : Q) (onFrameShown : Page X -> X) (x : X),
    let load := [ManifestArrived ["a.png"; "b.png"]%string; ImageFailed 0] in
    (exists st,
        session ANIMATION_FPS onFrameShown load (initialPage x) = Some st
        /\ allLoaded (loader st) = Rejected
        /\ loadingMessage_text (dom st) = MsgErrorImages)
    /\ (exists st,
          session ANIMATION_FPS onFrameShown (load ++ [ImageLoaded 1 800 600 50]) (initialPage x)
          = Some st
          /\ allLoaded (loader st) = Rejected
          /\ loadingMessage_shown (dom st) = true
          /\ loadingMessage_text (dom st) = MsgLoadingImage 1 2
          /\ loadingMessage_text (dom st) <> MsgErrorImages
          /\ scrubber_shown (dom st) = false
          /\ goesImage_shown (dom st) = false
          /\ raf_pending (host st) = []).
Proof.
  intros X fps hook x load. split.
  - eexists. split; [reflexivity |]. split; reflexivity.
  - eexists. split; [reflexivity |]. repeat split. discriminate.
Qed.

(** ** The animation loop *)

Lemma increasing_cons (since t : Q) (times : list Q) :
  increasing since (t :: times) = true -> (since < t)%Q /\ increasing t times = true.
Proof.
  simpl. intros H. apply andb_true_iff in H. destruct H as [H1 H2].
  split; [| exact H2]. apply negb_true_iff in H1. apply Qnot_le_lt. intros C.
  apply Qle_bool_iff in C. congruence.
Qed.

Lemma increasing_later (since : Q) (times : list Q) :
  increasing since times = true -> Forall (fun t => (since < t)%Q) times.
Proof.
  revert since. induction times as [| t times IH]; intros since H; [constructor |].
  apply increasing_cons in H. destruct H as [H1 H2]. constructor; [exact H1 |].
  apply (Forall_impl _ _ _ (IH t H2)). intros u Hu. lra.
Qed.

Lemma increasing_from_earlier (s s' : Q) (times : list Q) :
  (s' <= s)%Q -> increasing s times = true -> increasing s' times = true.
Proof.
  intros Hs H. destruct times as [| t times]; [reflexivity |].
  apply increasing_cons in H. destruct H as [H1 H2]. simpl. rewrite H2, andb_true_r.
  apply negb_true_iff. destruct (Qle_bool t s') eqn:E; [| reflexivity].
  apply Qle_bool_iff in E. lra.
Qed.

Lemma within_cons (limit t : Q) (times : list Q) :
  within limit (t :: times) = true -> (t <= limit)%Q /\ within limit times = true.
Proof.
  unfold within. simpl. intros H. apply andb_true_iff in H. destruct H as [H1 H2].
  split; [apply Qle_bool_iff; exact H1 | exact H2].
Qed.

Lemma within_proper (limit limit' : Q) (times : list Q) :
  (limit == limit')%Q -> within limit times = true -> within limit' times = true.
Proof.
  intros E. unfold within. rewrite !forallb_forall. intros H t Ht.
  specialize (H t Ht). apply Qle_bool_iff in H. apply Qle_bool_iff. lra.
Qed.

Lemma tickAt_cons (d t : Q) (times : list Q) :
  tickAt d (t :: times) = true -> (t == d)%Q \/ tickAt d times = true.
Proof.
  unfold tickAt. simpl. intros H. apply orb_true_iff in H. destruct H as [H | H].
  - left. apply Qeq_bool_iff. exact H.
  - right. exact H.
Qed.

Lemma tickAt_later (d : Q) (times : list Q) :
  tickAt d times = true -> exists t, In t times /\ (t == d)%Q.
Proof.
  unfold tickAt. rewrite existsb_exists. intros (t & Ht & E).
  exists t. split; [exact Ht | apply Qeq_bool_iff; exact E].
Qed.

Lemma tickAt_proper (d d' : Q) (times : list Q) :
  (d == d')%Q -> tickAt d times = true -> tickAt d' times = true.
Proof.
  intros E. unfold tickAt. rewrite !existsb_exists. intros (t & Ht & H).
  exists t. split; [exact Ht |]. apply Qeq_bool_iff in H. apply Qeq_bool_iff. lra.
Qed.

(** The engine's comparison on a subtraction that is exact. *)
Lemma js_ge_exact (t s threshold : Q) :
  sub_exact t s = true ->
  js_ge (js_sub t s) (Fin threshold) = Qle_bool threshold (t - s).
Proof.
  unfold sub_exact. destruct (js_sub t s) as [d | | |]; try discriminate.
  intros E. apply Qeq_bool_iff in E. simpl. rewrite E. reflexivity.
Qed.

Lemma exact_ticks_cons (since t : Q) (times : list Q) :
  exact_ticks since (t :: times) = true ->
  sub_exact t since = true
  /\ exact_ticks since times = true
  /\ exact_ticks t times = true.
Proof.
  simpl. intros H. apply andb_true_iff in H. destruct H as [H1 H2].
  apply andb_true_iff in H1. destruct H1 as [H0 H1].
  split; [exact H0 |]. split; [| exact H2].
  destruct times as [| t' times']; [reflexivity |].
  simpl in *. rewrite H1. apply andb_true_iff in H2. destruct H2 as [_ H2]. exact H2.
Qed.

Section Ticking.
Context {X : Type}.
Variable ANIMATION_FPS : Q.
Variable onFrameShown : Page X -> X.
Variable interval : Q.
Hypothesis interval_positive : (0 < interval)%Q.
Local Open Scope Q_scope.

Lemma dwell_positive (n index : Z) : 0 < dwell interval n index.
Proof.
  unfold dwell. destruct (index =? n - 1)%Z; [lra | exact interval_positive].
Qed.

Lemma elapsed_nonneg (n index : Z) (k : nat) : 0 <= elapsed interval n index k.
Proof.
  revert index. induction k as [| k IH]; intros index; simpl; [lra |].
  pose proof (dwell_positive n index). specialize (IH (js_rem (index + 1) n)). lra.
Qed.

(** The threshold of the frame on display, when the frame interval is the
    finite number [interval]. *)
Lemma currentFrameInterval_dwell (st : Page X) :
  FRAME_INTERVAL_MS ANIMATION_FPS = Fin interval ->
  currentFrameInterval ANIMATION_FPS st
  = Fin (dwell interval (frameCount st) (currentIndex (vars st))).
Proof.
  intros H. unfold currentFrameInterval, dwell, LAST_FRAME_HOLD_TIME_MS.
  destruct (_ =? _)%Z; [reflexivity | exact H].
Qed.

(** One tick of a playing engine; [due] is the engine's own test. *)
Lemma runAnimationLoop_playing (now : Q) (st : Page X) :
  isPlaying (vars st) = true ->
  let st' := runAnimationLoop ANIMATION_FPS onFrameShown now st in
  let due := js_ge (js_sub now (lastFrameTime (vars st)))
                   (currentFrameInterval ANIMATION_FPS st) in
  isPlaying (vars st') = true
  /\ frameCount st' = frameCount st
  /\ raf_pending (host st') = raf_pending (host st) ++ [raf_next (host st)]
  /\ (due = true ->
      currentIndex (vars st') = js_rem (currentIndex (vars st) + 1) (frameCount st)
      /\ lastFrameTime (vars st') = now
      /\ advancesAt ANIMATION_FPS now st = true)
  /\ (due = false ->
      currentIndex (vars st') = currentIndex (vars st)
      /\ lastFrameTime (vars st') = lastFrameTime (vars st)
      /\ advancesAt ANIMATION_FPS now st = false).
Proof.
  intros Hp st' due. subst st' due. unfold runAnimationLoop, advancesAt. rewrite Hp.
  simpl negb. cbv iota.
  destruct (js_ge (js_sub now (lastFrameTime (vars st)))
                  (currentFrameInterval ANIMATION_FPS st)) eqn:E.
  - set (st1 := with_vars (set_lastFrameTime now) st).
    destruct (updateUI_rest onFrameShown
                (js_rem (currentIndex (vars st1) + 1) (frameCount st1)) st1)
      as (_ & UH & U1 & U2 & U3 & _).
    assert (U0 : currentIndex
                   (vars (updateUI onFrameShown
                            (js_rem (currentIndex (vars st1) + 1) (frameCount st1)) st1))
                 = js_rem (currentIndex (vars st1) + 1) (frameCount st1)).
    { unfold updateUI, displayFrame. destruct (object_get _ _); reflexivity. }
    set (st2 := updateUI onFrameShown _ st1) in *.
    assert (K : isPlaying (vars st1) = true /\ imagePaths (vars st1) = imagePaths (vars st)
                /\ currentIndex (vars st1) = currentIndex (vars st)
                /\ lastFrameTime (vars st1) = now).
    { subst st1. page_open st. repeat split. exact Hp. }
    destruct K as (K1 & K2 & K3 & K4).
    assert (F1 : frameCount st1 = frameCount st) by (unfold frameCount; rewrite K2; reflexivity).
    split; [page_open st2; congruence |].
    split; [page_open st2; congruence |].
    split; [unfold requestAnimationFrame; cbn [host with_vars with_host raf_pending];
            rewrite UH; subst st1; reflexivity |].
    split; [intros _ | intros C; discriminate].
    split; [page_open st2; page_simpl; rewrite U0, K3; unfold frameCount; rewrite K2;
            reflexivity |].
    split; [page_open st2; congruence | reflexivity].
  - split; [page_open st; exact Hp |].
    split; [page_open st; reflexivity |].
    split; [page_open st; reflexivity |].
    split; [intros C; discriminate | intros _].
    page_open st. repeat split.
Qed.

(** One frame of the host for a playing engine, that is one with its flag
    set and its one frame callback scheduled. *)
Lemma animationFrame_playing (now : Q) (st : Page X) :
  isPlaying (vars st) = true ->
  (exists id, raf_pending (host st) = [id]) ->
  let st' := animationFrame ANIMATION_FPS onFrameShown now st in
  let due := js_ge (js_sub now (lastFrameTime (vars st)))
                   (currentFrameInterval ANIMATION_FPS st) in
  isPlaying (vars st') = true
  /\ frameCount st' = frameCount st
  /\ (exists id, raf_pending (host st') = [id])
  /\ (due = true ->
      currentIndex (vars st') = js_rem (currentIndex (vars st) + 1) (frameCount st)
      /\ lastFrameTime (vars st') = now
      /\ advancesAt ANIMATION_FPS now st = true)
  /\ (due = false ->
      currentIndex (vars st') = currentIndex (vars st)
      /\ lastFrameTime (vars st') = lastFrameTime (vars st)
      /\ advancesAt ANIMATION_FPS now st = false).
Proof.
  intros Hp [id Hid] st' due. subst st' due. unfold animationFrame. rewrite Hid.
  set (st0 := with_host (fun h => mkHost [] (raf_next h)) st).
  assert (K : vars st0 = vars st /\ frameCount st0 = frameCount st
              /\ raf_pending (host st0) = []
              /\ currentFrameInterval ANIMATION_FPS st0 = currentFrameInterval ANIMATION_FPS st
              /\ advancesAt ANIMATION_FPS now st0 = advancesAt ANIMATION_FPS now st).
  { subst st0. page_open st. repeat split. }
  destruct K as (K1 & K2 & K3 & K4 & K5).
  cbn [fold_left].
  destruct (runAnimationLoop_playing now st0) as (R1 & R2 & R3 & R4 & R5);
    [rewrite K1; exact Hp |].
  rewrite K1, K2, K3, K4, K5 in *.
  split; [exact R1 |]. split; [exact R2 |].
  split; [eexists; exact R3 |]. split; assumption.
Qed.

(** The engine's test on a tick whose subtraction is exact. *)
Lemma due_exact (now : Q) (st : Page X) :
  FRAME_INTERVAL_MS ANIMATION_FPS = Fin interval ->
  sub_exact now (lastFrameTime (vars st)) = true ->
  js_ge (js_sub now (lastFrameTime (vars st))) (currentFrameInterval ANIMATION_FPS st)
  = Qle_bool (dwell interval (frameCount st) (currentIndex (vars st)))
             (now - lastFrameTime (vars st)).
Proof.
  intros Hi He. rewrite (currentFrameInterval_dwell st Hi). apply js_ge_exact. exact He.
Qed.

End Ticking.

Section LoopClosure.
Context {X : Type}.
Variable ANIMATION_FPS : Q.
Variable onFrameShown : Page X -> X.
Variable interval : Q.
Hypothesis interval_positive : (0 < interval)%Q.
Hypothesis interval_value : FRAME_INTERVAL_MS ANIMATION_FPS = Fin interval.
Local Open Scope Q_scope.

Lemma elapsed_positive (n index : Z) (k : nat) :
  (1 <= k)%nat -> 0 < elapsed interval n index k.
Proof.
  destruct k as [| k]; [lia |]. intros _. simpl.
  pose proof (dwell_positive interval interval_positive n index).
  pose proof (elapsed_nonneg interval interval_positive n (js_rem (index + 1) n) k). lra.
Qed.

(** One tick whose subtraction is exact: the engine advances exactly when
    the dwell has passed. *)
Lemma exact_tick (t : Q) (st : Page X) :
  isPlaying (vars st) = true ->
  (exists id, raf_pending (host st) = [id]) ->
  sub_exact t (lastFrameTime (vars st)) = true ->
  let st' := animationFrame ANIMATION_FPS onFrameShown t st in
  let d := dwell interval (frameCount st) (currentIndex (vars st)) in
  isPlaying (vars st') = true
  /\ frameCount st' = frameCount st
  /\ (exists id, raf_pending (host st') = [id])
  /\ (d <= t - lastFrameTime (vars st) ->
      currentIndex (vars st') = js_rem (currentIndex (vars st) + 1) (frameCount st)
      /\ lastFrameTime (vars st') = t
      /\ advancesAt ANIMATION_FPS t st = true)
  /\ (t - lastFrameTime (vars st) < d ->
      currentIndex (vars st') = currentIndex (vars st)
      /\ lastFrameTime (vars st') = lastFrameTime (vars st)
      /\ advancesAt ANIMATION_FPS t st = false).
Proof.
  intros Hp Hq He st' d. subst st' d.
  destruct (animationFrame_playing ANIMATION_FPS onFrameShown t st Hp Hq)
    as (P' & F' & Q' & Hadv & Hno).
  rewrite (due_exact ANIMATION_FPS interval t st interval_value He) in Hadv, Hno.
  split; [exact P' |]. split; [exact F' |]. split; [exact Q' |]. split.
  - intros H. apply Hadv. apply Qle_bool_iff. exact H.
  - intros H. apply Hno. destruct (Qle_bool _ _) eqn:E; [| reflexivity].
    apply Qle_bool_iff in E. lra.
Qed.

(** Ticking through [k] dwells when a tick falls on the instant each of them
    expires: exactly [k] advances, one at each of these instants. *)
Lemma aligned_ticking (times : list Q) :
  forall (k : nat) (st : Page X),
    isPlaying (vars st) = true ->
    (exists id, raf_pending (host st) = [id]) ->
    exact_ticks (lastFrameTime (vars st)) times = true ->
    increasing (lastFrameTime (vars st)) times = true ->
    within (lastFrameTime (vars st)
            + elapsed interval (frameCount st) (currentIndex (vars st)) k) times = true ->
    (forall j, (1 <= j <= k)%nat ->
               tickAt (lastFrameTime (vars st)
                       + elapsed interval (frameCount st) (currentIndex (vars st)) j)
                      times = true) ->
    let st' := ticking ANIMATION_FPS onFrameShown times st in
    advances ANIMATION_FPS onFrameShown times st = k
    /\ currentIndex (vars st') = frameAfter (frameCount st) (currentIndex (vars st)) k
    /\ lastFrameTime (vars st')
       == lastFrameTime (vars st)
          + elapsed interval (frameCount st) (currentIndex (vars st)) k
    /\ isPlaying (vars st') = true
    /\ frameCount st' = frameCount st.
Proof.
  induction times as [| t times IH]; intros k st Hp Hq Hex Hinc Hwin Hal st'; subst st'.
  - destruct k as [| k].
    + simpl. repeat split; try reflexivity; try assumption. lra.
    + specialize (Hal 1%nat ltac:(lia)). discriminate.
  - apply increasing_cons in Hinc. destruct Hinc as [Hlt Hinc].
    apply within_cons in Hwin. destruct Hwin as [Hle Hwin].
    apply exact_ticks_cons in Hex. destruct Hex as (He & Hes & Het).
    destruct k as [| k]; [simpl in Hle; lra |].
    destruct (exact_tick t st Hp Hq He) as (P' & F' & Q' & Hadv & Hno).
    set (n := frameCount st) in *. set (c := currentIndex (vars st)) in *.
    set (s := lastFrameTime (vars st)) in *.
    set (st1 := animationFrame ANIMATION_FPS onFrameShown t st) in *.
    change (ticking ANIMATION_FPS onFrameShown (t :: times) st)
      with (ticking ANIMATION_FPS onFrameShown times st1).
    change (advances ANIMATION_FPS onFrameShown (t :: times) st)
      with ((if advancesAt ANIMATION_FPS t st then 1 else 0)
            + advances ANIMATION_FPS onFrameShown times st1)%nat.
    pose proof (dwell_positive interval interval_positive n c) as Dpos.
    destruct (Qlt_le_dec (t - s) (dwell interval n c)) as [Hsmall | Hbig].
    + destruct (Hno Hsmall) as (E1 & E2 & E3). rewrite E3.
      destruct (IH (S k) st1) as (A1 & A2 & A3 & A4 & A5).
      * exact P'.
      * exact Q'.
      * rewrite E2. exact Hes.
      * rewrite E2. apply (increasing_from_earlier t); [lra | exact Hinc].
      * rewrite E1, E2, F'. exact Hwin.
      * intros j Hj. rewrite E1, E2, F'.
        destruct (tickAt_cons _ _ _ (Hal j Hj)) as [C | C]; [| exact C].
        exfalso. destruct j as [| j]; [lia |]. simpl in C.
        pose proof (elapsed_nonneg interval interval_positive n (js_rem (c + 1) n) j).
        fold n c s in C. lra.
      * rewrite E1, E2, F' in *. repeat split; assumption.
    + assert (Et : t == s + dwell interval n c).
      { destruct (tickAt_cons _ _ _ (Hal 1%nat ltac:(lia))) as [C | C].
        - simpl in C. fold n c s in C. lra.
        - exfalso. apply tickAt_later in C. destruct C as (u & Hu & Eu).
          pose proof (increasing_later t times Hinc) as Hall.
          rewrite Forall_forall in Hall. specialize (Hall u).
          apply list_elem_of_In in Hu. specialize (Hall Hu).
          simpl in Eu. fold n c s in Eu. lra. }
      destruct (Hadv Hbig) as (E1 & E2 & E3). rewrite E3.
      destruct (IH k st1) as (A1 & A2 & A3 & A4 & A5).
      * exact P'.
      * exact Q'.
      * rewrite E2. exact Het.
      * rewrite E2. exact Hinc.
      * rewrite E1, E2, F'. simpl in Hwin. fold n c s in Hwin.
        apply (within_proper
                 (s + (dwell interval n c
                       + elapsed interval n (js_rem (c + 1) n) k))); [lra | exact Hwin].
      * intros j Hj. rewrite E1, E2, F'.
        specialize (Hal (S j) ltac:(lia)). simpl in Hal. fold n c s in Hal.
        destruct (tickAt_cons _ _ _ Hal) as [C | C].
        -- exfalso.
           pose proof (elapsed_positive n (js_rem (c + 1) n) j ltac:(lia)). lra.
        -- apply (tickAt_proper
                    (s + (dwell interval n c
                          + elapsed interval n (js_rem (c + 1) n) j))); [lra | exact C].
      * rewrite E1, E2, F' in *. simpl. fold n c s.
        split; [lia |]. split; [exact A2 |]. split; [lra |]. split; assumption.
Qed.

End LoopClosure.

Section FullLoop.
Variable interval : Q.
Local Open Scope Q_scope.

(** Before the last frame every dwell is the frame interval. *)
Lemma frameAfter_plain (n : Z) (k : nat) :
  forall c : Z,
    (0 <= c)%Z -> (c + Z.of_nat k <= n - 1)%Z ->
    frameAfter n c k = (c + Z.of_nat k)%Z
    /\ elapsed interval n c k == inject_Z (Z.of_nat k) * interval.
Proof.
  induction k as [| k IH]; intros c H0 H1.
  - simpl. split; [lia | ring].
  - assert (R : js_rem (c + 1) n = (c + 1)%Z) by (unfold js_rem; apply Z.rem_small; lia).
    assert (D : dwell interval n c = interval).
    { unfold dwell. destruct (c =? n - 1)%Z eqn:E; [apply Z.eqb_eq in E; lia | reflexivity]. }
    simpl. rewrite R, D. destruct (IH (c + 1)%Z) as [A B]; [lia | lia |].
    split; [rewrite A; lia |]. rewrite B.
    rewrite Nat2Z.inj_succ, <- Z.add_1_r, inject_Z_plus. ring.
Qed.

Lemma frameAfter_add (n : Z) (j k : nat) :
  forall c : Z,
    frameAfter n c (j + k) = frameAfter n (frameAfter n c j) k
    /\ elapsed interval n c (j + k)
       == elapsed interval n c j + elapsed interval n (frameAfter n c j) k.
Proof.
  induction j as [| j IH]; intros c; simpl.
  - split; [reflexivity | ring].
  - destruct (IH (js_rem (c + 1) n)) as [A B]. split; [exact A |]. rewrite B. ring.
Qed.

(** A full loop from any frame: N advances lead back to the frame, after
    (N - 1) frame intervals and one hold. *)
Lemma full_loop (n i : Z) :
  (0 <= i < n)%Z ->
  frameAfter n i (Z.to_nat n) = i
  /\ elapsed interval n i (Z.to_nat n) == loopTime interval n.
Proof.
  intros Hi.
  set (a := Z.to_nat (n - 1 - i)). set (b := Z.to_nat i).
  assert (E : Z.to_nat n = (a + (1 + b))%nat) by (subst a b; lia).
  rewrite E.
  destruct (frameAfter_add n a (1 + b) i) as [A1 A2].
  destruct (frameAfter_plain n a i) as [B1 B2]; [lia | subst a; lia |].
  assert (B1' : frameAfter n i a = (n - 1)%Z) by (rewrite B1; subst a; lia).
  rewrite A1, A2, B1', B2.
  assert (R : js_rem (n - 1 + 1) n = 0%Z).
  { unfold js_rem. replace (n - 1 + 1)%Z with n by lia. apply Z.rem_same. lia. }
  assert (D : dwell interval n (n - 1) = 1000).
  { unfold dwell. rewrite Z.eqb_refl. reflexivity. }
  change (frameAfter n (n - 1) (1 + b)) with (frameAfter n (js_rem (n - 1 + 1) n) b).
  change (elapsed interval n (n - 1) (1 + b))
    with (dwell interval n (n - 1) + elapsed interval n (js_rem (n - 1 + 1) n) b).
  rewrite R, D.
  destruct (frameAfter_plain n b 0%Z) as [C1 C2]; [lia | subst b; lia |].
  rewrite C1, C2. split; [subst b; lia |].
  unfold loopTime.
  assert (S : inject_Z (n - 1) == inject_Z (Z.of_nat a) + inject_Z (Z.of_nat b)).
  { rewrite <- inject_Z_plus. subst a b. rewrite !Z2Nat.id by lia.
    replace (n - 1 - i + i)%Z with (n - 1)%Z by lia. reflexivity. }
  rewrite S. ring.
Qed.

End FullLoop.

(** ** View sync: frames that are not in the cache *)

(** An index outside the manifest reads [undefined]. *)
Lemma array_get_outside {A : Type} (arr : list A) (index : Z) :
  (index < 0 \/ Z.of_nat (length arr) <= index)%Z -> array_get arr index = None.
Proof.
  intros H. unfold array_get. destruct (0 <=? index)%Z eqn:E; [| reflexivity].
  apply Z.leb_le in E. apply lookup_ge_None. lia.
Qed.

Section CacheContents.
Context {X : Type}.
Variable ANIMATION_FPS : Q.
Variable onFrameShown : Page X -> X.

Lemma updateUI_keeps_cache (index : Z) (st : Page X) :
  imagePaths (vars (updateUI onFrameShown index st)) = imagePaths (vars st)
  /\ imageCache (vars (updateUI onFrameShown index st)) = imageCache (vars st)
  /\ loader (updateUI onFrameShown index st) = loader st.
Proof.
  unfold updateUI, displayFrame. page_open st. page_cases; repeat split.
Qed.

Lemma stopAnimation_keeps_cache (st : Page X) :
  imagePaths (vars (stopAnimation st)) = imagePaths (vars st)
  /\ imageCache (vars (stopAnimation st)) = imageCache (vars st)
  /\ loader (stopAnimation st) = loader st.
Proof.
  unfold stopAnimation. page_open st. page_cases; repeat split.
Qed.

Lemma togglePlayPause_keeps_cache (now : Q) (st : Page X) :
  imagePaths (vars (togglePlayPause now st)) = imagePaths (vars st)
  /\ imageCache (vars (togglePlayPause now st)) = imageCache (vars st)
  /\ loader (togglePlayPause now st) = loader st.
Proof.
  unfold togglePlayPause, stopAnimation, startAnimation. page_open st.
  page_cases; repeat split.
Qed.

Lemma runAnimationLoop_keeps_cache (now : Q) (st : Page X) :
  imagePaths (vars (runAnimationLoop ANIMATION_FPS onFrameShown now st)) = imagePaths (vars st)
  /\ imageCache (vars (runAnimationLoop ANIMATION_FPS onFrameShown now st))
     = imageCache (vars st)
  /\ loader (runAnimationLoop ANIMATION_FPS onFrameShown now st) = loader st.
Proof.
  unfold runAnimationLoop.
  destruct (negb (isPlaying (vars st))); [repeat split |].
  destruct (js_ge _ _).
  - set (st1 := with_vars (set_lastFrameTime now) st).
    destruct (updateUI_keeps_cache (js_rem (currentIndex (vars st1) + 1) (frameCount st1)) st1)
      as (A & B & C).
    set (st2 := updateUI onFrameShown _ st1) in *.
    unfold requestAnimationFrame.
    cbn [vars loader with_vars with_host imagePaths imageCache set_animationFrameId].
    rewrite A, B, C. subst st1. page_open st. repeat split.
  - page_open st. repeat split.
Qed.

Lemma animationFrame_keeps_cache (now : Q) (st : Page X) :
  imagePaths (vars (animationFrame ANIMATION_FPS onFrameShown now st)) = imagePaths (vars st)
  /\ imageCache (vars (animationFrame ANIMATION_FPS onFrameShown now st))
     = imageCache (vars st)
  /\ loader (animationFrame ANIMATION_FPS onFrameShown now st) = loader st.
Proof.
  unfold animationFrame. set (st1 := with_host _ st).
  assert (H : imagePaths (vars st1) = imagePaths (vars st)
              /\ imageCache (vars st1) = imageCache (vars st) /\ loader st1 = loader st)
    by (subst st1; page_open st; repeat split).
  clearbody st1. revert st1 H.
  induction (raf_pending (host st)) as [| id due IH]; intros st1 H; [exact H |].
  simpl. apply IH. destruct (runAnimationLoop_keeps_cache now st1) as (A & B & C).
  destruct H as (H1 & H2 & H3). repeat split; congruence.
Qed.

Lemma controls_keep_cache (e : Event) (st : Page X) :
  match e with
  | FrameCallback _ | ClickPlayPause _ | ClickPrev | ClickNext | ScrubberChange _ => True
  | _ => False
  end ->
  imagePaths (vars (handle ANIMATION_FPS onFrameShown e st)) = imagePaths (vars st)
  /\ imageCache (vars (handle ANIMATION_FPS onFrameShown e st)) = imageCache (vars st)
  /\ loader (handle ANIMATION_FPS onFrameShown e st) = loader st.
Proof.
  destruct e as [paths | | i w h now | i | now | now | | | v]; simpl; try contradiction;
    intros _.
  - apply animationFrame_keeps_cache.
  - apply togglePlayPause_keeps_cache.
  - unfold prevFrame.
    destruct (stopAnimation_keeps_cache st) as (A & B & C).
    destruct (updateUI_keeps_cache
                (js_rem (currentIndex (vars (stopAnimation st)) - 1 + frameCount (stopAnimation st))
                        (frameCount (stopAnimation st))) (stopAnimation st)) as (D & E & F).
    repeat split; congruence.
  - unfold nextFrame.
    destruct (stopAnimation_keeps_cache st) as (A & B & C).
    destruct (updateUI_keeps_cache
                (js_rem (currentIndex (vars (stopAnimation st)) + 1)
                        (frameCount (stopAnimation st))) (stopAnimation st)) as (D & E & F).
    repeat split; congruence.
  - unfold handleScrubberInput. set (st1 := with_dom (set_scrubber_value v) st).
    destruct (stopAnimation_keeps_cache st1) as (A & B & C).
    destruct (updateUI_keeps_cache (scrubber_value (dom (stopAnimation st1)))
                (stopAnimation st1)) as (D & E & F).
    assert (K : imagePaths (vars st1) = imagePaths (vars st)
                /\ imageCache (vars st1) = imageCache (vars st) /\ loader st1 = loader st)
      by (subst st1; page_open st; repeat split).
    destruct K as (K1 & K2 & K3). repeat split; congruence.
Qed.

Lemma img_onload_cache (i : nat) (w h now : Q) (st : Page X) (path : string) :
  imagePaths (vars st) !! i = Some path ->
  let st' := img_onload onFrameShown i w h now st in
  imagePaths (vars st') = imagePaths (vars st)
  /\ imageCache (vars st') = <[path := mkImage path w h]> (imageCache (vars st))
  /\ manifest (loader st') = manifest (loader st).
Proof.
  intros P st'. subst st'. unfold img_onload. rewrite P.
  unfold loadAllImages_then, togglePlayPause, startAnimation, stopAnimation, updateUI,
    displayFrame.
  page_open st. page_cases; repeat split.
Qed.

Lemma handle_cached_from_manifest (e : Event) (st : Page X) :
  invariant st -> cached_from_manifest st -> enabled e st = true ->
  cached_from_manifest (handle ANIMATION_FPS onFrameShown e st).
Proof.
  intros I [C1 C2] En.
  destruct e as [paths | | i w h now | i | now | now | | | v];
    try (match goal with
         | |- cached_from_manifest (handle _ _ ?e _) =>
             destruct (controls_keep_cache e st Logic.I) as (A & B & C)
         end;
         unfold cached_from_manifest; rewrite A, B, C; split; assumption);
    simpl in *.
  - destruct (manifest (loader st)) eqn:M; try discriminate.
    assert (E : imageCache (vars st) = ∅) by (apply C1; congruence).
    unfold fetchImages_then, loadAllImages. page_open st. subst.
    page_cases; (split; [intros F; exfalso; apply F; reflexivity |]);
      intros key [img K]; page_simpl; rewrite lookup_empty in K; discriminate.
  - destruct (manifest (loader st)) eqn:M; try discriminate.
    assert (E : imageCache (vars st) = ∅) by (apply C1; congruence).
    unfold fetchImages_catch. page_open st. subst.
    split; [intros _; reflexivity |].
    intros key [img K]. page_simpl. rewrite lookup_empty in K. discriminate.
  - destruct (loadPromises (loader st) !! i) as [[| |] |] eqn:P; try discriminate.
    destruct (pending_not_loaded st i I P) as (_ & M & _).
    destruct (imagePaths (vars st) !! i) as [path |] eqn:Q.
    + destruct (img_onload_cache i w h now st path Q) as (A & B & C).
      unfold cached_from_manifest. rewrite A, B, C. split; [intros F; contradiction |].
      intros key [img K]. destruct (decide (path = key)) as [<- | Ne].
      * apply list_elem_of_lookup_2 in Q. exact Q.
      * rewrite lookup_insert_ne in K by exact Ne. apply C2. eauto.
    + unfold img_onload. rewrite Q. split; assumption.
  - unfold img_onerror. page_open st. page_cases; split; assumption.
Qed.

Lemma session_cached_from_manifest (es : list Event) (st st' : Page X) :
  invariant st -> cached_from_manifest st ->
  session ANIMATION_FPS onFrameShown es st = Some st' -> cached_from_manifest st'.
Proof.
  revert st. induction es as [| e es IH]; intros st I C H; simpl in H.
  - injection H as <-. exact C.
  - unfold dispatch in H. destruct (enabled e st) eqn:En; [| discriminate].
    apply (IH (handle ANIMATION_FPS onFrameShown e st)); [| | exact H].
    + apply handle_invariant; assumption.
    + apply handle_cached_from_manifest; assumption.
Qed.

Lemma initial_cached_from_manifest (x : X) : cached_from_manifest (initialPage x).
Proof.
  split; [intros _; reflexivity |].
  intros key [img K]. simpl in K. rewrite lookup_empty in K. discriminate.
Qed.

End CacheContents.

Lemma object_get_own (obj : gmap string Image) (key : string) (img : Image) :
  obj !! key = Some img -> object_get obj key = Some (Own img).
Proof. intros H. unfold object_get. rewrite H. reflexivity. Qed.

Lemma member_image_get (obj : gmap string Image) (key : string) :
  member_image (object_get obj key) = obj !! key.
Proof.
  unfold object_get. destruct (obj !! key); [reflexivity |].
  destruct (inherited key); reflexivity.
Qed.

Lemma object_get_None (obj : gmap string Image) (key : string) :
  object_get obj key = None <-> obj !! key = None /\ inherited key = false.
Proof.
  unfold object_get. destruct (obj !! key); [split; [discriminate | intros [H _]; discriminate] |].
  destruct (inherited key); split; try discriminate; auto. intros [_ H]. discriminate.
Qed.

(** What [displayFrame] tolerates: an index whose key is neither stored in
    the cache nor a member of [Object.prototype] leaves the page as it was;
    in every state a session reaches this is so for each index outside
    [0, N), as long as no frame of the manifest is itself named
    "undefined". *)
Lemma displayFrame_absent :
  forall (X : Type) (onFrameShown : Page X -> X),
    (forall (index : Z) (st : Page X),
        object_get (imageCache (vars st)) (prop_key (array_get (imagePaths (vars st)) index))
        = None ->
        displayFrame onFrameShown index st = st)
    /\ (forall (ANIMATION_FPS : Q) (x : X) (es : list Event) (st : Page X) (index : Z),
          session ANIMATION_FPS onFrameShown es (initialPage x) = Some st ->
          ~ In "undefined"%string (imagePaths (vars st)) ->
          (index < 0 \/ frameCount st <= index)%Z ->
          displayFrame onFrameShown index st = st).
Proof.
  intros X hook.
  assert (A : forall (index : Z) (st : Page X),
             object_get (imageCache (vars st))
               (prop_key (array_get (imagePaths (vars st)) index)) = None ->
             displayFrame hook index st = st).
  { intros index st H. unfold displayFrame. rewrite H. reflexivity. }
  split; [exact A |].
  intros fps x es st index Hs Hu Hout.
  pose proof (session_cached_from_manifest fps hook es _ st (invariant_initial x)
                (initial_cached_from_manifest x) Hs) as [_ C].
  apply A. rewrite (array_get_outside _ _ Hout). simpl.
  apply object_get_None. split; [| reflexivity].
  destruct (imageCache (vars st) !! "undefined"%string) eqn:E; [| reflexivity].
  exfalso. apply Hu, list_elem_of_In, C. rewrite E. eauto.
Qed.


(** When a frame is in the cache, its source is displayed. *)
Lemma displayFrame_present {X : Type} (onFrameShown : Page X -> X)
      (index : Z) (st : Page X) (cachedImage : Image) :
  imageCache (vars st) !! prop_key (array_get (imagePaths (vars st)) index) = Some cachedImage ->
  goesImage_src (dom (displayFrame onFrameShown index st)) = Some (src cachedImage).
Proof.
  intros H. unfold displayFrame. rewrite (object_get_own _ _ _ H). reflexivity.
Qed.

(** ** The frame callbacks of a loaded page *)

Section Callbacks.
Context {X : Type}.
Variable ANIMATION_FPS : Q.
Variable onFrameShown : Page X -> X.

Lemma cancel_only_callback (id : nat) :
  List.filter (fun j => negb (Nat.eqb j id)) [id] = [].
Proof. simpl. rewrite Nat.eqb_refl. reflexivity. Qed.

Lemma stopAnimation_callbacks (st : Page X) :
  callbacks_match st ->
  isPlaying (vars (stopAnimation st)) = false
  /\ raf_pending (host (stopAnimation st)) = [].
Proof.
  unfold callbacks_match, stopAnimation. page_open st.
  destruct isPlaying0; page_simpl.
  - intros (id & -> & ->). page_simpl. split; [reflexivity | apply cancel_only_callback].
  - intros ->. split; reflexivity.
Qed.

Lemma updateUI_callbacks (index : Z) (st : Page X) :
  isPlaying (vars st) = false -> raf_pending (host st) = [] ->
  callbacks_match (updateUI onFrameShown index st).
Proof.
  intros P H. destruct (updateUI_rest onFrameShown index st) as (_ & U1 & U2 & _).
  unfold callbacks_match. rewrite U2, P, U1. exact H.
Qed.

Lemma togglePlayPause_callbacks (now : Q) (st : Page X) :
  (0 < frameCount st)%Z -> callbacks_match st -> callbacks_match (togglePlayPause now st).
Proof.
  intros Hn H. unfold togglePlayPause.
  destruct (isPlaying (vars st)) eqn:P.
  - destruct (stopAnimation_callbacks st H) as [A B]. unfold callbacks_match. rewrite A. exact B.
  - apply Z.ltb_lt in Hn. rewrite Hn.
    unfold callbacks_match in H. rewrite P in H.
    unfold startAnimation, callbacks_match. rewrite P. page_open st. subst.
    eexists. split; reflexivity.
Qed.

Lemma runAnimationLoop_callbacks (now : Q) (st : Page X) :
  isPlaying (vars st) = true -> raf_pending (host st) = [] ->
  callbacks_match (runAnimationLoop ANIMATION_FPS onFrameShown now st).
Proof.
  intros P H. unfold runAnimationLoop. rewrite P. cbn [negb].
  match goal with |- callbacks_match (requestAnimationFrame ?s) => set (st1 := s) end.
  assert (K : isPlaying (vars st1) = true /\ raf_pending (host st1) = []).
  { subst st1. destruct (js_ge _ _); [| split; assumption].
    match goal with
    | |- context [updateUI onFrameShown ?i ?s] =>
        destruct (updateUI_rest onFrameShown i s) as (_ & U1 & U2 & _); rewrite U1, U2
    end.
    page_open st. split; assumption. }
  destruct K as [K1 K2]. unfold callbacks_match. page_open st1. subst.
  eexists. split; reflexivity.
Qed.

Lemma animationFrame_callbacks (now : Q) (st : Page X) :
  callbacks_match st -> callbacks_match (animationFrame ANIMATION_FPS onFrameShown now st).
Proof.
  unfold callbacks_match at 1, animationFrame.
  destruct (isPlaying (vars st)) eqn:P.
  - intros (id & H & _). rewrite H. cbn [fold_left].
    apply runAnimationLoop_callbacks; page_open st; [exact P | reflexivity].
  - intros H. rewrite H. cbn [fold_left]. unfold callbacks_match. page_open st.
    rewrite P. reflexivity.
Qed.

Lemma handle_callbacks (e : Event) (st : Page X) :
  invariant st -> allLoaded (loader st) = Fulfilled -> callbacks_match st ->
  enabled e st = true ->
  callbacks_match (handle ANIMATION_FPS onFrameShown e st).
Proof.
  intros I L C En. pose proof (inv_loaded st I L) as S.
  destruct e as [paths | | i w h now | i | now | now | | | v]; simpl in *.
  - destruct (manifest (loader st)) eqn:M; try discriminate.
    destruct (inv_manifest st I) as [_ A]; congruence.
  - destruct (manifest (loader st)) eqn:M; try discriminate.
    destruct (inv_manifest st I) as [_ A]; congruence.
  - destruct (loadPromises (loader st) !! i) as [[| |] |] eqn:P; try discriminate.
    destruct (pending_not_loaded st i I P) as (N & _). contradiction.
  - destruct (loadPromises (loader st) !! i) as [[| |] |] eqn:P; try discriminate.
    destruct (pending_not_loaded st i I P) as (N & _). contradiction.
  - apply animationFrame_callbacks. exact C.
  - apply togglePlayPause_callbacks; [apply (synced_frames st S) | exact C].
  - unfold prevFrame. destruct (stopAnimation_callbacks st C) as [A B].
    apply updateUI_callbacks; assumption.
  - unfold nextFrame. destruct (stopAnimation_callbacks st C) as [A B].
    apply updateUI_callbacks; assumption.
  - unfold handleScrubberInput. set (st1 := with_dom (set_scrubber_value v) st).
    assert (C1 : callbacks_match st1) by (subst st1; page_open st; exact C).
    destruct (stopAnimation_callbacks st1 C1) as [A B].
    apply updateUI_callbacks; assumption.
Qed.

(** In every state a session reaches once the load has completed, the frame
    callbacks match the flag: a playing engine has exactly one callback
    scheduled, a stopped one has none. *)
Lemma session_callbacks (x : X) (es : list Event) (st : Page X) :
  session ANIMATION_FPS onFrameShown es (initialPage x) = Some st ->
  allLoaded (loader st) = Fulfilled -> callbacks_match st.
Proof.
  assert (G : forall es st0 st,
             invariant st0 ->
             (allLoaded (loader st0) = Fulfilled -> callbacks_match st0) ->
             session ANIMATION_FPS onFrameShown es st0 = Some st ->
             allLoaded (loader st) = Fulfilled -> callbacks_match st).
  { clear es st. induction es as [| e es IH]; intros st0 st I C H L; simpl in H.
    - injection H as <-. exact (C L).
    - destruct (dispatch ANIMATION_FPS onFrameShown e st0) as [st1 |] eqn:D; [| discriminate].
      apply (IH st1 st); [exact (dispatch_invariant _ _ _ _ _ I D) | | exact H | exact L].
      intros L1.
      destruct (Promise_eqb (allLoaded (loader st0)) Fulfilled) eqn:E.
      + assert (L0 : allLoaded (loader st0) = Fulfilled)
          by (destruct (allLoaded (loader st0)); [discriminate | reflexivity | discriminate]).
        unfold dispatch in D. destruct (enabled e st0) eqn:En; [| discriminate].
        injection D as <-. apply handle_callbacks; auto.
      + assert (N0 : allLoaded (loader st0) <> Fulfilled)
          by (intros F; rewrite F in E; discriminate).
        destruct (load_completion ANIMATION_FPS onFrameShown e st0 st1 I N0 D L1)
          as (_ & _ & P & Q' & A & _).
        unfold callbacks_match. rewrite P. eexists. split; eassumption. }
  intros H L. apply (G es (initialPage x) st (invariant_initial x)); [| exact H | exact L].
  simpl. discriminate.
Qed.

End Callbacks.

(** ** The animation loop: claims *)

(** C1, as stated, fails when the ticks do not fall on the instants at which
    the dwells expire.  Three frames at 5 frames per second, playing at frame
    0 since time 0, so that one loop takes 2 * 200 + 1000 = 1400 ms.  With a
    tick every 7 ms, the last one at 1400 ms exactly, the frame advances at
    203 ms and at 406 ms and the hold has not expired at 1400 ms: two
    advances, frame 2 on display.  (The times are whole milliseconds, on
    which the engine's subtractions are exact.)  The same happens on a
    144 Hz display, with a tick every 125/18 ms.  Nor does the engine
    compare the elapsed time itself: started at the binary64 time nearest
    0.1 ms, the callback at the binary64 time nearest 200.1 ms comes less
    than 200 ms later, yet the binary64 difference of the two is 200 and
    the frame advances. *)
Lemma C1_counterexample :
  let tick := ticking Magnifier.ANIMATION_FPS Magnifier.onFrameShown in
  let count := advances Magnifier.ANIMATION_FPS Magnifier.onFrameShown in
  (frameCount Scenario.lens = 3%Z /\ currentIndex (vars Scenario.lens) = 0%Z
   /\ isPlaying (vars Scenario.lens) = true /\ lastFrameTime (vars Scenario.lens) = 0%Q
   /\ FRAME_INTERVAL_MS Magnifier.ANIMATION_FPS = Fin 200
   /\ (loopTime 200 3 == 1400)%Q)
  /\ (List.last (Scenario.every 7 200) 0%Q = 1400%Q
      /\ increasing 0 (Scenario.every 7 200) = true
      /\ exact_ticks 0 (Scenario.every 7 200) = true
      /\ count (Scenario.every 7 200) Scenario.lens = 2%nat
      /\ currentIndex (vars (tick (Scenario.every 7 200) Scenario.lens)) = 2%Z
      /\ lastFrameTime (vars (tick (Scenario.every 7 200) Scenario.lens)) = 406%Q)
  /\ (within 1400 (Scenario.every (125 # 18) 201) = true
      /\ increasing 0 (Scenario.every (125 # 18) 201) = true
      /\ count (Scenario.every (125 # 18) 201) Scenario.lens = 2%nat
      /\ currentIndex (vars (tick (Scenario.every (125 # 18) 201) Scenario.lens)) = 2%Z)
  /\ (let s := (3602879701896397 # 36028797018963968)%Q in
      let t := (7040392854975283 # 35184372088832)%Q in
      let st := default Magnifier.initial
                  (Magnifier.session (Scenario.loadAll s) Magnifier.initial) in
      binary64 (1 # 10) = Fin s /\ binary64 (2001 # 10) = Fin t
      /\ isPlaying (vars st) = true /\ currentIndex (vars st) = 0%Z
      /\ lastFrameTime (vars st) = s
      /\ (t - s < 200)%Q
      /\ js_sub t s = Fin 200
      /\ currentIndex (vars (Magnifier.handle (FrameCallback t) st)) = 1%Z).
Proof.
  vm_compute. repeat split.
Qed.

(** C1 (amended).  While the engine is playing, that is with its flag set and
    its frame callback scheduled (as it is in every state a session reaches
    with the flag set once the load has completed), each tick advances
    [currentIndex] by one modulo N exactly when the elapsed time, which the
    engine computes as the binary64 difference [currentTime - lastFrameTime],
    has reached the threshold of the current frame: 1000 ms when
    [currentIndex] is the last index, 1000/FPS ms (in binary64) otherwise;
    the time of the tick that advances becomes the time of the last advance,
    and the engine keeps playing.  When that subtraction is exact, as it is
    on whole milliseconds, the tick advances exactly when the real time
    since the last advance has reached the threshold.  Consequently, for
    every N > 0 and every starting frame, ticking over
    (N - 1) * frameInterval + holdDuration of time, with ticks at increasing
    times on which these subtractions are exact and one of which falls on
    the instant each of the N dwells expires, advances [currentIndex]
    exactly N times and returns it to its starting value.  With frames
    ["a.png", "b.png", "c.png"], FPS = 5 (a frame interval of 200 ms),
    playing at index 0 since time 0: the tick at 200 ms leaves index 1, the
    one at 400 ms index 2, the one at 1400 ms index 0. *)
Theorem C1_tick_rule_and_loop_closure :
  (forall (X : Type) (ANIMATION_FPS : Q) (onFrameShown : Page X -> X) (st : Page X),
      isPlaying (vars st) = true ->
      (exists id, raf_pending (host st) = [id]) ->
      forall now : Q,
        let threshold :=
          if (currentIndex (vars st) =? frameCount st - 1)%Z
          then Fin 1000 else js_div 1000 ANIMATION_FPS in
        let elapsedTime := js_sub now (lastFrameTime (vars st)) in
        let st' := animationFrame ANIMATION_FPS onFrameShown now st in
        (js_ge elapsedTime threshold = true ->
         currentIndex (vars st') = js_rem (currentIndex (vars st) + 1) (frameCount st)
         /\ lastFrameTime (vars st') = now)
        /\ (js_ge elapsedTime threshold = false ->
            currentIndex (vars st') = currentIndex (vars st)
            /\ lastFrameTime (vars st') = lastFrameTime (vars st))
        /\ isPlaying (vars st') = true
        /\ (exists id, raf_pending (host st') = [id])
        /\ (forall interval : Q,
              js_div 1000 ANIMATION_FPS = Fin interval ->
              sub_exact now (lastFrameTime (vars st)) = true ->
              (js_ge elapsedTime threshold = true
               <-> (dwell interval (frameCount st) (currentIndex (vars st))
                    <= now - lastFrameTime (vars st))%Q)))
  /\ (forall (X : Type) (ANIMATION_FPS : Q) (onFrameShown : Page X -> X) (interval : Q)
             (st : Page X) (times : list Q),
        js_div 1000 ANIMATION_FPS = Fin interval ->
        (0 < interval)%Q ->
        isPlaying (vars st) = true ->
        (exists id, raf_pending (host st) = [id]) ->
        (0 <= currentIndex (vars st) < frameCount st)%Z ->
        exact_ticks (lastFrameTime (vars st)) times = true ->
        increasing (lastFrameTime (vars st)) times = true ->
        within (lastFrameTime (vars st) + loopTime interval (frameCount st))%Q times = true ->
        (forall j, (1 <= j <= Z.to_nat (frameCount st))%nat ->
                   tickAt (lastFrameTime (vars st)
                           + elapsed interval (frameCount st) (currentIndex (vars st)) j)%Q
                          times = true) ->
        let st' := ticking ANIMATION_FPS onFrameShown times st in
        advances ANIMATION_FPS onFrameShown times st = Z.to_nat (frameCount st)
        /\ currentIndex (vars st') = currentIndex (vars st)
        /\ (lastFrameTime (vars st')
            == lastFrameTime (vars st) + loopTime interval (frameCount st))%Q)
  /\ (forall (X : Type) (ANIMATION_FPS : Q) (onFrameShown : Page X -> X) (x : X)
             (es : list Event) (st : Page X),
        session ANIMATION_FPS onFrameShown es (initialPage x) = Some st ->
        allLoaded (loader st) = Fulfilled ->
        isPlaying (vars st) = true ->
        exists id, raf_pending (host st) = [id])
  /\ (let tick := ticking Magnifier.ANIMATION_FPS Magnifier.onFrameShown in
      imagePaths (vars Scenario.lens) = ["a.png"; "b.png"; "c.png"]%string
      /\ js_div 1000 Magnifier.ANIMATION_FPS = Fin 200
      /\ currentIndex (vars Scenario.lens) = 0%Z
      /\ isPlaying (vars Scenario.lens) = true
      /\ lastFrameTime (vars Scenario.lens) = 0%Q
      /\ currentIndex (vars (tick [200%Q] Scenario.lens)) = 1%Z
      /\ currentIndex (vars (tick [200%Q; 400%Q] Scenario.lens)) = 2%Z
      /\ currentIndex (vars (tick [200%Q; 400%Q; 1400%Q] Scenario.lens)) = 0%Z).
Proof.
  split; [| split; [| split; [| vm_compute; repeat split]]].
  - intros X fps hook st Hp Hq now threshold elapsedTime st'.
    subst threshold elapsedTime st'.
    destruct (animationFrame_playing fps hook now st Hp Hq) as (P & _ & Q' & Hadv & Hno).
    change (if (currentIndex (vars st) =? frameCount st - 1)%Z
            then Fin 1000 else js_div 1000 fps)
      with (currentFrameInterval fps st).
    split; [intros H; destruct (Hadv H) as (A & B & _); split; assumption |].
    split; [intros H; destruct (Hno H) as (A & B & _); split; assumption |].
    split; [exact P |]. split; [exact Q' |].
    intros interval Hi He.
    rewrite (due_exact fps interval now st Hi He). apply Qle_bool_iff.
  - intros X fps hook interval st times Hi Hpos Hp Hq Hidx Hex Hinc Hwin Hal st'. subst st'.
    destruct (full_loop interval (frameCount st) (currentIndex (vars st)) Hidx) as [L1 L2].
    destruct (aligned_ticking fps hook interval Hpos Hi times (Z.to_nat (frameCount st)) st
                Hp Hq Hex Hinc) as (A1 & A2 & A3 & _).
    + apply (within_proper (lastFrameTime (vars st) + loopTime interval (frameCount st))%Q);
        [rewrite L2; reflexivity | exact Hwin].
    + exact Hal.
    + split; [exact A1 |]. split; [rewrite A2; exact L1 |]. rewrite A3, L2. reflexivity.
  - intros X fps hook x es st Hs Hl Hp.
    pose proof (session_callbacks fps hook x es st Hs Hl) as C.
    unfold callbacks_match in C. rewrite Hp in C. destruct C as (id & C & _).
    exists id. exact C.
Qed.

(** C1 (amended) on the three frames, with ticks between the expiries too. *)
Lemma C1_witness :
  let times := [100; 200; 300; 400; 900; 1400]%Q in
  advances Magnifier.ANIMATION_FPS Magnifier.onFrameShown times Scenario.lens = 3%nat
  /\ currentIndex
       (vars (ticking Magnifier.ANIMATION_FPS Magnifier.onFrameShown times Scenario.lens))
     = 0%Z.
Proof.
  intros times.
  destruct C1_tick_rule_and_loop_closure as (_ & H & _).
  destruct (H Magnifier.Lens Magnifier.ANIMATION_FPS Magnifier.onFrameShown 200%Q
              Scenario.lens times) as (A & B & _).
  - vm_compute. reflexivity.
  - reflexivity.
  - vm_compute. reflexivity.
  - eexists. vm_compute. reflexivity.
  - vm_compute. split; [discriminate | reflexivity].
  - vm_compute. reflexivity.
  - vm_compute. reflexivity.
  - vm_compute. reflexivity.
  - intros j Hj.
    change (Z.to_nat (frameCount Scenario.lens)) with 3%nat in Hj.
    assert (C : j = 1%nat \/ j = 2%nat \/ j = 3%nat) by lia.
    destruct C as [-> | [-> | ->]]; vm_compute; reflexivity.
  - split; [exact A | exact B].
Defined.

(** * Further properties of the scripts *)

(** ** Stepping *)

Section Stepping.
Context {X : Type}.
Variable onFrameShown : Page X -> X.

Lemma updateUI_index (index : Z) (st : Page X) :
  currentIndex (vars (updateUI onFrameShown index st)) = index
  /\ frameCount (updateUI onFrameShown index st) = frameCount st.
Proof.
  unfold updateUI, displayFrame. page_open st. page_cases; split; reflexivity.
Qed.

Lemma prevFrame_index (st : Page X) :
  currentIndex (vars (prevFrame onFrameShown st))
  = js_rem (currentIndex (vars st) - 1 + frameCount st) (frameCount st)
  /\ frameCount (prevFrame onFrameShown st) = frameCount st.
Proof.
  unfold prevFrame.
  destruct (stopAnimation_rest st) as (_ & C & _).
  destruct (stopAnimation_keeps st) as (F & _).
  destruct (updateUI_index
              (js_rem (currentIndex (vars (stopAnimation st)) - 1 + frameCount (stopAnimation st))
                      (frameCount (stopAnimation st))) (stopAnimation st)) as [A B].
  rewrite A, B, C, F. split; reflexivity.
Qed.

Lemma nextFrame_index (st : Page X) :
  currentIndex (vars (nextFrame onFrameShown st))
  = js_rem (currentIndex (vars st) + 1) (frameCount st)
  /\ frameCount (nextFrame onFrameShown st) = frameCount st.
Proof.
  unfold nextFrame.
  destruct (stopAnimation_rest st) as (_ & C & _).
  destruct (stopAnimation_keeps st) as (F & _).
  destruct (updateUI_index
              (js_rem (currentIndex (vars (stopAnimation st)) + 1)
                      (frameCount (stopAnimation st))) (stopAnimation st)) as [A B].
  rewrite A, B, C, F. split; reflexivity.
Qed.

(** On a valid index the remainders of the two steps are the mathematical
    residues: the [+ imagePaths.length] of [prevFrame] keeps the dividend
    non-negative. *)
Lemma js_rem_is_modulo (a n : Z) : (0 <= a)%Z -> (0 < n)%Z -> js_rem a n = (a mod n)%Z.
Proof. intros Ha Hn. unfold js_rem. apply Z.rem_mod_nonneg; lia. Qed.

End Stepping.

(** X1.  From a valid index i of N frames, [nextFrame] leaves the index
    (i + 1) mod N and [prevFrame] leaves (i - 1) mod N, so both wrap around at
    the ends and stay valid; a step forward then back, or back then forward,
    returns to i. *)
Theorem X1_steps_wrap_and_undo :
  forall (X : Type) (onFrameShown : Page X -> X) (st : Page X),
    (0 <= currentIndex (vars st) < frameCount st)%Z ->
    let i := currentIndex (vars st) in
    let n := frameCount st in
    currentIndex (vars (nextFrame onFrameShown st)) = ((i + 1) mod n)%Z
    /\ currentIndex (vars (prevFrame onFrameShown st)) = ((i - 1) mod n)%Z
    /\ (i = n - 1 -> currentIndex (vars (nextFrame onFrameShown st)) = 0)%Z
    /\ (i = 0 -> currentIndex (vars (prevFrame onFrameShown st)) = n - 1)%Z
    /\ currentIndex (vars (prevFrame onFrameShown (nextFrame onFrameShown st))) = i
    /\ currentIndex (vars (nextFrame onFrameShown (prevFrame onFrameShown st))) = i.
Proof.
  intros X hook st Hi i n.
  destruct (nextFrame_index hook st) as [N1 N2].
  destruct (prevFrame_index hook st) as [P1 P2].
  destruct (prevFrame_index hook (nextFrame hook st)) as [Q1 _].
  destruct (nextFrame_index hook (prevFrame hook st)) as [R1 _].
  fold i n in N1, N2, P1, P2, Hi.
  assert (En : js_rem (i + 1) n = ((i + 1) mod n)%Z) by (apply js_rem_is_modulo; lia).
  assert (Ep : js_rem (i - 1 + n) n = ((i - 1) mod n)%Z).
  { rewrite js_rem_is_modulo by lia.
    replace (i - 1 + n)%Z with (i - 1 + 1 * n)%Z by lia. apply Z.mod_add. lia. }
  assert (Hn : (0 <= (i + 1) mod n < n)%Z) by (apply Z.mod_pos_bound; lia).
  assert (Hp : (0 <= (i - 1) mod n < n)%Z) by (apply Z.mod_pos_bound; lia).
  split; [congruence |]. split; [congruence |].
  split.
  { intros E. rewrite N1, En. replace (i + 1)%Z with n by lia. apply Z.mod_same. lia. }
  split.
  { intros E. rewrite P1, Ep. replace (i - 1)%Z with (n - 1 + (-1) * n)%Z by lia.
    rewrite Z.mod_add by lia. apply Z.mod_small. lia. }
  split.
  - rewrite Q1, N1, N2, En.
    rewrite js_rem_is_modulo by lia.
    replace ((i + 1) mod n - 1 + n)%Z with (((i + 1) mod n - 1) + 1 * n)%Z by lia.
    rewrite Z.mod_add by lia.
    rewrite Zminus_mod_idemp_l. replace (i + 1 - 1)%Z with i by lia. apply Z.mod_small. lia.
  - rewrite R1, P1, P2, Ep.
    rewrite js_rem_is_modulo by lia.
    rewrite Zplus_mod_idemp_l. replace (i - 1 + 1)%Z with i by lia. apply Z.mod_small. lia.
Qed.

(** X1 on the three loaded frames, from frame 0. *)
Lemma X1_witness :
  currentIndex (vars (prevFrame Magnifier.onFrameShown Scenario.lens)) = 2%Z
  /\ currentIndex
       (vars (nextFrame Magnifier.onFrameShown
                (prevFrame Magnifier.onFrameShown Scenario.lens))) = 0%Z.
Proof.
  destruct (X1_steps_wrap_and_undo Magnifier.Lens Magnifier.onFrameShown Scenario.lens)
    as (_ & _ & _ & A & _ & B).
  - vm_compute. split; [discriminate | reflexivity].
  - split; [apply A; reflexivity | exact B].
Defined.

(** ** Play and pause *)

Section PlayPause.
Context {X : Type}.

Lemma startAnimation_playing (now : Q) (st : Page X) :
  isPlaying (vars (startAnimation now st)) = true
  /\ currentIndex (vars (startAnimation now st)) = currentIndex (vars st)
  /\ frameCount (startAnimation now st) = frameCount st.
Proof.
  unfold startAnimation. page_open st. page_cases; repeat split.
Qed.

Lemma stopAnimation_stopped (st : Page X) :
  isPlaying (vars (stopAnimation st)) = false
  /\ currentIndex (vars (stopAnimation st)) = currentIndex (vars st)
  /\ frameCount (stopAnimation st) = frameCount st.
Proof.
  destruct (stopAnimation_rest st) as (_ & A & B).
  destruct (stopAnimation_keeps st) as (F & _). repeat split; assumption.
Qed.

End PlayPause.

(** X2.  Play and pause are idempotent: a second [startAnimation], at whatever
    time, changes nothing (the last-tick time and the scheduled callback of
    the first call stay), and a second [stopAnimation] changes nothing. *)
Theorem X2_play_pause_idempotent :
  forall (X : Type) (st : Page X) (now now' : Q),
    startAnimation now' (startAnimation now st) = startAnimation now st
    /\ stopAnimation (stopAnimation st) = stopAnimation st.
Proof.
  intros X st now now'. split.
  - destruct (startAnimation_playing now st) as (P & _).
    unfold startAnimation at 1. rewrite P. reflexivity.
  - destruct (stopAnimation_stopped st) as (P & _).
    unfold stopAnimation at 1. rewrite P. reflexivity.
Qed.

(** X3.  With at least one frame, [togglePlayPause] flips the flag and keeps
    the frame, so two toggles restore the flag.  With no frame, a stopped
    player stays stopped: the toggle changes nothing at all. *)
Theorem X3_toggle_flips :
  forall (X : Type) (st : Page X) (now now' : Q),
    ((0 < frameCount st)%Z ->
     isPlaying (vars (togglePlayPause now st)) = negb (isPlaying (vars st))
     /\ currentIndex (vars (togglePlayPause now st)) = currentIndex (vars st)
     /\ isPlaying (vars (togglePlayPause now' (togglePlayPause now st))) = isPlaying (vars st)
     /\ currentIndex (vars (togglePlayPause now' (togglePlayPause now st)))
        = currentIndex (vars st))
    /\ (frameCount st = 0%Z -> isPlaying (vars st) = false -> togglePlayPause now st = st).
Proof.
  intros X st now now'. split.
  - intros Hn.
    assert (T : forall (s : Page X) (t : Q),
               (0 < frameCount s)%Z ->
               isPlaying (vars (togglePlayPause t s)) = negb (isPlaying (vars s))
               /\ currentIndex (vars (togglePlayPause t s)) = currentIndex (vars s)
               /\ frameCount (togglePlayPause t s) = frameCount s).
    { intros s t Hs. unfold togglePlayPause. destruct (isPlaying (vars s)).
      - apply stopAnimation_stopped.
      - apply Z.ltb_lt in Hs. rewrite Hs. apply startAnimation_playing. }
    destruct (T st now Hn) as (A & B & C).
    destruct (T (togglePlayPause now st) now') as (D & E & _); [rewrite C; exact Hn |].
    split; [exact A |]. split; [exact B |].
    split; [rewrite D, A; apply negb_involutive | congruence].
  - intros Hz Hp. unfold togglePlayPause. rewrite Hp, Hz. reflexivity.
Qed.

(** X3 on the three loaded frames, which are playing. *)
Lemma X3_witness :
  isPlaying (vars (togglePlayPause 50 Scenario.lens)) = false
  /\ isPlaying (vars (togglePlayPause 80 (togglePlayPause 50 Scenario.lens))) = true
  /\ togglePlayPause 50 (with_vars (set_isPlaying false) Magnifier.initial)
     = with_vars (set_isPlaying false) Magnifier.initial.
Proof.
  destruct (X3_toggle_flips Magnifier.Lens Scenario.lens 50 80) as [H _].
  destruct H as (A & _ & B & _); [vm_compute; reflexivity |].
  destruct (X3_toggle_flips Magnifier.Lens
              (with_vars (set_isPlaying false) Magnifier.initial) 50 80) as [_ K].
  split; [exact A |]. split; [exact B |]. apply K; reflexivity.
Defined.

(** X4.  In every state a session reaches, at most one frame callback is
    scheduled, and one is scheduled exactly when the load has completed and
    the player is playing: a pause really cancels the callback, so none fires
    while the player is stopped. *)
Theorem X4_one_callback_iff_playing :
  forall (X : Type) (ANIMATION_FPS : Q) (onFrameShown : Page X -> X) (x : X)
         (es : list Event) (st : Page X),
    session ANIMATION_FPS onFrameShown es (initialPage x) = Some st ->
    (length (raf_pending (host st)) <= 1)%nat
    /\ (length (raf_pending (host st)) = 1%nat
        <-> allLoaded (loader st) = Fulfilled /\ isPlaying (vars st) = true)
    /\ (isPlaying (vars st) = false ->
        forall now, dispatch ANIMATION_FPS onFrameShown (FrameCallback now) st = None).
Proof.
  intros X fps hook x es st Hs.
  pose proof (session_invariant fps hook es _ st (invariant_initial x) Hs) as I.
  assert (D : allLoaded (loader st) = Fulfilled \/ allLoaded (loader st) <> Fulfilled).
  { destruct (allLoaded (loader st)); [right | left | right]; congruence. }
  destruct D as [L | N].
  - pose proof (session_callbacks fps hook x es st Hs L) as C. unfold callbacks_match in C.
    destruct (isPlaying (vars st)) eqn:P.
    + destruct C as (id & C & _). rewrite C. simpl.
      split; [lia |]. split; [tauto |]. discriminate.
    + rewrite C. simpl. split; [lia |]. split.
      * split; [discriminate | intros [_ F]; discriminate].
      * intros _ now. unfold dispatch. simpl. rewrite C. reflexivity.
  - destruct (inv_waiting st I N) as [_ _ _ _ W5 [W6 _]]. rewrite W6. simpl.
    split; [lia |]. split.
    + split; [discriminate | intros [F _]; contradiction].
    + intros _ now. unfold dispatch. simpl. rewrite W6. reflexivity.
Qed.

(** X4 after a pause of the loaded page. *)
Lemma X4_witness :
  let st := default Magnifier.initial
              (Magnifier.session (Scenario.loadAll 0 ++ [ClickPlayPause 300]) Magnifier.initial) in
  raf_pending (host st) = []
  /\ dispatch Magnifier.ANIMATION_FPS Magnifier.onFrameShown (FrameCallback 400) st = None.
Proof.
  intros st.
  destruct (X4_one_callback_iff_playing Magnifier.Lens Magnifier.ANIMATION_FPS
              Magnifier.onFrameShown Magnifier.idle
              (Scenario.loadAll 0 ++ [ClickPlayPause 300]) st) as (_ & _ & H).
  - vm_compute. reflexivity.
  - split; [vm_compute; reflexivity | apply H; vm_compute; reflexivity].
Defined.

(** X5.  In every state a session reaches once the load has completed, a
    step to the previous or next frame and a seek through the scrubber leave
    the player stopped with no frame callback scheduled, whether it was
    playing or not. *)
Theorem X5_step_and_seek_pause :
  forall (X : Type) (ANIMATION_FPS : Q) (onFrameShown : Page X -> X) (x : X)
         (es : list Event) (st : Page X) (e : Event) (st' : Page X),
    session ANIMATION_FPS onFrameShown es (initialPage x) = Some st ->
    allLoaded (loader st) = Fulfilled ->
    match e with ClickPrev | ClickNext | ScrubberChange _ => True | _ => False end ->
    dispatch ANIMATION_FPS onFrameShown e st = Some st' ->
    isPlaying (vars st') = false /\ raf_pending (host st') = [].
Proof.
  intros X fps hook x es st e st' Hs L He D.
  pose proof (session_callbacks fps hook x es st Hs L) as C.
  unfold dispatch in D. destruct (enabled e st); [| discriminate]. injection D as <-.
  assert (U : forall (s : Page X) (index : Z),
             callbacks_match s ->
             isPlaying (vars (updateUI hook index (stopAnimation s))) = false
             /\ raf_pending (host (updateUI hook index (stopAnimation s))) = []).
  { intros s index Cs. destruct (stopAnimation_callbacks s Cs) as [A B].
    destruct (updateUI_rest hook index (stopAnimation s)) as (_ & U1 & U2 & _).
    rewrite U1, U2. split; assumption. }
  destruct e; try contradiction; simpl.
  - apply U. exact C.
  - apply U. exact C.
  - apply U. unfold callbacks_match in *. page_open st. exact C.
Qed.

(** X5 on a seek during playback. *)
Lemma X5_witness :
  let st' := Magnifier.handle (ScrubberChange 1) Scenario.lens in
  isPlaying (vars Scenario.lens) = true
  /\ isPlaying (vars st') = false /\ raf_pending (host st') = [].
Proof.
  intros st'. split; [vm_compute; reflexivity |].
  apply (X5_step_and_seek_pause Magnifier.Lens Magnifier.ANIMATION_FPS Magnifier.onFrameShown
           Magnifier.idle (Scenario.loadAll 0) Scenario.lens (ScrubberChange 1) st').
  - vm_compute. reflexivity.
  - vm_compute. reflexivity.
  - exact Logic.I.
  - vm_compute. reflexivity.
Defined.

(** ** The manifest *)

(** X6.  An empty manifest is a dead end without feedback: [fetchImages]
    starts no load, the page keeps the loading presentation of the markup (no
    error text, nothing revealed), and from then on the host has no event to
    deliver, so every longer session is impossible. *)
Theorem X6_empty_manifest_dead_end :
  forall (X : Type) (ANIMATION_FPS : Q) (onFrameShown : Page X -> X) (x : X),
    let st := handle ANIMATION_FPS onFrameShown (ManifestArrived []) (initialPage x) in
    session ANIMATION_FPS onFrameShown [ManifestArrived []] (initialPage x) = Some st
    /\ dom st = initialDom
    /\ loadPromises (loader st) = []
    /\ (forall e, enabled e st = false)
    /\ (forall e es,
          session ANIMATION_FPS onFrameShown (ManifestArrived [] :: e :: es) (initialPage x)
          = None).
Proof.
  intros X fps hook x st.
  assert (E : forall e, enabled e st = false).
  { intros e. destruct e as [paths | | i w h now | i | now | now | | | v]; try reflexivity;
      simpl; rewrite lookup_nil; reflexivity. }
  split; [reflexivity |]. split; [reflexivity |]. split; [reflexivity |].
  split; [exact E |].
  intros e es. change (session fps hook (ManifestArrived [] :: e :: es) (initialPage x))
    with (session fps hook (e :: es) st).
  simpl. unfold dispatch. rewrite (E e). reflexivity.
Qed.

(** X7.  A manifest that cannot be fetched or decoded is terminal: the
    [catch] block of [fetchImages] shows the data error text in the loading
    message, nothing is revealed, and no further event can be delivered. *)
Theorem X7_manifest_failure_terminal :
  forall (X : Type) (ANIMATION_FPS : Q) (onFrameShown : Page X -> X) (x : X),
    let st := handle ANIMATION_FPS onFrameShown ManifestFailed (initialPage x) in
    session ANIMATION_FPS onFrameShown [ManifestFailed] (initialPage x) = Some st
    /\ loadingMessage_text (dom st) = MsgErrorData
    /\ loadingMessage_shown (dom st) = true
    /\ waiting st
    /\ (forall e, enabled e st = false)
    /\ (forall e es,
          session ANIMATION_FPS onFrameShown (ManifestFailed :: e :: es) (initialPage x) = None).
Proof.
  intros X fps hook x st.
  assert (E : forall e, enabled e st = false).
  { intros e. destruct e as [paths | | i w h now | i | now | now | | | v]; try reflexivity;
      simpl; rewrite lookup_nil; reflexivity. }
  split; [reflexivity |]. split; [reflexivity |]. split; [reflexivity |].
  split; [constructor; simpl; auto |].
  split; [exact E |].
  intros e es. change (session fps hook (ManifestFailed :: e :: es) (initialPage x))
    with (session fps hook (e :: es) st).
  simpl. unfold dispatch. rewrite (E e). reflexivity.
Qed.

(** ** The loader's progress *)

Lemma fulfilledCount_le (ps : list Promise) : (fulfilledCount ps <= length ps)%nat.
Proof.
  unfold fulfilledCount. induction ps as [| p ps IH]; simpl; [lia |].
  destruct (Promise_eqb p Fulfilled); simpl; lia.
Qed.

Lemma fulfilledCount_repeat_pending (n : nat) : fulfilledCount (repeat Pending n) = 0%nat.
Proof. unfold fulfilledCount. induction n as [| n IH]; simpl; [reflexivity | exact IH]. Qed.

Lemma fulfilledCount_settle (ps : list Promise) (i : nat) :
  ps !! i = Some Pending ->
  fulfilledCount (<[i := Fulfilled]> ps) = S (fulfilledCount ps)
  /\ fulfilledCount (<[i := Rejected]> ps) = fulfilledCount ps.
Proof.
  unfold fulfilledCount. revert i. induction ps as [| p ps IH]; intros i H; [discriminate |].
  destruct i as [| i]; simpl in *.
  - injection H as ->. simpl. split; reflexivity.
  - destruct (IH i H) as [A B]. destruct (Promise_eqb p Fulfilled); simpl; split; lia.
Qed.

Section LoaderProgress.
Context {X : Type}.
Variable ANIMATION_FPS : Q.
Variable onFrameShown : Page X -> X.

Lemma img_onload_loader (i : nat) (w h now : Q) (st : Page X) (path : string) :
  imagePaths (vars st) !! i = Some path ->
  let st' := img_onload onFrameShown i w h now st in
  loadedCount (loader st') = S (loadedCount (loader st))
  /\ totalCount (loader st') = totalCount (loader st)
  /\ loadPromises (loader st') = <[i := Fulfilled]> (loadPromises (loader st))
  /\ loadingMessage_text (dom st')
     = MsgLoadingImage (S (loadedCount (loader st))) (totalCount (loader st)).
Proof.
  intros P st'. subst st'. unfold img_onload. rewrite P.
  unfold loadAllImages_then, togglePlayPause, startAnimation, stopAnimation, updateUI,
    displayFrame.
  page_open st. page_cases; repeat split.
Qed.

Lemma handle_loader_counts (e : Event) (st : Page X) :
  loader_counts st -> enabled e st = true ->
  loader_counts (handle ANIMATION_FPS onFrameShown e st).
Proof.
  intros (C1 & C2 & C3 & C4) En.
  destruct e as [paths | | i w h now | i | now | now | | | v];
    try (match goal with
         | |- loader_counts (handle _ _ ?e _) =>
             destruct (controls_keep_cache ANIMATION_FPS onFrameShown e st Logic.I)
               as (A & _ & C)
         end;
         unfold loader_counts; rewrite A, C; repeat split; assumption);
    simpl in *.
  - destruct (manifest (loader st)) eqn:M; try discriminate.
    assert (E : imagePaths (vars st) = []) by (apply C4; discriminate).
    rewrite E in C2, C3. simpl in C2, C3.
    unfold fetchImages_then, loadAllImages, loader_counts. page_open st.
    destruct loadPromises0; [| discriminate]. subst.
    page_cases;
      repeat match goal with
        | H : (_ =? _)%Z = true |- _ => apply Z.eqb_eq in H
        | H : (_ =? _)%Z = false |- _ => apply Z.eqb_neq in H
        | H : (_ <? _)%Z = true |- _ => apply Z.ltb_lt in H
        | H : (_ <? _)%Z = false |- _ => apply Z.ltb_ge in H
        end;
      rewrite ?fulfilledCount_repeat_pending, ?repeat_length; simpl;
      repeat split; try lia; intros F; exfalso; apply F; reflexivity.
  - destruct (manifest (loader st)) eqn:M; try discriminate.
    assert (E : imagePaths (vars st) = []) by (apply C4; discriminate).
    unfold fetchImages_catch, loader_counts. page_open st.
    repeat split; try assumption. intros _. exact E.
  - destruct (loadPromises (loader st) !! i) as [[| |] |] eqn:P; try discriminate.
    destruct (imagePaths (vars st) !! i) as [path |] eqn:Q.
    + destruct (img_onload_loader i w h now st path Q) as (A & B & C & _).
      destruct (img_onload_cache onFrameShown i w h now st path Q) as (D & _ & M).
      unfold loader_counts. rewrite A, B, C, D, M, length_insert.
      rewrite (proj1 (fulfilledCount_settle _ _ P)).
      repeat split; first [assumption | congruence].
    + unfold img_onload. rewrite Q. repeat split; assumption.
  - destruct (loadPromises (loader st) !! i) as [[| |] |] eqn:P; try discriminate.
    unfold img_onerror, loader_counts, loadAllImages_catch. page_open st.
    page_cases; rewrite length_insert, (proj2 (fulfilledCount_settle _ _ P));
      repeat split; assumption.
Qed.

Lemma session_loader_counts (es : list Event) (st st' : Page X) :
  loader_counts st ->
  session ANIMATION_FPS onFrameShown es st = Some st' -> loader_counts st'.
Proof.
  revert st. induction es as [| e es IH]; intros st C H; simpl in H.
  - injection H as <-. exact C.
  - unfold dispatch in H. destruct (enabled e st) eqn:En; [| discriminate].
    apply (IH _ (handle_loader_counts e st C En) H).
Qed.

End LoaderProgress.

(** X8.  Progress is "k of N": in every state a session reaches, the
    loader's counter is the number of images that have loaded so far, never
    more than the number N of frames in the manifest; each image that loads
    raises it by one and writes "Loading Image k/N" with the new count, and an
    image that fails leaves it as it is. *)
Theorem X8_progress_counts_loaded_images :
  forall (X : Type) (ANIMATION_FPS : Q) (onFrameShown : Page X -> X) (x : X)
         (es : list Event) (st : Page X),
    session ANIMATION_FPS onFrameShown es (initialPage x) = Some st ->
    loadedCount (loader st) = fulfilledCount (loadPromises (loader st))
    /\ (loadedCount (loader st) <= length (imagePaths (vars st)))%nat
    /\ (forall i w h now st',
          dispatch ANIMATION_FPS onFrameShown (ImageLoaded i w h now) st = Some st' ->
          loadedCount (loader st') = S (loadedCount (loader st))
          /\ loadingMessage_text (dom st')
             = MsgLoadingImage (S (loadedCount (loader st))) (length (imagePaths (vars st)))
          /\ (S (loadedCount (loader st)) <= length (imagePaths (vars st)))%nat)
    /\ (forall i st',
          dispatch ANIMATION_FPS onFrameShown (ImageFailed i) st = Some st' ->
          loadedCount (loader st') = loadedCount (loader st)).
Proof.
  intros X fps hook x es st Hs.
  assert (C0 : loader_counts (initialPage x)) by (repeat split).
  pose proof (session_loader_counts fps hook es _ st C0 Hs) as (C1 & C2 & C3 & _).
  split; [exact C1 |].
  split; [rewrite C1, <- C2; apply fulfilledCount_le |].
  split.
  - intros i w h now st' D.
    assert (Hs' : session fps hook (es ++ [ImageLoaded i w h now]) (initialPage x) = Some st').
    { rewrite session_app, Hs. simpl. rewrite D. reflexivity. }
    pose proof (session_loader_counts fps hook _ _ st' C0 Hs') as (D1 & D2 & D3 & _).
    unfold dispatch in D. destruct (enabled (ImageLoaded i w h now) st) eqn:En; [| discriminate].
    injection D as <-. simpl in En.
    destruct (loadPromises (loader st) !! i) as [[| |] |] eqn:P; try discriminate.
    assert (Q : is_Some (imagePaths (vars st) !! i)).
    { apply lookup_lt_is_Some. rewrite <- C2. apply lookup_lt_Some in P. exact P. }
    destruct Q as [path Q]. simpl in *.
    destruct (img_onload_loader hook i w h now st path Q) as (A & B & C & M).
    destruct (img_onload_cache hook i w h now st path Q) as (E & _).
    split; [exact A |]. split; [rewrite M, C3; reflexivity |].
    rewrite <- A, D1, <- E, <- D2. apply fulfilledCount_le.
  - intros i st' D. unfold dispatch in D.
    destruct (enabled (ImageFailed i) st); [| discriminate]. injection D as <-.
    simpl. unfold img_onerror, loadAllImages_catch. page_open st. page_cases; reflexivity.
Qed.

(** X8 after the manifest and one image out of three. *)
Lemma X8_witness :
  let st := default Magnifier.initial
              (Magnifier.session [ManifestArrived Scenario.frames; ImageLoaded 2 800 600 5]
                 Magnifier.initial) in
  let st' := Magnifier.handle (ImageLoaded 0 800 600 9) st in
  loadedCount (loader st) = 1%nat
  /\ loadedCount (loader st') = 2%nat
  /\ loadingMessage_text (dom st') = MsgLoadingImage 2 3.
Proof.
  intros st st'.
  destruct (X8_progress_counts_loaded_images Magnifier.Lens Magnifier.ANIMATION_FPS
              Magnifier.onFrameShown Magnifier.idle
              [ManifestArrived Scenario.frames; ImageLoaded 2 800 600 5] st)
    as (A & _ & B & _); [vm_compute; reflexivity |].
  destruct (B 0%nat 800%Q 600%Q 9%Q st') as (C & D & _); [vm_compute; reflexivity |].
  split; [rewrite A; vm_compute; reflexivity |].
  split; [rewrite C, A; vm_compute; reflexivity |].
  rewrite D, A. vm_compute. reflexivity.
Defined.

(** ** After a failed image *)

(** X9.  Once one image has failed, the load never recovers: in every state
    a session reaches afterwards the load is rejected and the page is still
    in its loading presentation, with nothing revealed and no frame callback
    scheduled; the only events the host can still deliver are the
    settlements of the remaining images, so no control and no frame callback
    ever runs. *)
Theorem X9_image_failure_is_final :
  forall (X : Type) (ANIMATION_FPS : Q) (onFrameShown : Page X -> X) (x : X)
         (es1 : list Event) (i : nat) (es2 : list Event) (st : Page X),
    session ANIMATION_FPS onFrameShown (es1 ++ ImageFailed i :: es2) (initialPage x) = Some st ->
    allLoaded (loader st) = Rejected
    /\ waiting st
    /\ (forall e, enabled e st = true ->
                  match e with ImageLoaded _ _ _ _ | ImageFailed _ => True | _ => False end)
    /\ (forall e st', dispatch ANIMATION_FPS onFrameShown e st = Some st' ->
                      allLoaded (loader st') = Rejected /\ waiting st').
Proof.
  intros X fps hook x es1 i es2 st H.
  destruct (load_failure_terminal X fps hook x es1 i es2 st H) as [R W].
  pose proof (session_invariant fps hook _ _ st (invariant_initial x) H) as I.
  split; [exact R |]. split; [exact W |]. split.
  - intros e En. destruct W as [_ _ W3 W4 _ [W6 _]].
    destruct e as [paths | | j w h now | j | now | now | | | v]; simpl in En;
      try exact Logic.I; try congruence.
    + destruct (manifest (loader st)) eqn:M; try discriminate.
      destruct (inv_manifest st I) as [_ A]; congruence.
    + destruct (manifest (loader st)) eqn:M; try discriminate.
      destruct (inv_manifest st I) as [_ A]; congruence.
    + rewrite W6 in En. discriminate.
    + rewrite W4 in En. discriminate.
  - intros e st' D.
    pose proof (dispatch_invariant fps hook e st st' I D) as I'.
    pose proof (rejected_stays fps hook e st st' I R D) as R'.
    split; [exact R' |]. apply (inv_waiting st' I'). congruence.
Qed.

(** X9 on three frames of which the second fails, the others loading before
    and after it. *)
Lemma X9_witness :
  let st := default Magnifier.initial
              (Magnifier.session
                 [ManifestArrived Scenario.frames; ImageLoaded 0 800 600 5; ImageFailed 1;
                  ImageLoaded 2 800 600 9] Magnifier.initial) in
  allLoaded (loader st) = Rejected /\ controls_shown (dom st) = false
  /\ raf_pending (host st) = [].
Proof.
  intros st.
  destruct (X9_image_failure_is_final Magnifier.Lens Magnifier.ANIMATION_FPS
              Magnifier.onFrameShown Magnifier.idle
              [ManifestArrived Scenario.frames; ImageLoaded 0 800 600 5] 1%nat
              [ImageLoaded 2 800 600 9] st) as (A & W & _).
  - vm_compute. reflexivity.
  - destruct W as [_ _ W3 _ _ [W6 _]]. split; [exact A |]. split; assumption.
Defined.

(** ** The frame on display *)

Lemma repeat_lookup_pending (n i : nat) (p : Promise) :
  repeat Pending n !! i = Some p -> p = Pending.
Proof.
  revert i. induction n as [| n IH]; intros [| i] H; simpl in H; try discriminate.
  - congruence.
  - exact (IH i H).
Qed.

(** An index of the manifest reads the element at that position. *)
Lemma array_get_inside {A : Type} (arr : list A) (index : Z) :
  (0 <= index < Z.of_nat (length arr))%Z ->
  exists a, array_get arr index = Some a /\ arr !! Z.to_nat index = Some a.
Proof.
  intros H. unfold array_get. destruct (0 <=? index)%Z eqn:E; [| apply Z.leb_gt in E; lia].
  destruct (lookup_lt_is_Some_2 arr (Z.to_nat index)) as [a Ha]; [lia |].
  exists a. split; assumption.
Qed.

Lemma array_get_Some {A : Type} (arr : list A) (index : Z) (a : A) :
  array_get arr index = Some a -> (0 <= index < Z.of_nat (length arr))%Z.
Proof.
  unfold array_get. destruct (0 <=? index)%Z eqn:E; [| discriminate].
  intros H. apply Z.leb_le in E. apply lookup_lt_Some in H. lia.
Qed.

Section FrameOnDisplay.
Context {X : Type}.
Variable ANIMATION_FPS : Q.
Variable onFrameShown : Page X -> X.

Lemma displays_current_keeps (st st' : Page X) :
  imagePaths (vars st') = imagePaths (vars st) ->
  currentIndex (vars st') = currentIndex (vars st) ->
  goesImage_src (dom st') = goesImage_src (dom st) ->
  displays_current st -> displays_current st'.
Proof.
  intros A B C (path & P & S). exists path. rewrite A, B, C. split; assumption.
Qed.

Lemma cache_complete_keeps (st st' : Page X) :
  imagePaths (vars st') = imagePaths (vars st) ->
  imageCache (vars st') = imageCache (vars st) ->
  cache_complete st -> cache_complete st'.
Proof.
  intros A B C i path. rewrite A, B. apply C.
Qed.

(** With every promise fulfilled, a filled cache is complete. *)
Lemma cache_filled_complete (st : Page X) :
  cache_filled st -> loader_counts st ->
  forallb (fun p => Promise_eqb p Fulfilled) (loadPromises (loader st)) = true ->
  cache_complete st.
Proof.
  intros [F1 F2] (_ & L & _) A i path P.
  destruct (lookup_lt_is_Some_2 (loadPromises (loader st)) i) as [p Hp].
  { rewrite L. apply lookup_lt_Some in P. exact P. }
  assert (E : p = Fulfilled).
  { rewrite forallb_forall in A.
    pose proof (A p (proj1 (list_elem_of_In _ _) (list_elem_of_lookup_2 _ _ _ Hp))) as B.
    destruct p; [discriminate | reflexivity | discriminate]. }
  subst p. destruct (F2 i path Hp P) as [img K].
  exists img. split; [exact K | exact (F1 _ _ K)].
Qed.

Lemma displayFrame_shows (index : Z) (st : Page X) :
  cache_complete st -> (0 <= index < frameCount st)%Z ->
  goesImage_src (dom (displayFrame onFrameShown index st))
  = array_get (imagePaths (vars st)) index.
Proof.
  intros C Hi.
  destruct (array_get_inside (imagePaths (vars st)) index Hi) as (path & G & L).
  destruct (C _ _ L) as (img & K & S).
  unfold displayFrame. rewrite G. simpl. rewrite (object_get_own _ _ _ K). simpl.
  rewrite S. reflexivity.
Qed.

Lemma updateUI_displays (index : Z) (st : Page X) :
  cache_complete st -> (0 <= index < frameCount st)%Z ->
  displays_current (updateUI onFrameShown index st).
Proof.
  intros C Hi.
  destruct (array_get_inside (imagePaths (vars st)) index Hi) as (path & G & L).
  destruct (C _ _ L) as (img & K & S).
  unfold displays_current, updateUI, displayFrame. page_open st.
  rewrite G. simpl. rewrite (object_get_own _ _ _ K). page_simpl. exists path.
  split; [exact G | simpl; rewrite S; reflexivity].
Qed.

Lemma togglePlayPause_display (now : Q) (st : Page X) :
  imagePaths (vars (togglePlayPause now st)) = imagePaths (vars st)
  /\ currentIndex (vars (togglePlayPause now st)) = currentIndex (vars st)
  /\ goesImage_src (dom (togglePlayPause now st)) = goesImage_src (dom st).
Proof.
  unfold togglePlayPause, stopAnimation, startAnimation. page_open st.
  page_cases; repeat split.
Qed.

Lemma stopAnimation_display (st : Page X) :
  imagePaths (vars (stopAnimation st)) = imagePaths (vars st)
  /\ imageCache (vars (stopAnimation st)) = imageCache (vars st)
  /\ currentIndex (vars (stopAnimation st)) = currentIndex (vars st)
  /\ scrubber_value (dom (stopAnimation st)) = scrubber_value (dom st).
Proof.
  unfold stopAnimation. page_open st. page_cases; repeat split.
Qed.

Lemma runAnimationLoop_display (now : Q) (st : Page X) :
  cache_complete st -> displays_current st ->
  displays_current (runAnimationLoop ANIMATION_FPS onFrameShown now st).
Proof.
  intros C D. unfold runAnimationLoop.
  destruct (negb (isPlaying (vars st))); [exact D |].
  destruct (js_ge _ _).
  - set (st1 := with_vars (set_lastFrameTime now) st).
    assert (K : imagePaths (vars st1) = imagePaths (vars st)
                /\ imageCache (vars st1) = imageCache (vars st)
                /\ currentIndex (vars st1) = currentIndex (vars st))
      by (subst st1; page_open st; repeat split).
    destruct K as (K1 & K2 & K3).
    assert (R : (0 <= currentIndex (vars st1) < frameCount st1)%Z).
    { destruct D as (path & P & _). apply array_get_Some in P.
      unfold frameCount. rewrite K1, K3. exact P. }
    pose proof (updateUI_displays (js_rem (currentIndex (vars st1) + 1) (frameCount st1)) st1
                  (cache_complete_keeps st st1 K1 K2 C)
                  ltac:(apply js_rem_range; lia)) as D2.
    set (st2 := updateUI onFrameShown _ st1) in *.
    apply (displays_current_keeps st2); [| | | exact D2]; page_open st2; reflexivity.
  - apply (displays_current_keeps st); [| | | exact D]; page_open st; reflexivity.
Qed.

Lemma animationFrame_display (now : Q) (st : Page X) :
  cache_complete st -> displays_current st ->
  displays_current (animationFrame ANIMATION_FPS onFrameShown now st).
Proof.
  intros C D. unfold animationFrame. set (st1 := with_host _ st).
  assert (H : cache_complete st1 /\ displays_current st1).
  { split.
    - apply (cache_complete_keeps st); [| | exact C]; subst st1; page_open st; reflexivity.
    - apply (displays_current_keeps st); [| | | exact D]; subst st1; page_open st;
        reflexivity. }
  clearbody st1. revert st1 H.
  induction (raf_pending (host st)) as [| id due IH]; intros st1 [C1 D1]; [exact D1 |].
  simpl. apply IH. split.
  - destruct (runAnimationLoop_keeps_cache ANIMATION_FPS onFrameShown now st1) as (A & B & _).
    exact (cache_complete_keeps st1 _ A B C1).
  - apply runAnimationLoop_display; assumption.
Qed.

Lemma controls_display (e : Event) (st : Page X) :
  match e with
  | FrameCallback _ | ClickPlayPause _ | ClickPrev | ClickNext | ScrubberChange _ => True
  | _ => False
  end ->
  synced st -> cache_complete st -> displays_current st -> enabled e st = true ->
  displays_current (handle ANIMATION_FPS onFrameShown e st).
Proof.
  intros He [S1 S2 S3 S4 [S5 S6]] C D En.
  destruct e as [paths | | i w h now | i | now | now | | | v]; simpl in *; try contradiction.
  - apply animationFrame_display; assumption.
  - destruct (togglePlayPause_display now st) as (A & B & E).
    exact (displays_current_keeps st _ A B E D).
  - unfold prevFrame. destruct (stopAnimation_display st) as (A & B & E & _).
    apply updateUI_displays; [exact (cache_complete_keeps st _ A B C) |].
    unfold frameCount in *. rewrite A, E. apply js_rem_range; lia.
  - unfold nextFrame. destruct (stopAnimation_display st) as (A & B & E & _).
    apply updateUI_displays; [exact (cache_complete_keeps st _ A B C) |].
    unfold frameCount in *. rewrite A, E. apply js_rem_range; lia.
  - apply andb_true_iff in En. destruct En as [En Hv2].
    apply andb_true_iff in En. destruct En as [En Hv1].
    apply Z.leb_le in Hv1, Hv2.
    unfold handleScrubberInput. set (st1 := with_dom (set_scrubber_value v) st).
    assert (K : imagePaths (vars st1) = imagePaths (vars st)
                /\ imageCache (vars st1) = imageCache (vars st)
                /\ scrubber_value (dom st1) = v).
    { subst st1. page_open st. repeat split. apply range_sanitize_id. lia. }
    destruct K as (K1 & K2 & K3).
    destruct (stopAnimation_display st1) as (A & B & _ & V).
    apply updateUI_displays.
    + apply (cache_complete_keeps st); [congruence | congruence | exact C].
    + unfold frameCount in *. rewrite A, V, K1, K3. lia.
Qed.

(** What the [onload] that completes the load leaves on display: the result
    of [updateUI(0)] on the cache that has just received its last frame. *)
Lemma img_onload_display (i : nat) (w h now : Q) (st : Page X) (path : string) :
  imagePaths (vars st) !! i = Some path ->
  let st' := img_onload onFrameShown i w h now st in
  allLoaded (loader st) <> Fulfilled -> allLoaded (loader st') = Fulfilled ->
  currentIndex (vars st') = 0%Z
  /\ goesImage_src (dom st')
     = match object_get (<[path := mkImage path w h]> (imageCache (vars st)))
                        (prop_key (array_get (imagePaths (vars st)) 0)) with
       | Some cachedImage => Some (member_src cachedImage)
       | None => goesImage_src (dom st)
       end.
Proof.
  intros P st'. subst st'. unfold img_onload. rewrite P.
  unfold loadAllImages_then, togglePlayPause, startAnimation, stopAnimation, updateUI,
    displayFrame.
  page_open st. page_cases; intros N L; try contradiction; split; reflexivity.
Qed.

Lemma img_onerror_rest (i : nat) (st : Page X) :
  imagePaths (vars (img_onerror i st)) = imagePaths (vars st)
  /\ imageCache (vars (img_onerror i st)) = imageCache (vars st)
  /\ loadPromises (loader (img_onerror i st)) = <[i := Rejected]> (loadPromises (loader st)).
Proof.
  unfold img_onerror, loadAllImages_catch. page_open st. page_cases; repeat split.
Qed.

Lemma handle_cache_filled (e : Event) (st : Page X) :
  invariant st -> cache_filled st -> enabled e st = true ->
  cache_filled (handle ANIMATION_FPS onFrameShown e st).
Proof.
  intros I [F1 F2] En.
  destruct e as [paths | | i w h now | i | now | now | | | v];
    try (match goal with
         | |- cache_filled (handle _ _ ?e _) =>
             destruct (controls_keep_cache ANIMATION_FPS onFrameShown e st Logic.I)
               as (A & B & C)
         end;
         unfold cache_filled; rewrite A, B, C; split; assumption);
    simpl in *.
  - destruct (manifest (loader st)) eqn:M; try discriminate.
    destruct (inv_manifest st I) as [E _]; [congruence |].
    unfold fetchImages_then, loadAllImages, cache_filled. page_open st. subst.
    page_cases; (split; [exact F1 |]); intros j p K; page_simpl;
      [rewrite lookup_nil in K; discriminate
      | apply repeat_lookup_pending in K; discriminate
      | rewrite lookup_nil in K; discriminate].
  - destruct (manifest (loader st)) eqn:M; try discriminate.
    unfold fetchImages_catch, cache_filled. page_open st. split; assumption.
  - destruct (loadPromises (loader st) !! i) as [[| |] |] eqn:P; try discriminate.
    destruct (imagePaths (vars st) !! i) as [path |] eqn:Q.
    + destruct (img_onload_cache onFrameShown i w h now st path Q) as (A & B & _).
      destruct (img_onload_loader onFrameShown i w h now st path Q) as (_ & _ & C & _).
      unfold cache_filled. rewrite A, B, C. split.
      * intros key img K. destruct (decide (path = key)) as [<- | Ne].
        -- rewrite lookup_insert_eq in K. injection K as <-. reflexivity.
        -- rewrite lookup_insert_ne in K by exact Ne. exact (F1 _ _ K).
      * intros j p K J. destruct (decide (path = p)) as [<- | Ne].
        -- rewrite lookup_insert_eq. eauto.
        -- rewrite lookup_insert_ne by exact Ne.
           destruct (decide (i = j)) as [<- | Nj]; [congruence |].
           rewrite list_lookup_insert_ne in K by exact Nj. exact (F2 j p K J).
    + unfold img_onload. rewrite Q. split; assumption.
  - destruct (loadPromises (loader st) !! i) as [[| |] |] eqn:P; try discriminate.
    destruct (img_onerror_rest i st) as (A & B & C).
    unfold cache_filled. rewrite A, B, C. split; [exact F1 |].
    intros j p K J. destruct (decide (i = j)) as [<- | Nj].
    + rewrite list_lookup_insert_eq in K by (apply lookup_lt_Some in P; exact P).
      discriminate.
    + rewrite list_lookup_insert_ne in K by exact Nj. exact (F2 j p K J).
Qed.

Lemma handle_display (e : Event) (st : Page X) :
  invariant st -> loader_counts st -> cache_filled st ->
  (allLoaded (loader st) = Fulfilled -> displays_current st) ->
  enabled e st = true ->
  allLoaded (loader (handle ANIMATION_FPS onFrameShown e st)) = Fulfilled ->
  displays_current (handle ANIMATION_FPS onFrameShown e st).
Proof.
  intros I LC CF D En L'.
  pose proof (handle_invariant ANIMATION_FPS onFrameShown e st I En) as I'.
  pose proof (handle_loader_counts ANIMATION_FPS onFrameShown e st LC En) as LC'.
  pose proof (handle_cache_filled e st I CF En) as CF'.
  pose proof (cache_filled_complete _ CF' LC' (inv_settled _ I' L')) as CC'.
  pose proof (inv_loaded _ I' L') as S'.
  assert (Ctl : match e with
                | FrameCallback _ | ClickPlayPause _ | ClickPrev | ClickNext
                | ScrubberChange _ => True
                | _ => False
                end ->
                allLoaded (loader st) = Fulfilled ->
                displays_current (handle ANIMATION_FPS onFrameShown e st)).
  { intros He L. apply controls_display; try assumption.
    - exact (inv_loaded st I L).
    - exact (cache_filled_complete st CF LC (inv_settled st I L)).
    - exact (D L). }
  destruct e as [paths | | i w h now | i | now | now | | | v];
    try (apply (Ctl Logic.I);
         match type of L' with
         | context [handle _ _ ?e _] =>
             destruct (controls_keep_cache ANIMATION_FPS onFrameShown e st Logic.I)
               as (_ & _ & C)
         end;
         rewrite <- C; exact L');
    cbn [handle enabled] in *.
  - destruct (manifest (loader st)) eqn:M; try discriminate.
    destruct (fetch_invariant st I M) as (F & _). destruct (F paths) as [_ A]. congruence.
  - destruct (manifest (loader st)) eqn:M; try discriminate.
    destruct (fetch_invariant st I M) as (_ & _ & A). congruence.
  - destruct (loadPromises (loader st) !! i) as [[| |] |] eqn:P; try discriminate.
    destruct (pending_not_loaded st i I P) as (N & _).
    destruct (imagePaths (vars st) !! i) as [path |] eqn:Q;
      [| unfold img_onload in L'; rewrite Q in L'; contradiction].
    destruct (img_onload_display i w h now st path Q N L') as [Z0 G].
    destruct (img_onload_cache onFrameShown i w h now st path Q) as (A & B & _).
    destruct (array_get_inside (imagePaths (vars st)) 0) as (p0 & G0 & L0).
    { apply lookup_lt_Some in Q. lia. }
    destruct (CC' (Z.to_nat 0) p0) as (img & K & S); [rewrite A; exact L0 |].
    rewrite B in K. rewrite G0 in G. simpl in G. rewrite (object_get_own _ _ _ K) in G.
    exists p0. rewrite A, Z0. split; [exact G0 | rewrite G; simpl; rewrite S; reflexivity].
  - destruct (loadPromises (loader st) !! i) as [[| |] |] eqn:P; try discriminate.
    destruct (img_onerror_invariant i st I P) as [_ R]. congruence.
Qed.

Lemma session_display (es : list Event) (st st' : Page X) :
  invariant st -> loader_counts st -> cache_filled st ->
  (allLoaded (loader st) = Fulfilled -> displays_current st) ->
  session ANIMATION_FPS onFrameShown es st = Some st' ->
  loader_counts st' /\ cache_filled st'
  /\ (allLoaded (loader st') = Fulfilled -> displays_current st').
Proof.
  revert st. induction es as [| e es IH]; intros st I LC CF D H; simpl in H.
  - injection H as <-. auto.
  - unfold dispatch in H. destruct (enabled e st) eqn:En; [| discriminate].
    apply (IH (handle ANIMATION_FPS onFrameShown e st)); [| | | | exact H].
    + apply handle_invariant; assumption.
    + apply handle_loader_counts; assumption.
    + apply handle_cache_filled; assumption.
    + apply handle_display; assumption.
Qed.

End FrameOnDisplay.

(** X10.  In every state a session reaches once the load has completed,
    every frame of the manifest is in the cache as the image loaded from its
    path, and the image element shows the frame at [currentIndex]; from then
    on [displayFrame] at any valid index finds its frame and puts its path on
    display, so the branch that silently keeps the old picture is never
    taken. *)
Theorem X10_loaded_page_shows_current_frame :
  forall (X : Type) (ANIMATION_FPS : Q) (onFrameShown : Page X -> X) (x : X)
         (es : list Event) (st : Page X),
    session ANIMATION_FPS onFrameShown es (initialPage x) = Some st ->
    allLoaded (loader st) = Fulfilled ->
    cache_complete st
    /\ displays_current st
    /\ (forall index : Z,
          (0 <= index < frameCount st)%Z ->
          goesImage_src (dom (displayFrame onFrameShown index st))
          = array_get (imagePaths (vars st)) index).
Proof.
  intros X fps hook x es st Hs L.
  pose proof (session_invariant fps hook es _ st (invariant_initial x) Hs) as I.
  destruct (session_display fps hook es (initialPage x) st) as (LC & CF & D);
    try assumption.
  - apply invariant_initial.
  - repeat split.
  - split.
    + intros key img K. simpl in K. rewrite lookup_empty in K. discriminate.
    + intros i path K. simpl in K. rewrite lookup_nil in K. discriminate.
  - simpl. discriminate.
  - pose proof (cache_filled_complete st CF LC (inv_settled st I L)) as CC.
    split; [exact CC |]. split; [exact (D L) |].
    intros index Hi. apply displayFrame_shows; assumption.
Qed.

(** X10 after a step forward on the loaded page. *)
Lemma X10_witness :
  let st := Magnifier.handle ClickNext Scenario.lens in
  goesImage_src (dom st) = Some "b.png"%string
  /\ goesImage_src (dom (Magnifier.displayFrame 2 st)) = Some "c.png"%string.
Proof.
  intros st.
  destruct (X10_loaded_page_shows_current_frame Magnifier.Lens Magnifier.ANIMATION_FPS
              Magnifier.onFrameShown Magnifier.idle (Scenario.loadAll 0 ++ [ClickNext]) st)
    as (_ & (path & P & S) & F).
  - vm_compute. reflexivity.
  - vm_compute. reflexivity.
  - split.
    + rewrite S, <- P. vm_compute. reflexivity.
    + unfold Magnifier.displayFrame. rewrite F by (vm_compute; split; [discriminate | reflexivity]).
      vm_compute. reflexivity.
Defined.

(** ** Gestures: other pointers *)

Section OtherPointers.
Local Open Scope Q_scope.

Lemma fixed_gesture_app (ps qs : list FixedZoom.Pointer) (z : FixedZoom.Zoom) :
  FixedZoom.gesture (ps ++ qs) z = FixedZoom.gesture qs (FixedZoom.gesture ps z).
Proof. unfold FixedZoom.gesture. apply fold_left_app. Qed.

Lemma magnifier_gesture_app (ps qs : list Magnifier.Pointer) (st : Page Magnifier.Lens) :
  Magnifier.gesture (ps ++ qs) st = Magnifier.gesture qs (Magnifier.gesture ps st).
Proof. unfold Magnifier.gesture. apply fold_left_app. Qed.

Lemma fixed_other_pointer (id : Z) (p : FixedZoom.Pointer) (z : FixedZoom.Zoom) :
  FixedZoom.zoomActive z = true -> FixedZoom.zoomPointerId z = Some id ->
  pointerId (FixedZoom.event_of p) <> id ->
  FixedZoom.pointer p z = z.
Proof.
  intros Ha Hid Hp. apply Z.eqb_neq in Hp.
  destruct p as [b e | b e | e]; simpl in *.
  - unfold FixedZoom.onPointerDown, FixedZoom.startZoom. rewrite Ha.
    destruct (_ || _); reflexivity.
  - unfold FixedZoom.moveZoom. rewrite Ha, Hid. simpl. rewrite Hp. reflexivity.
  - unfold FixedZoom.endZoom. rewrite Ha, Hid. simpl. rewrite Hp. reflexivity.
Qed.

Lemma magnifier_other_pointer (id : Z) (p : Magnifier.Pointer) (st : Page Magnifier.Lens) :
  Magnifier.magnifierActive (ext st) = true -> Magnifier.activePointerId (ext st) = Some id ->
  pointerId (Magnifier.event_of p) <> id ->
  Magnifier.pointer p st = st.
Proof.
  intros Ha Hid Hp. apply Z.eqb_neq in Hp.
  destruct p as [ir cr e | ir cr e | e]; simpl in *.
  - unfold Magnifier.onPointerDown, Magnifier.showMagnifier. rewrite Ha.
    destruct (_ || _); reflexivity.
  - unfold Magnifier.updateMagnifier. rewrite Ha, Hid. simpl. rewrite Hp. reflexivity.
  - unfold Magnifier.hideMagnifier. rewrite Ha, Hid. simpl. rewrite Hp. reflexivity.
Qed.

End OtherPointers.

(** X11.  While a gesture is active in the fixed-point zoom or in the
    magnifier, the events of every other pointer are ignored altogether:
    whatever sequence of pointer-downs, moves and ups (or cancels) arrives
    from pointers other than the one that started the gesture, the state is
    exactly as before, so a second finger can neither move the zoom point or
    the lens nor end the gesture. *)
Theorem X11_other_pointers_are_ignored :
  (forall (id : Z) (ps : list FixedZoom.Pointer) (z : FixedZoom.Zoom),
      FixedZoom.zoomActive z = true -> FixedZoom.zoomPointerId z = Some id ->
      Forall (fun p => pointerId (FixedZoom.event_of p) <> id) ps ->
      FixedZoom.gesture ps z = z)
  /\ (forall (id : Z) (ps : list Magnifier.Pointer) (st : Page Magnifier.Lens),
        Magnifier.magnifierActive (ext st) = true ->
        Magnifier.activePointerId (ext st) = Some id ->
        Forall (fun p => pointerId (Magnifier.event_of p) <> id) ps ->
        Magnifier.gesture ps st = st).
Proof.
  split.
  - intros id ps z Ha Hid Hps. induction Hps as [| p ps Hp _ IH]; [reflexivity |].
    change (FixedZoom.gesture (p :: ps) z) with (FixedZoom.gesture ps (FixedZoom.pointer p z)).
    rewrite (fixed_other_pointer id p z Ha Hid Hp). exact IH.
  - intros id ps st Ha Hid Hps. induction Hps as [| p ps Hp _ IH]; [reflexivity |].
    change (Magnifier.gesture (p :: ps) st) with (Magnifier.gesture ps (Magnifier.pointer p st)).
    rewrite (magnifier_other_pointer id p st Ha Hid Hp). exact IH.
Qed.

(** X11 on a second finger (pointer 2) that goes down, moves and lifts while
    pointer 1 holds the gesture. *)
Lemma X11_witness :
  let zf := FixedZoom.onPointerDown (mkRect 0 0 400 300)
              (mkPointer 1 touch true 100 100) FixedZoom.idle in
  let sm := Magnifier.onPointerDown (mkRect 0 0 400 300) (mkRect 0 0 400 300)
              (mkPointer 1 touch true 100 100) Scenario.lens in
  FixedZoom.gesture
    [FixedZoom.Down (mkRect 0 0 400 300) (mkPointer 2 touch false 300 200);
     FixedZoom.Move (mkRect 0 0 400 300) (mkPointer 2 touch false 310 210);
     FixedZoom.Up (mkPointer 2 touch false 310 210)] zf = zf
  /\ Magnifier.gesture
       [Magnifier.Down (mkRect 0 0 400 300) (mkRect 0 0 400 300) (mkPointer 2 touch false 300 200);
        Magnifier.Move (mkRect 0 0 400 300) (mkRect 0 0 400 300) (mkPointer 2 touch false 310 210);
        Magnifier.Up (mkPointer 2 touch false 310 210)] sm = sm.
Proof.
  intros zf sm. destruct X11_other_pointers_are_ignored as [Hf Hm]. split.
  - apply (Hf 1%Z); [reflexivity | reflexivity |].
    repeat constructor; simpl; discriminate.
  - apply (Hm 1%Z); [vm_compute; reflexivity | vm_compute; reflexivity |].
    repeat constructor; simpl; discriminate.
Defined.

(** ** Gestures: from the pointer-down to the pointer-up *)

Section GestureLifecycle.
Local Open Scope Q_scope.

Lemma not_mouse_starts (e : PointerEvent) :
  pointerType e <> mouse ->
  PointerType_eqb (pointerType e) touch || PointerType_eqb (pointerType e) pen = true.
Proof. destruct (pointerType e); [contradiction | reflexivity | reflexivity]. Qed.

Lemma fixed_during (id : Z) (p : FixedZoom.Pointer) (z : FixedZoom.Zoom) :
  FixedZoom.zoomActive z = true -> FixedZoom.zoomPointerId z = Some id ->
  FixedZoom.transform z = Some FixedZoom.ZOOM_SCALE ->
  match p with FixedZoom.Up e => pointerId e <> id | _ => True end ->
  FixedZoom.zoomActive (FixedZoom.pointer p z) = true
  /\ FixedZoom.zoomPointerId (FixedZoom.pointer p z) = Some id
  /\ FixedZoom.captured (FixedZoom.pointer p z) = FixedZoom.captured z
  /\ FixedZoom.transform (FixedZoom.pointer p z) = Some FixedZoom.ZOOM_SCALE.
Proof.
  intros Ha Hid Ht Hp. destruct p as [b e | b e | e]; simpl.
  - unfold FixedZoom.onPointerDown, FixedZoom.startZoom. rewrite Ha.
    destruct (_ || _); repeat split; assumption.
  - unfold FixedZoom.moveZoom. rewrite Ha, Hid. simpl.
    destruct (pointerId e =? id)%Z; simpl; repeat split; assumption.
  - apply Z.eqb_neq in Hp. unfold FixedZoom.endZoom. rewrite Ha, Hid. simpl. rewrite Hp.
    simpl. repeat split; assumption.
Qed.

Lemma fixed_during_all (id : Z) (mid : list FixedZoom.Pointer) :
  Forall (fun p => match p with FixedZoom.Up e => pointerId e <> id | _ => True end) mid ->
  forall z : FixedZoom.Zoom,
    FixedZoom.zoomActive z = true -> FixedZoom.zoomPointerId z = Some id ->
    FixedZoom.transform z = Some FixedZoom.ZOOM_SCALE ->
    FixedZoom.zoomActive (FixedZoom.gesture mid z) = true
    /\ FixedZoom.zoomPointerId (FixedZoom.gesture mid z) = Some id
    /\ FixedZoom.captured (FixedZoom.gesture mid z) = FixedZoom.captured z
    /\ FixedZoom.transform (FixedZoom.gesture mid z) = Some FixedZoom.ZOOM_SCALE.
Proof.
  induction 1 as [| p mid Hp _ IH]; intros z Ha Hid Ht; [repeat split; assumption |].
  change (FixedZoom.gesture (p :: mid) z) with (FixedZoom.gesture mid (FixedZoom.pointer p z)).
  destruct (fixed_during id p z Ha Hid Ht Hp) as (A & B & C & D).
  destruct (IH _ A B D) as (A' & B' & C' & D'). rewrite C in C'. repeat split; assumption.
Qed.

Lemma moveMagnifier_keeps (imgRect containerRect : DOMRect) (x y : Q)
      (st : Page Magnifier.Lens) :
  let l := Magnifier.moveMagnifier imgRect containerRect x y st in
  Magnifier.magnifierActive l = Magnifier.magnifierActive (ext st)
  /\ Magnifier.activePointerId l = Magnifier.activePointerId (ext st)
  /\ Magnifier.captured l = Magnifier.captured (ext st)
  /\ Magnifier.display (Magnifier.style l) = Magnifier.display (Magnifier.style (ext st))
  /\ Magnifier.backgroundImage (Magnifier.style l)
     = Magnifier.backgroundImage (Magnifier.style (ext st)).
Proof.
  unfold Magnifier.moveMagnifier. destruct (_ || _); repeat split.
Qed.

Lemma updateMagnifierSource_keeps (st : Page Magnifier.Lens) :
  let l := Magnifier.updateMagnifierSource st in
  Magnifier.magnifierActive l = Magnifier.magnifierActive (ext st)
  /\ Magnifier.activePointerId l = Magnifier.activePointerId (ext st)
  /\ Magnifier.captured l = Magnifier.captured (ext st)
  /\ Magnifier.display (Magnifier.style l) = Magnifier.display (Magnifier.style (ext st)).
Proof.
  unfold Magnifier.updateMagnifierSource.
  destruct (array_get _ _) as [path |]; [| repeat split].
  destruct (String.eqb path ""); [repeat split |].
  destruct (_ && _); repeat split.
Qed.

(** The pointer listeners of the magnifier touch the lens only. *)
Lemma magnifier_pointer_page (p : Magnifier.Pointer) (st : Page Magnifier.Lens) :
  vars (Magnifier.pointer p st) = vars st /\ dom (Magnifier.pointer p st) = dom st
  /\ host (Magnifier.pointer p st) = host st /\ loader (Magnifier.pointer p st) = loader st.
Proof.
  destruct p as [ir cr e | ir cr e | e]; simpl.
  - unfold Magnifier.onPointerDown, Magnifier.showMagnifier.
    destruct (_ || _); [| repeat split].
    destruct (Magnifier.magnifierActive (ext st)); repeat split.
  - unfold Magnifier.updateMagnifier. destruct (_ || _); repeat split.
  - unfold Magnifier.hideMagnifier. destruct (_ || _); repeat split.
Qed.

Lemma magnifier_gesture_page (ps : list Magnifier.Pointer) (st : Page Magnifier.Lens) :
  vars (Magnifier.gesture ps st) = vars st /\ dom (Magnifier.gesture ps st) = dom st
  /\ host (Magnifier.gesture ps st) = host st /\ loader (Magnifier.gesture ps st) = loader st.
Proof.
  revert st. induction ps as [| p ps IH]; intros st; [repeat split |].
  change (Magnifier.gesture (p :: ps) st) with (Magnifier.gesture ps (Magnifier.pointer p st)).
  destruct (IH (Magnifier.pointer p st)) as (A & B & C & D).
  destruct (magnifier_pointer_page p st) as (A' & B' & C' & D').
  repeat split; congruence.
Qed.

Lemma showMagnifier_lens (ir cr : DOMRect) (e : PointerEvent) (st : Page Magnifier.Lens) :
  Magnifier.magnifierActive (ext st) = false ->
  let l := ext (Magnifier.showMagnifier ir cr e st) in
  Magnifier.magnifierActive l = true
  /\ Magnifier.activePointerId l = Some (pointerId e)
  /\ Magnifier.captured l = pointerId e :: Magnifier.captured (ext st)
  /\ Magnifier.display (Magnifier.style l) = true.
Proof.
  intros Ha. unfold Magnifier.showMagnifier. rewrite Ha. cbv zeta.
  match goal with
  | |- context [with_ext (Magnifier.moveMagnifier ir cr ?x ?y ?s) ?s] =>
      destruct (moveMagnifier_keeps ir cr x y s) as (A & B & C & D & _);
      set (s2 := s) in *
  end.
  cbn [ext with_ext]. rewrite A, B, C, D. subst s2. cbn [ext with_ext].
  match goal with
  | |- context [Magnifier.updateMagnifierSource ?s] =>
      destruct (updateMagnifierSource_keeps s) as (A' & B' & C' & _);
      set (l1 := Magnifier.updateMagnifierSource s) in *
  end.
  destruct l1 as [a i c nw nh sty]. cbn in *. subst. repeat split.
Qed.

Lemma magnifier_during (id : Z) (p : Magnifier.Pointer) (st : Page Magnifier.Lens) :
  Magnifier.magnifierActive (ext st) = true ->
  Magnifier.activePointerId (ext st) = Some id ->
  Magnifier.display (Magnifier.style (ext st)) = true ->
  match p with Magnifier.Up e => pointerId e <> id | _ => True end ->
  let st' := Magnifier.pointer p st in
  Magnifier.magnifierActive (ext st') = true
  /\ Magnifier.activePointerId (ext st') = Some id
  /\ Magnifier.captured (ext st') = Magnifier.captured (ext st)
  /\ Magnifier.display (Magnifier.style (ext st')) = true.
Proof.
  intros Ha Hid Hd Hp. destruct p as [ir cr e | ir cr e | e]; simpl.
  - unfold Magnifier.onPointerDown, Magnifier.showMagnifier. rewrite Ha.
    destruct (_ || _); repeat split; assumption.
  - unfold Magnifier.updateMagnifier. rewrite Ha, Hid. simpl.
    destruct (pointerId e =? id)%Z; simpl; [| repeat split; assumption].
    destruct (moveMagnifier_keeps ir cr (clientX e) (clientY e) st) as (A & B & C & D & _).
    rewrite A, B, C, D. repeat split; assumption.
  - apply Z.eqb_neq in Hp. unfold Magnifier.hideMagnifier. rewrite Ha, Hid. simpl.
    rewrite Hp. simpl. repeat split; assumption.
Qed.

Lemma magnifier_during_all (id : Z) (mid : list Magnifier.Pointer) :
  Forall (fun p => match p with Magnifier.Up e => pointerId e <> id | _ => True end) mid ->
  forall st : Page Magnifier.Lens,
    Magnifier.magnifierActive (ext st) = true ->
    Magnifier.activePointerId (ext st) = Some id ->
    Magnifier.display (Magnifier.style (ext st)) = true ->
    let st' := Magnifier.gesture mid st in
    Magnifier.magnifierActive (ext st') = true
    /\ Magnifier.activePointerId (ext st') = Some id
    /\ Magnifier.captured (ext st') = Magnifier.captured (ext st)
    /\ Magnifier.display (Magnifier.style (ext st')) = true.
Proof.
  induction 1 as [| p mid Hp _ IH]; intros st Ha Hid Hd; [repeat split; assumption |].
  change (Magnifier.gesture (p :: mid) st) with (Magnifier.gesture mid (Magnifier.pointer p st)).
  destruct (magnifier_during id p st Ha Hid Hd Hp) as (A & B & C & D).
  destruct (IH _ A B D) as (A' & B' & C' & D'). rewrite C in C'. repeat split; assumption.
Qed.

End GestureLifecycle.

(** X12.  A gesture of the fixed-point zoom or of the magnifier always ends
    clean.  A touch or pen pointer-down on an inactive state starts it; as
    long as the pointer that started it has not lifted, whatever else
    arrives (its own moves, events of other pointers), the gesture stays
    active and owned by that pointer, zoomed at [ZOOM_SCALE] or with the lens
    displayed; the pointer-up (or cancel) of that pointer ends it: the flag
    is cleared, the pointer id forgotten and the capture released.  The
    fixed-point zoom is left with the inline transform scale(1) and a cleared
    origin; the magnifier is left with the lens hidden, and the whole gesture
    has not touched the player's variables, the image or the controls. *)
Theorem X12_gesture_ends_clean :
  (forall (bounding : DOMRect) (d : PointerEvent) (mid : list FixedZoom.Pointer)
          (u : PointerEvent) (z : FixedZoom.Zoom),
      FixedZoom.zoomActive z = false ->
      pointerType d <> mouse ->
      Forall (fun p => match p with
                       | FixedZoom.Up e => pointerId e <> pointerId d
                       | _ => True
                       end) mid ->
      pointerId u = pointerId d ->
      let during := FixedZoom.gesture (FixedZoom.Down bounding d :: mid) z in
      (FixedZoom.zoomActive during = true
       /\ FixedZoom.zoomPointerId during = Some (pointerId d)
       /\ FixedZoom.transform during = Some FixedZoom.ZOOM_SCALE)
      /\ FixedZoom.gesture (FixedZoom.Down bounding d :: mid ++ [FixedZoom.Up u]) z
         = FixedZoom.mkZoom false None
             (releasePointerCapture (pointerId d) (pointerId d :: FixedZoom.captured z))
             None (Some 1%Q))
  /\ (forall (imgRect containerRect : DOMRect) (d : PointerEvent)
             (mid : list Magnifier.Pointer) (u : PointerEvent) (st : Page Magnifier.Lens),
        Magnifier.magnifierActive (ext st) = false ->
        pointerType d <> mouse ->
        Forall (fun p => match p with
                         | Magnifier.Up e => pointerId e <> pointerId d
                         | _ => True
                         end) mid ->
        pointerId u = pointerId d ->
        let during := Magnifier.gesture (Magnifier.Down imgRect containerRect d :: mid) st in
        let after :=
          Magnifier.gesture (Magnifier.Down imgRect containerRect d :: mid ++ [Magnifier.Up u])
            st in
        (Magnifier.magnifierActive (ext during) = true
         /\ Magnifier.activePointerId (ext during) = Some (pointerId d)
         /\ Magnifier.display (Magnifier.style (ext during)) = true)
        /\ (Magnifier.magnifierActive (ext after) = false
            /\ Magnifier.activePointerId (ext after) = None
            /\ Magnifier.display (Magnifier.style (ext after)) = false
            /\ Magnifier.captured (ext after)
               = releasePointerCapture (pointerId d)
                   (pointerId d :: Magnifier.captured (ext st)))
        /\ (vars after = vars st /\ dom after = dom st
            /\ host after = host st /\ loader after = loader st)).
Proof.
  split.
  - intros bounding d mid u z Hz Hd Hmid Hu during. subst during.
    set (z1 := FixedZoom.pointer (FixedZoom.Down bounding d) z).
    assert (S1 : FixedZoom.zoomActive z1 = true
                 /\ FixedZoom.zoomPointerId z1 = Some (pointerId d)
                 /\ FixedZoom.captured z1 = pointerId d :: FixedZoom.captured z
                 /\ FixedZoom.transform z1 = Some FixedZoom.ZOOM_SCALE).
    { subst z1. simpl. unfold FixedZoom.onPointerDown. rewrite (not_mouse_starts d Hd).
      unfold FixedZoom.startZoom. rewrite Hz. repeat split. }
    destruct S1 as (A1 & B1 & C1 & D1).
    destruct (fixed_during_all (pointerId d) mid Hmid z1 A1 B1 D1) as (A & B & C & D).
    change (FixedZoom.gesture (FixedZoom.Down bounding d :: mid) z)
      with (FixedZoom.gesture mid z1).
    split; [repeat split; assumption |].
    change (FixedZoom.gesture (FixedZoom.Down bounding d :: mid ++ [FixedZoom.Up u]) z)
      with (FixedZoom.gesture (mid ++ [FixedZoom.Up u]) z1).
    rewrite fixed_gesture_app.
    change (FixedZoom.gesture [FixedZoom.Up u] (FixedZoom.gesture mid z1))
      with (FixedZoom.endZoom u (FixedZoom.gesture mid z1)).
    unfold FixedZoom.endZoom. rewrite A, B. simpl. rewrite Hu, Z.eqb_refl. simpl.
    rewrite C, C1. simpl. rewrite Z.eqb_refl. reflexivity.
  - intros ir cr d mid u st Hz Hd Hmid Hu during after. subst during after.
    set (st1 := Magnifier.pointer (Magnifier.Down ir cr d) st).
    assert (S1 : Magnifier.magnifierActive (ext st1) = true
                 /\ Magnifier.activePointerId (ext st1) = Some (pointerId d)
                 /\ Magnifier.captured (ext st1) = pointerId d :: Magnifier.captured (ext st)
                 /\ Magnifier.display (Magnifier.style (ext st1)) = true).
    { subst st1. simpl. unfold Magnifier.onPointerDown. rewrite (not_mouse_starts d Hd).
      apply showMagnifier_lens. exact Hz. }
    destruct S1 as (A1 & B1 & C1 & D1).
    destruct (magnifier_during_all (pointerId d) mid Hmid st1 A1 B1 D1) as (A & B & C & D).
    change (Magnifier.gesture (Magnifier.Down ir cr d :: mid) st)
      with (Magnifier.gesture mid st1).
    split; [repeat split; assumption |].
    split.
    + change (Magnifier.gesture (Magnifier.Down ir cr d :: mid ++ [Magnifier.Up u]) st)
        with (Magnifier.gesture (mid ++ [Magnifier.Up u]) st1).
      rewrite magnifier_gesture_app.
      change (Magnifier.gesture [Magnifier.Up u] (Magnifier.gesture mid st1))
        with (Magnifier.hideMagnifier u (Magnifier.gesture mid st1)).
      unfold Magnifier.hideMagnifier. rewrite A, B. simpl. rewrite Hu, Z.eqb_refl. simpl.
      rewrite C, C1. simpl. rewrite Z.eqb_refl. repeat split.
    + apply magnifier_gesture_page.
Qed.

(** X12 on a gesture of pointer 1 during which pointer 2 goes down and
    lifts. *)
Lemma X12_witness :
  FixedZoom.gesture
    (FixedZoom.Down (mkRect 0 0 400 300) (mkPointer 1 touch true 100 100)
       :: [FixedZoom.Move (mkRect 0 0 400 300) (mkPointer 1 touch true 120 90);
           FixedZoom.Down (mkRect 0 0 400 300) (mkPointer 2 touch false 300 200);
           FixedZoom.Up (mkPointer 2 touch false 300 200)]
       ++ [FixedZoom.Up (mkPointer 1 touch true 120 90)]) FixedZoom.idle
  = FixedZoom.mkZoom false None [] None (Some 1%Q)
  /\ Magnifier.display
       (Magnifier.style
          (ext (Magnifier.gesture
                  (Magnifier.Down (mkRect 0 0 400 300) (mkRect 0 0 400 300)
                     (mkPointer 1 pen true 100 100)
                     :: [Magnifier.Up (mkPointer 2 touch false 300 200)]
                     ++ [Magnifier.Up (mkPointer 1 pen true 100 100)]) Scenario.lens)))
     = false.
Proof.
  destruct X12_gesture_ends_clean as [Hf Hm]. split.
  - rewrite (proj2 (Hf (mkRect 0 0 400 300) (mkPointer 1 touch true 100 100)
                      [FixedZoom.Move (mkRect 0 0 400 300) (mkPointer 1 touch true 120 90);
                       FixedZoom.Down (mkRect 0 0 400 300) (mkPointer 2 touch false 300 200);
                       FixedZoom.Up (mkPointer 2 touch false 300 200)]
                      (mkPointer 1 touch true 120 90) FixedZoom.idle
                      eq_refl ltac:(discriminate)
                      ltac:(repeat constructor; simpl; discriminate) eq_refl)).
    vm_compute. reflexivity.
  - apply (Hm (mkRect 0 0 400 300) (mkRect 0 0 400 300) (mkPointer 1 pen true 100 100)
              [Magnifier.Up (mkPointer 2 touch false 300 200)]
              (mkPointer 1 pen true 100 100) Scenario.lens).
    + vm_compute. reflexivity.
    + discriminate.
    + repeat constructor; simpl; discriminate.
    + reflexivity.
Defined.

(** ** Clamped-origin zoom: the end of a gesture *)

Lemma clamped_down_captured (bounding : DOMRect) (event : PointerEvent)
      (z : ClampedZoom.Zoom) :
  isPrimary event = true ->
  ClampedZoom.captured (ClampedZoom.handlePointerDown bounding event z)
  = pointerId event :: ClampedZoom.captured z.
Proof.
  intros Hp. unfold ClampedZoom.handlePointerDown. rewrite Hp. reflexivity.
Qed.

(** X13.  Under the clamped-origin zoom a gesture that a primary pointer
    starts, followed by any pointer-moves, is ended by the next pointer-up
    (or cancel) of any pointer, since the handler compares no pointer id: the
    flag and the snapshot are cleared, the inline transform and origin are
    removed, and the capture of the pointer that lifted is released.  From
    the idle state, a pointer-up of the pointer that started the gesture
    returns to the idle state exactly; a pointer-up of another pointer ends
    the gesture all the same and leaves the first pointer captured. *)
Theorem X13_clamped_gesture_round_trip :
  forall (bounding : DOMRect) (down : PointerEvent) (ms : list (DOMRect * PointerEvent))
         (up : PointerEvent) (z : ClampedZoom.Zoom),
    isPrimary down = true ->
    let ps := ClampedZoom.Down bounding down :: ClampedZoom.moves ms ++ [ClampedZoom.Up up] in
    ClampedZoom.gesture ps z
    = ClampedZoom.mkZoom false None
        (releasePointerCapture (pointerId up) (pointerId down :: ClampedZoom.captured z))
        None None
    /\ (pointerId up = pointerId down -> ClampedZoom.gesture ps ClampedZoom.idle = ClampedZoom.idle)
    /\ (pointerId up <> pointerId down ->
        ClampedZoom.isZooming (ClampedZoom.gesture ps ClampedZoom.idle) = false
        /\ ClampedZoom.captured (ClampedZoom.gesture ps ClampedZoom.idle) = [pointerId down]).
Proof.
  intros bounding down ms up z Hp ps.
  assert (G : forall z0 : ClampedZoom.Zoom,
             ClampedZoom.gesture ps z0
             = ClampedZoom.mkZoom false None
                 (releasePointerCapture (pointerId up)
                    (pointerId down :: ClampedZoom.captured z0)) None None).
  { intros z0. subst ps.
    change (ClampedZoom.Down bounding down :: ClampedZoom.moves ms ++ [ClampedZoom.Up up])
      with ([ClampedZoom.Down bounding down] ++ ClampedZoom.moves ms ++ [ClampedZoom.Up up]).
    rewrite !clamped_gesture_app.
    change (ClampedZoom.gesture [ClampedZoom.Down bounding down] z0)
      with (ClampedZoom.handlePointerDown bounding down z0).
    destruct (clamped_down_snapshot bounding down z0 Hp) as [_ Ha].
    pose proof (clamped_down_captured bounding down z0 Hp) as Hc.
    destruct (clamped_moves_keep_snapshot ms (ClampedZoom.handlePointerDown bounding down z0))
      as (_ & Ka & Kc).
    rewrite Ha in Ka. rewrite Hc in Kc.
    set (z1 := ClampedZoom.gesture (ClampedZoom.moves ms)
                 (ClampedZoom.handlePointerDown bounding down z0)) in *.
    change (ClampedZoom.gesture [ClampedZoom.Up up] z1)
      with (ClampedZoom.handlePointerUp up z1).
    unfold ClampedZoom.handlePointerUp, ClampedZoom.resetZoom. rewrite Ka.
    cbn [negb ClampedZoom.isZooming ClampedZoom.imageRectCache ClampedZoom.captured
         ClampedZoom.transformOrigin ClampedZoom.transform].
    rewrite Kc. reflexivity. }
  split; [apply G |]. split.
  - intros E. rewrite G, E. unfold ClampedZoom.idle. simpl. rewrite Z.eqb_refl. reflexivity.
  - intros N. rewrite G. simpl. apply not_eq_sym in N. apply Z.eqb_neq in N. rewrite N.
    split; reflexivity.
Qed.

(** X13 on a gesture of pointer 1 that the lifting of pointer 2 ends. *)
Lemma X13_witness :
  ClampedZoom.gesture
    (ClampedZoom.Down (mkRect 0 0 400 300) (mkPointer 1 touch true 100 100)
       :: ClampedZoom.moves [(mkRect 0 0 400 300, mkPointer 1 touch true 120 110)]
       ++ [ClampedZoom.Up (mkPointer 1 touch true 120 110)]) ClampedZoom.idle
  = ClampedZoom.idle
  /\ ClampedZoom.captured
       (ClampedZoom.gesture
          (ClampedZoom.Down (mkRect 0 0 400 300) (mkPointer 1 touch true 100 100)
             :: ClampedZoom.moves [(mkRect 0 0 400 300, mkPointer 1 touch true 120 110)]
             ++ [ClampedZoom.Up (mkPointer 2 touch false 300 200)]) ClampedZoom.idle)
     = [1%Z].
Proof.
  split.
  - apply (X13_clamped_gesture_round_trip (mkRect 0 0 400 300) (mkPointer 1 touch true 100 100)
             [(mkRect 0 0 400 300, mkPointer 1 touch true 120 110)]
             (mkPointer 1 touch true 120 110) ClampedZoom.idle); reflexivity.
  - apply (X13_clamped_gesture_round_trip (mkRect 0 0 400 300) (mkPointer 1 touch true 100 100)
             [(mkRect 0 0 400 300, mkPointer 1 touch true 120 110)]
             (mkPointer 2 touch false 300 200) ClampedZoom.idle); [reflexivity | discriminate].
Defined.

(** ** Input that starts nothing *)

Section InertInput.
Local Open Scope Q_scope.

Lemma fixed_inert (p : FixedZoom.Pointer) (z : FixedZoom.Zoom) :
  FixedZoom.zoomActive z = false ->
  match p with FixedZoom.Down _ e => pointerType e = mouse | _ => True end ->
  FixedZoom.pointer p z = z.
Proof.
  intros Ha Hp. destruct p as [b e | b e | e]; simpl.
  - unfold FixedZoom.onPointerDown. rewrite Hp. reflexivity.
  - unfold FixedZoom.moveZoom. rewrite Ha. reflexivity.
  - unfold FixedZoom.endZoom. rewrite Ha. reflexivity.
Qed.

Lemma magnifier_inert (p : Magnifier.Pointer) (st : Page Magnifier.Lens) :
  Magnifier.magnifierActive (ext st) = false ->
  match p with Magnifier.Down _ _ e => pointerType e = mouse | _ => True end ->
  Magnifier.pointer p st = st.
Proof.
  intros Ha Hp. destruct p as [ir cr e | ir cr e | e]; simpl.
  - unfold Magnifier.onPointerDown. rewrite Hp. reflexivity.
  - unfold Magnifier.updateMagnifier. rewrite Ha. reflexivity.
  - unfold Magnifier.hideMagnifier. rewrite Ha. reflexivity.
Qed.

Lemma clamped_inert (p : ClampedZoom.Pointer) (z : ClampedZoom.Zoom) :
  ClampedZoom.isZooming z = false ->
  match p with ClampedZoom.Down _ e => isPrimary e = false | _ => True end ->
  ClampedZoom.pointer p z = z.
Proof.
  intros Ha Hp. destruct p as [b e | b e | e]; simpl.
  - unfold ClampedZoom.handlePointerDown. rewrite Hp. reflexivity.
  - unfold ClampedZoom.handlePointerMove. rewrite Ha. reflexivity.
  - unfold ClampedZoom.handlePointerUp. rewrite Ha. reflexivity.
Qed.

End InertInput.

(** X14.  Input that starts nothing changes nothing.  While no gesture is
    active, the fixed-point zoom and the magnifier ignore every sequence of
    pointer events whose pointer-downs all come from a mouse: a mouse never
    zooms, and moves and ups without a gesture do nothing.  The
    clamped-origin zoom, which accepts the mouse, likewise ignores every
    sequence whose pointer-downs all come from non-primary pointers. *)
Theorem X14_input_without_gesture_is_inert :
  (forall (ps : list FixedZoom.Pointer) (z : FixedZoom.Zoom),
      FixedZoom.zoomActive z = false ->
      Forall (fun p => match p with
                       | FixedZoom.Down _ e => pointerType e = mouse
                       | _ => True
                       end) ps ->
      FixedZoom.gesture ps z = z)
  /\ (forall (ps : list Magnifier.Pointer) (st : Page Magnifier.Lens),
        Magnifier.magnifierActive (ext st) = false ->
        Forall (fun p => match p with
                         | Magnifier.Down _ _ e => pointerType e = mouse
                         | _ => True
                         end) ps ->
        Magnifier.gesture ps st = st)
  /\ (forall (ps : list ClampedZoom.Pointer) (z : ClampedZoom.Zoom),
        ClampedZoom.isZooming z = false ->
        Forall (fun p => match p with
                         | ClampedZoom.Down _ e => isPrimary e = false
                         | _ => True
                         end) ps ->
        ClampedZoom.gesture ps z = z).
Proof.
  split; [| split].
  - intros ps z Ha Hps. induction Hps as [| p ps Hp _ IH]; [reflexivity |].
    change (FixedZoom.gesture (p :: ps) z) with (FixedZoom.gesture ps (FixedZoom.pointer p z)).
    rewrite (fixed_inert p z Ha Hp). exact IH.
  - intros ps st Ha Hps. induction Hps as [| p ps Hp _ IH]; [reflexivity |].
    change (Magnifier.gesture (p :: ps) st) with (Magnifier.gesture ps (Magnifier.pointer p st)).
    rewrite (magnifier_inert p st Ha Hp). exact IH.
  - intros ps z Ha Hps. induction Hps as [| p ps Hp _ IH]; [reflexivity |].
    change (ClampedZoom.gesture (p :: ps) z)
      with (ClampedZoom.gesture ps (ClampedZoom.pointer p z)).
    rewrite (clamped_inert p z Ha Hp). exact IH.
Qed.

(** X14 on a mouse that presses, drags and releases over the image. *)
Lemma X14_witness :
  FixedZoom.gesture
    [FixedZoom.Down (mkRect 0 0 400 300) (mkPointer 1 mouse true 100 100);
     FixedZoom.Move (mkRect 0 0 400 300) (mkPointer 1 mouse true 150 120);
     FixedZoom.Up (mkPointer 1 mouse true 150 120)] FixedZoom.idle = FixedZoom.idle
  /\ Magnifier.gesture
       [Magnifier.Down (mkRect 0 0 400 300) (mkRect 0 0 400 300) (mkPointer 1 mouse true 100 100);
        Magnifier.Move (mkRect 0 0 400 300) (mkRect 0 0 400 300) (mkPointer 1 mouse true 150 120);
        Magnifier.Up (mkPointer 1 mouse true 150 120)] Scenario.lens = Scenario.lens
  /\ ClampedZoom.gesture
       [ClampedZoom.Move (mkRect 0 0 400 300) (mkPointer 1 mouse true 150 120);
        ClampedZoom.Down (mkRect 0 0 400 300) (mkPointer 2 touch false 100 100);
        ClampedZoom.Up (mkPointer 2 touch false 100 100)] ClampedZoom.idle = ClampedZoom.idle.
Proof.
  destruct X14_input_without_gesture_is_inert as (Hf & Hm & Hc).
  split; [| split].
  - apply Hf; [reflexivity | repeat constructor].
  - apply Hm; [vm_compute; reflexivity | repeat constructor].
  - apply Hc; [reflexivity | repeat constructor].
Defined.

(** ** The player and the zoom do not interfere *)

Section PlayerKeepsZoom.
Context {X : Type}.
Variable ANIMATION_FPS : Q.
Variable onFrameShown : Page X -> X.
Variable P : X -> Prop.
Hypothesis onFrameShown_keeps : forall s : Page X, P (ext s) -> P (onFrameShown s).

Lemma updateUI_ext (index : Z) (st : Page X) :
  P (ext st) -> P (ext (updateUI onFrameShown index st)).
Proof.
  intros H. unfold updateUI, displayFrame.
  destruct (object_get _ _); [| exact H]. cbn [ext with_ext]. apply onFrameShown_keeps.
  exact H.
Qed.

Lemma stopAnimation_ext (st : Page X) : ext (stopAnimation st) = ext st.
Proof. unfold stopAnimation. page_open st. page_cases; reflexivity. Qed.

Lemma togglePlayPause_ext (now : Q) (st : Page X) : ext (togglePlayPause now st) = ext st.
Proof.
  unfold togglePlayPause, stopAnimation, startAnimation. page_open st. page_cases; reflexivity.
Qed.

Lemma runAnimationLoop_ext (now : Q) (st : Page X) :
  P (ext st) -> P (ext (runAnimationLoop ANIMATION_FPS onFrameShown now st)).
Proof.
  intros H. unfold runAnimationLoop.
  destruct (negb (isPlaying (vars st))); [exact H |].
  destruct (js_ge _ _); [| exact H].
  unfold requestAnimationFrame. cbn [ext with_vars with_host]. apply updateUI_ext. exact H.
Qed.

Lemma animationFrame_ext (now : Q) (st : Page X) :
  P (ext st) -> P (ext (animationFrame ANIMATION_FPS onFrameShown now st)).
Proof.
  intros H. unfold animationFrame. cbv zeta.
  generalize (raf_pending (host st)). intros l.
  set (st1 := with_host _ st).
  assert (H1 : P (ext st1)) by exact H.
  clearbody st1. clear H. revert st1 H1.
  induction l as [| id due IH]; intros st1 H1; [exact H1 |].
  cbn [fold_left]. apply IH. apply runAnimationLoop_ext. exact H1.
Qed.

Lemma with_vars_ext (f : Vars -> Vars) (st : Page X) : ext (with_vars f st) = ext st.
Proof. reflexivity. Qed.

Lemma loadAllImages_then_ext (now : Q) (st : Page X) :
  P (ext st) -> P (ext (loadAllImages_then onFrameShown now st)).
Proof.
  intros H. unfold loadAllImages_then. rewrite togglePlayPause_ext, with_vars_ext.
  apply updateUI_ext. exact H.
Qed.

Lemma img_onload_ext (i : nat) (w h now : Q) (st : Page X) :
  P (ext st) -> P (ext (img_onload onFrameShown i w h now st)).
Proof.
  intros H. unfold img_onload. destruct (_ !! i) as [path |]; [| exact H].
  match goal with |- context [if ?c then _ else _] => destruct c end; [| exact H].
  apply loadAllImages_then_ext. exact H.
Qed.

(** Whatever property of the zoom or lens state [onFrameShown] keeps, every
    handler of the player keeps. *)
Lemma handle_ext (e : Event) (st : Page X) :
  P (ext st) -> P (ext (handle ANIMATION_FPS onFrameShown e st)).
Proof.
  intros H. destruct e as [paths | | i w h now | i | now | now | | | v]; simpl.
  - unfold fetchImages_then, loadAllImages. page_open st. page_cases; exact H.
  - exact H.
  - apply img_onload_ext. exact H.
  - unfold img_onerror, loadAllImages_catch. page_open st. page_cases; exact H.
  - apply animationFrame_ext. exact H.
  - rewrite togglePlayPause_ext. exact H.
  - unfold prevFrame. apply updateUI_ext. rewrite stopAnimation_ext. exact H.
  - unfold nextFrame. apply updateUI_ext. rewrite stopAnimation_ext. exact H.
  - unfold handleScrubberInput. apply updateUI_ext. rewrite stopAnimation_ext. exact H.
Qed.

End PlayerKeepsZoom.

Lemma onFrameShown_keeps_lens (l : Magnifier.Lens) (s : Page Magnifier.Lens) :
  Magnifier.magnifierActive (ext s) = Magnifier.magnifierActive l
  /\ Magnifier.activePointerId (ext s) = Magnifier.activePointerId l
  /\ Magnifier.captured (ext s) = Magnifier.captured l
  /\ Magnifier.display (Magnifier.style (ext s)) = Magnifier.display (Magnifier.style l) ->
  Magnifier.magnifierActive (Magnifier.onFrameShown s) = Magnifier.magnifierActive l
  /\ Magnifier.activePointerId (Magnifier.onFrameShown s) = Magnifier.activePointerId l
  /\ Magnifier.captured (Magnifier.onFrameShown s) = Magnifier.captured l
  /\ Magnifier.display (Magnifier.style (Magnifier.onFrameShown s))
     = Magnifier.display (Magnifier.style l).
Proof.
  intros (A & B & C & D). unfold Magnifier.onFrameShown.
  destruct (Magnifier.magnifierActive (ext s)) eqn:E; [| repeat split; congruence].
  destruct (updateMagnifierSource_keeps s) as (A' & B' & C' & D').
  repeat split; congruence.
Qed.

(** The handlers of the player keep the gesture of the lens, and keep an
    inactive lens altogether. *)
Lemma magnifier_handle_keeps (e : Event) (st : Page Magnifier.Lens) :
  let l := ext st in
  let l' := ext (Magnifier.handle e st) in
  Magnifier.magnifierActive l' = Magnifier.magnifierActive l
  /\ Magnifier.activePointerId l' = Magnifier.activePointerId l
  /\ Magnifier.captured l' = Magnifier.captured l
  /\ Magnifier.display (Magnifier.style l') = Magnifier.display (Magnifier.style l)
  /\ (Magnifier.magnifierActive l = false -> l' = l).
Proof.
  intros l l'. subst l l'. unfold Magnifier.handle.
  pose proof (handle_ext Magnifier.ANIMATION_FPS Magnifier.onFrameShown
                (fun x => Magnifier.magnifierActive x = Magnifier.magnifierActive (ext st)
                          /\ Magnifier.activePointerId x = Magnifier.activePointerId (ext st)
                          /\ Magnifier.captured x = Magnifier.captured (ext st)
                          /\ Magnifier.display (Magnifier.style x)
                             = Magnifier.display (Magnifier.style (ext st)))
                (onFrameShown_keeps_lens (ext st)) e st) as K.
  destruct K as (A & B & C & D); [repeat split |].
  split; [exact A |]. split; [exact B |]. split; [exact C |]. split; [exact D |].
  intros Hi.
  apply (handle_ext Magnifier.ANIMATION_FPS Magnifier.onFrameShown (fun x => x = ext st));
    [| reflexivity].
  intros s H. unfold Magnifier.onFrameShown. rewrite H, Hi. reflexivity.
Qed.

(** X15.  The player and the zoom do not interfere.  In the plain player and
    in the two zooming scripts no handler of the player (loading, frame
    callback, play/pause, stepping, seeking) changes the zoom state.  In the
    magnifier script no handler of the player changes whether the lens is
    active, which pointer owns it, what is captured or whether the lens is
    displayed, and while the lens is inactive it changes nothing of the lens
    at all.  Conversely, no sequence of pointer events on the magnifier
    changes the player's variables, the page elements of the player, the
    scheduled frame callbacks or the loader: a gesture never pauses, seeks
    or restarts the playback. *)
Theorem X15_player_and_zoom_do_not_interfere :
  (forall (X : Type) (ANIMATION_FPS : Q) (e : Event) (st : Page X),
      ext (handle ANIMATION_FPS ext e st) = ext st)
  /\ (forall (e : Event) (st : Page Magnifier.Lens),
        let l := ext st in
        let l' := ext (Magnifier.handle e st) in
        Magnifier.magnifierActive l' = Magnifier.magnifierActive l
        /\ Magnifier.activePointerId l' = Magnifier.activePointerId l
        /\ Magnifier.captured l' = Magnifier.captured l
        /\ Magnifier.display (Magnifier.style l') = Magnifier.display (Magnifier.style l)
        /\ (Magnifier.magnifierActive l = false -> l' = l))
  /\ (forall (ps : list Magnifier.Pointer) (st : Page Magnifier.Lens),
        vars (Magnifier.gesture ps st) = vars st
        /\ dom (Magnifier.gesture ps st) = dom st
        /\ host (Magnifier.gesture ps st) = host st
        /\ loader (Magnifier.gesture ps st) = loader st).
Proof.
  split; [| split].
  - intros X fps e st.
    apply (handle_ext fps ext (fun x => x = ext st)); [| reflexivity].
    intros s H. exact H.
  - intros e st. apply magnifier_handle_keeps.
  - intros ps st. apply magnifier_gesture_page.
Qed.

(** ** The lens follows the playback *)


Section PageOfLens.
Context {X : Type}.



End PageOfLens.

Section LensFollows.
Local Open Scope Q_scope.

















End LensFollows.



(** ** The animation loop: no advance comes early *)

Section NeverEarly.
Context {X : Type}.
Variable ANIMATION_FPS : Q.
Variable onFrameShown : Page X -> X.
Variable interval : Q.
Hypothesis interval_positive : (0 < interval)%Q.
Hypothesis interval_value : FRAME_INTERVAL_MS ANIMATION_FPS = Fin interval.
Local Open Scope Q_scope.

Lemma within_bound (limit : Q) (times : list Q) (t : Q) :
  within limit times = true -> In t times -> t <= limit.
Proof.
  unfold within. rewrite forallb_forall. intros H I. apply Qle_bool_iff. exact (H t I).
Qed.

(** Ticking at arbitrary times: the frame on display is the one the number
    of advances gives. *)
Lemma ticking_frames (times : list Q) :
  forall st : Page X,
    isPlaying (vars st) = true ->
    (exists id, raf_pending (host st) = [id]) ->
    let st' := ticking ANIMATION_FPS onFrameShown times st in
    let k := advances ANIMATION_FPS onFrameShown times st in
    currentIndex (vars st') = frameAfter (frameCount st) (currentIndex (vars st)) k.
Proof.
  induction times as [| t times IH]; intros st Hp Hq st' k; subst st' k; [reflexivity |].
  destruct (animationFrame_playing ANIMATION_FPS onFrameShown t st Hp Hq)
    as (P' & F' & Q' & Hadv & Hno).
  set (st1 := animationFrame ANIMATION_FPS onFrameShown t st) in *.
  change (ticking ANIMATION_FPS onFrameShown (t :: times) st)
    with (ticking ANIMATION_FPS onFrameShown times st1).
  change (advances ANIMATION_FPS onFrameShown (t :: times) st)
    with ((if advancesAt ANIMATION_FPS t st then 1 else 0)
          + advances ANIMATION_FPS onFrameShown times st1)%nat.
  pose proof (IH st1 P' Q') as A1. cbv zeta in A1.
  destruct (js_ge (js_sub t (lastFrameTime (vars st)))
                  (currentFrameInterval ANIMATION_FPS st)).
  - destruct (Hadv eq_refl) as (E1 & _ & E3). rewrite E3.
    rewrite E1, F' in A1. cbn [Nat.add frameAfter]. exact A1.
  - destruct (Hno eq_refl) as (E1 & _ & E3). rewrite E3.
    rewrite E1, F' in A1. cbn [Nat.add]. exact A1.
Qed.

(** Ticking at arbitrary times on which the engine's subtractions are exact:
    the advances have taken at least the dwells of the frames they have
    left. *)
Lemma ticking_dwells (times : list Q) :
  forall st : Page X,
    isPlaying (vars st) = true ->
    (exists id, raf_pending (host st) = [id]) ->
    exact_ticks (lastFrameTime (vars st)) times = true ->
    let st' := ticking ANIMATION_FPS onFrameShown times st in
    let k := advances ANIMATION_FPS onFrameShown times st in
    lastFrameTime (vars st)
    + elapsed interval (frameCount st) (currentIndex (vars st)) k
    <= lastFrameTime (vars st')
    /\ (lastFrameTime (vars st') = lastFrameTime (vars st)
        \/ In (lastFrameTime (vars st')) times).
Proof.
  induction times as [| t times IH]; intros st Hp Hq Hex st' k; subst st' k.
  - simpl. split; [lra | left; reflexivity].
  - apply exact_ticks_cons in Hex. destruct Hex as (He & Hes & Het).
    destruct (exact_tick ANIMATION_FPS onFrameShown interval interval_value t st Hp Hq He)
      as (P' & F' & Q' & Hadv & Hno).
    set (n := frameCount st) in *. set (c := currentIndex (vars st)) in *.
    set (s := lastFrameTime (vars st)) in *.
    set (st1 := animationFrame ANIMATION_FPS onFrameShown t st) in *.
    change (ticking ANIMATION_FPS onFrameShown (t :: times) st)
      with (ticking ANIMATION_FPS onFrameShown times st1).
    change (advances ANIMATION_FPS onFrameShown (t :: times) st)
      with ((if advancesAt ANIMATION_FPS t st then 1 else 0)
            + advances ANIMATION_FPS onFrameShown times st1)%nat.
    destruct (Qlt_le_dec (t - s) (dwell interval n c)) as [Hsmall | Hbig].
    + destruct (Hno Hsmall) as (E1 & E2 & E3). rewrite E3.
      destruct (IH st1 P' Q') as (A2 & A3); [rewrite E2; exact Hes |].
      rewrite E1, E2, F' in *. cbn [Nat.add].
      split; [exact A2 |].
      destruct A3 as [A3 | A3]; [left; exact A3 | right; right; exact A3].
    + destruct (Hadv Hbig) as (E1 & E2 & E3). rewrite E3.
      destruct (IH st1 P' Q') as (A2 & A3); [rewrite E2; exact Het |].
      rewrite E1, E2, F' in *. cbn [Nat.add elapsed].
      split; [lra |].
      destruct A3 as [A3 | A3]; [right; left; symmetry; exact A3 | right; right; exact A3].
Qed.

Lemma elapsed_beyond_loop (n i : Z) (k : nat) :
  (0 <= i < n)%Z -> (Z.to_nat n < k)%nat ->
  loopTime interval n < elapsed interval n i k.
Proof.
  intros Hi Hk.
  destruct (full_loop interval n i Hi) as [_ L].
  replace k with (Z.to_nat n + (k - Z.to_nat n))%nat by lia.
  destruct (frameAfter_add interval n (Z.to_nat n) (k - Z.to_nat n) i) as [_ E].
  rewrite E, L.
  pose proof (elapsed_positive interval interval_positive n
                (frameAfter n i (Z.to_nat n)) (k - Z.to_nat n) ltac:(lia)).
  lra.
Qed.

End NeverEarly.

(** X17.  No advance comes early, whatever the rhythm of the frame
    callbacks.  For a playing engine ticked at arbitrary times, the frame on
    display is the starting frame moved on by the number of advances made,
    modulo N.  When the frame interval 1000/FPS is a positive binary64
    number and the ticks come at times on which the engine's subtractions
    [currentTime - lastFrameTime] are exact (whole milliseconds, for
    instance), the time of the last advance is at least the starting time
    plus the dwells of all the frames left behind (1000 ms for the last
    frame, the frame interval for the others).  Hence such ticks that all
    fall within a window keep the advances within what the window has room
    for, and within one loop time, (N - 1) frame intervals plus one hold,
    the animation never advances more than N times. *)
Theorem X17_no_advance_comes_early :
  forall (X : Type) (ANIMATION_FPS : Q) (onFrameShown : Page X -> X) (interval : Q)
         (st : Page X) (times : list Q),
    FRAME_INTERVAL_MS ANIMATION_FPS = Fin interval ->
    (0 < interval)%Q ->
    isPlaying (vars st) = true ->
    (exists id, raf_pending (host st) = [id]) ->
    let st' := ticking ANIMATION_FPS onFrameShown times st in
    let k := advances ANIMATION_FPS onFrameShown times st in
    let n := frameCount st in
    let i := currentIndex (vars st) in
    currentIndex (vars st') = frameAfter n i k
    /\ (exact_ticks (lastFrameTime (vars st)) times = true ->
        (lastFrameTime (vars st) + elapsed interval n i k <= lastFrameTime (vars st'))%Q
        /\ (forall limit : Q,
              (lastFrameTime (vars st) <= limit)%Q -> within limit times = true ->
              (lastFrameTime (vars st') <= limit)%Q
              /\ (elapsed interval n i k <= limit - lastFrameTime (vars st))%Q)
        /\ ((0 <= i < n)%Z ->
            within (lastFrameTime (vars st) + loopTime interval n)%Q times = true ->
            (k <= Z.to_nat n)%nat)).
Proof.
  intros X fps hook interval st times Hval Hpos Hp Hq st' k n i.
  split; [exact (ticking_frames fps hook times st Hp Hq) |].
  intros Hex.
  destruct (ticking_dwells fps hook interval Hval times st Hp Hq Hex) as (A2 & A3).
  fold st' k n i in A2, A3.
  assert (B : forall limit : Q,
             (lastFrameTime (vars st) <= limit)%Q -> within limit times = true ->
             (lastFrameTime (vars st') <= limit)%Q).
  { intros limit H0 Hw. destruct A3 as [A3 | A3]; [rewrite A3; exact H0 |].
    exact (within_bound limit times _ Hw A3). }
  split; [exact A2 |]. split.
  - intros limit H0 Hw. pose proof (B limit H0 Hw). split; [assumption | lra].
  - intros Hi Hw.
    assert (H0 : (lastFrameTime (vars st)
                  <= lastFrameTime (vars st) + loopTime interval n)%Q).
    { destruct (full_loop interval n i Hi) as [_ L].
      pose proof (elapsed_nonneg interval Hpos n i (Z.to_nat n)). lra. }
    pose proof (B _ H0 Hw) as H1.
    destruct (le_lt_dec k (Z.to_nat n)) as [Hk | Hk]; [exact Hk | exfalso].
    pose proof (elapsed_beyond_loop interval Hpos n i k Hi Hk). lra.
Qed.

(** X17 on the three loaded frames at 5 frames per second, ticked every 7 ms
    for one loop time of 1400 ms: two advances, frame 2 on display. *)
Lemma X17_witness :
  let times := Scenario.every 7 200 in
  let st' := ticking Magnifier.ANIMATION_FPS Magnifier.onFrameShown times Scenario.lens in
  let k := advances Magnifier.ANIMATION_FPS Magnifier.onFrameShown times Scenario.lens in
  currentIndex (vars st') = frameAfter 3 0 k /\ (k <= 3)%nat.
Proof.
  intros times st' k.
  destruct (X17_no_advance_comes_early Magnifier.Lens Magnifier.ANIMATION_FPS
              Magnifier.onFrameShown 200%Q Scenario.lens times) as (A & B).
  - vm_compute. reflexivity.
  - reflexivity.
  - vm_compute. reflexivity.
  - eexists. vm_compute. reflexivity.
  - split; [exact A |].
    destruct B as (_ & _ & B); [vm_compute; reflexivity |]. apply B.
    + vm_compute. split; [discriminate | reflexivity].
    + vm_compute. reflexivity.
Defined.

(** ** Clamped-origin zoom: the origin as a function of the pointer *)

Section ClampedOriginShape.
Local Open Scope Q_scope.

Lemma axis_linear (p w : Q) :
  2 * 80 + 1 <= w -> 80 <= p -> p <= w - 80 ->
  (Math_max 80 (Math_min p (w - 80)) - 80) / Math_max 1 (w - 2 * 80)
  == (p - 80) / (w - 2 * 80).
Proof.
  intros Hw H1 H2.
  assert (E1 : Math_max 80 (Math_min p (w - 80)) == p) by (minmax_cases; lra).
  assert (E2 : Math_max 1 (w - 2 * 80) == w - 2 * 80) by (minmax_cases; lra).
  rewrite E1, E2. reflexivity.
Qed.

Lemma axis_monotone (p q w : Q) :
  p <= q ->
  (Math_max 80 (Math_min p (w - 80)) - 80) / Math_max 1 (w - 2 * 80)
  <= (Math_max 80 (Math_min q (w - 80)) - 80) / Math_max 1 (w - 2 * 80).
Proof.
  intros H.
  assert (D : 1 <= Math_max 1 (w - 2 * 80)) by apply Math_max_ge_l.
  assert (N : Math_max 80 (Math_min p (w - 80)) - 80 <= Math_max 80 (Math_min q (w - 80)) - 80)
    by (clear D; minmax_cases; lra).
  unfold Qdiv. apply Qmult_le_compat_r; [exact N |].
  apply Qinv_le_0_compat. lra.
Qed.

End ClampedOriginShape.

(** X18.  Under the clamped-origin zoom the origin is a monotone function of
    the pointer: on one snapshot, a pointer further right (down) never gets a
    smaller horizontal (vertical) origin.  On a snapshot at least
    2 * inset + 1 wide (high), a pointer inside the control box gets the
    origin (x - inset) / (width - 2 * inset): the control box is mapped
    linearly onto the whole image, so that the middle 240 px of a 400 px
    image reach every zoom origin. *)
Theorem X18_clamped_origin_monotone_and_linear :
  forall (rect : DOMRect) (e1 e2 : PointerEvent),
    let inset := ClampedZoom.CONTROL_INSET_PX in
    let x := (clientX e1 - rect_left rect)%Q in
    let y := (clientY e1 - rect_top rect)%Q in
    ((clientX e1 <= clientX e2)%Q ->
     (ClampedZoom.originX rect e1 <= ClampedZoom.originX rect e2)%Q)
    /\ ((clientY e1 <= clientY e2)%Q ->
        (ClampedZoom.originY rect e1 <= ClampedZoom.originY rect e2)%Q)
    /\ ((2 * inset + 1 <= rect_width rect)%Q ->
        (inset <= x)%Q -> (x <= rect_width rect - inset)%Q ->
        (ClampedZoom.originX rect e1 == (x - inset) / (rect_width rect - 2 * inset))%Q)
    /\ ((2 * inset + 1 <= rect_height rect)%Q ->
        (inset <= y)%Q -> (y <= rect_height rect - inset)%Q ->
        (ClampedZoom.originY rect e1 == (y - inset) / (rect_height rect - 2 * inset))%Q).
Proof.
  intros rect e1 e2 inset x y. subst inset x y. unfold ClampedZoom.CONTROL_INSET_PX.
  split; [| split; [| split]].
  - intros H. apply axis_monotone. lra.
  - intros H. apply axis_monotone. lra.
  - intros Hw H1 H2. apply axis_linear; assumption.
  - intros Hw H1 H2. apply axis_linear; assumption.
Qed.

(** X18 on a 400 x 300 snapshot: the pointer at (140, 115) gets the origin
    (25 %, 25 %). *)
Lemma X18_witness :
  (ClampedZoom.originX (mkRect 0 0 400 300) (mkPointer 1 touch true 140 115) == 1 # 4)%Q
  /\ (ClampedZoom.originY (mkRect 0 0 400 300) (mkPointer 1 touch true 140 115) == 1 # 4)%Q
  /\ (ClampedZoom.originX (mkRect 0 0 400 300) (mkPointer 1 touch true 140 115)
      <= ClampedZoom.originX (mkRect 0 0 400 300) (mkPointer 1 touch true 150 115))%Q.
Proof.
  destruct (X18_clamped_origin_monotone_and_linear (mkRect 0 0 400 300)
              (mkPointer 1 touch true 140 115) (mkPointer 1 touch true 150 115))
    as (M & _ & Lx & Ly).
  split; [| split].
  - rewrite Lx by (vm_compute; discriminate). vm_compute. reflexivity.
  - rewrite Ly by (vm_compute; discriminate). vm_compute. reflexivity.
  - apply M. vm_compute. discriminate.
Defined.

(** ** The reveal *)



Section Reveal.
Context {X : Type}.
Variable ANIMATION_FPS : Q.
Variable onFrameShown : Page X -> X.




End Reveal.



(** ** Resuming *)

Lemma startAnimation_stopped (X : Type) (now : Q) (st : Page X) :
  isPlaying (vars st) = false ->
  let st' := startAnimation now st in
  isPlaying (vars st') = true
  /\ lastFrameTime (vars st') = now
  /\ currentIndex (vars st') = currentIndex (vars st)
  /\ frameCount st' = frameCount st
  /\ raf_pending (host st') = raf_pending (host st) ++ [raf_next (host st)].
Proof.
  intros H. unfold startAnimation. rewrite H. page_open st. repeat split.
Qed.

(** X20.  Resuming restarts the dwell of the frame on display.  On a loaded
    page that is stopped, a click on play/pause at time [now] starts the
    engine at the same frame with [now] as the time of the last advance;
    the next frame callback, at time [t], advances the frame exactly when
    the binary64 difference [t - now] the engine computes has reached the
    full threshold of that frame (1000 ms on the last frame, 1000/FPS ms in
    binary64 otherwise), however long the frame had already been displayed
    before the pause.  When that subtraction is exact, as it is on whole
    milliseconds, this is exactly when the threshold has passed since the
    click. *)
Theorem X20_resume_restarts_dwell :
  forall (X : Type) (ANIMATION_FPS : Q) (onFrameShown : Page X -> X) (x : X)
         (es : list Event) (st : Page X) (now : Q),
    session ANIMATION_FPS onFrameShown es (initialPage x) = Some st ->
    allLoaded (loader st) = Fulfilled ->
    isPlaying (vars st) = false ->
    let st1 := handle ANIMATION_FPS onFrameShown (ClickPlayPause now) st in
    let threshold :=
      if (currentIndex (vars st) =? frameCount st - 1)%Z
      then Fin 1000 else js_div 1000 ANIMATION_FPS in
    dispatch ANIMATION_FPS onFrameShown (ClickPlayPause now) st = Some st1
    /\ isPlaying (vars st1) = true
    /\ lastFrameTime (vars st1) = now
    /\ currentIndex (vars st1) = currentIndex (vars st)
    /\ (forall t : Q,
          let st2 := handle ANIMATION_FPS onFrameShown (FrameCallback t) st1 in
          dispatch ANIMATION_FPS onFrameShown (FrameCallback t) st1 = Some st2
          /\ (js_ge (js_sub t now) threshold = true ->
              currentIndex (vars st2) = js_rem (currentIndex (vars st) + 1) (frameCount st)
              /\ lastFrameTime (vars st2) = t)
          /\ (js_ge (js_sub t now) threshold = false ->
              currentIndex (vars st2) = currentIndex (vars st)
              /\ lastFrameTime (vars st2) = now)
          /\ (forall interval : Q,
                js_div 1000 ANIMATION_FPS = Fin interval ->
                sub_exact t now = true ->
                (js_ge (js_sub t now) threshold = true
                 <-> (dwell interval (frameCount st) (currentIndex (vars st))
                      <= t - now)%Q))).
Proof.
  intros X fps hook x es st now Hs L Hp st1 threshold.
  pose proof (session_invariant fps hook es _ st (invariant_initial x) Hs) as I.
  pose proof (inv_loaded st I L) as [S1 S2 S3 S4 [S5 S6]].
  pose proof (session_callbacks fps hook x es st Hs L) as C.
  unfold callbacks_match in C. rewrite Hp in C.
  assert (E1 : st1 = startAnimation now st).
  { subst st1. simpl. unfold togglePlayPause. rewrite Hp.
    apply Z.ltb_lt in S1. rewrite S1. reflexivity. }
  destruct (startAnimation_stopped X now st Hp) as (A1 & A2 & A3 & A4 & A5).
  rewrite <- E1 in A1, A2, A3, A4, A5. rewrite C in A5. simpl in A5.
  split; [unfold dispatch; simpl; rewrite S6; reflexivity |].
  split; [exact A1 |]. split; [exact A2 |]. split; [exact A3 |].
  intros t st2.
  destruct (animationFrame_playing fps hook t st1 A1 (ex_intro _ _ A5))
    as (_ & _ & _ & Hadv & Hno).
  assert (T : currentFrameInterval fps st1 = threshold).
  { unfold currentFrameInterval. rewrite A3, A4. reflexivity. }
  rewrite T, A2, A3, A4 in *.
  split; [unfold dispatch; simpl; rewrite A5; reflexivity |].
  split; [intros H; destruct (Hadv H) as (B1 & B2 & _); split; assumption |].
  split; [intros H; destruct (Hno H) as (B1 & B2 & _); split; assumption |].
  intros interval Hi He.
  pose proof (due_exact fps interval t st1 Hi) as D.
  rewrite T, A2, A3, A4 in D. rewrite (D He). apply Qle_bool_iff.
Qed.

(** X20 on the loaded page: paused at 150 ms on frame 0, resumed at 5000 ms;
    the callback at 5100 ms does not advance, the one at 5200 ms does. *)
Lemma X20_witness :
  let st := default Magnifier.initial
              (Magnifier.session (Scenario.loadAll 0 ++ [ClickPlayPause 150])
                 Magnifier.initial) in
  let st1 := Magnifier.handle (ClickPlayPause 5000) st in
  currentIndex (vars (Magnifier.handle (FrameCallback 5100) st1)) = 0%Z
  /\ currentIndex (vars (Magnifier.handle (FrameCallback 5200) st1)) = 1%Z.
Proof.
  intros st st1.
  destruct (X20_resume_restarts_dwell Magnifier.Lens Magnifier.ANIMATION_FPS
              Magnifier.onFrameShown Magnifier.idle
              (Scenario.loadAll 0 ++ [ClickPlayPause 150]) st 5000)
    as (_ & _ & _ & _ & H); try (vm_compute; reflexivity).
  split.
  - destruct (H 5100%Q) as (_ & _ & B & _). destruct B as [B _]; [vm_compute; reflexivity |].
    etransitivity; [exact B | vm_compute; reflexivity].
  - destruct (H 5200%Q) as (_ & A & _). destruct A as [A _]; [vm_compute; reflexivity |].
    etransitivity; [exact A | vm_compute; reflexivity].
Defined.

(** ** Magnifier lens: outside the usual conditions *)

Section LensEdges.
Local Open Scope Q_scope.

Lemma truthy_zero (a : Q) : a == 0 -> truthy a = false.
Proof.
  intros H. unfold truthy. apply Qeq_bool_iff in H. rewrite H. reflexivity.
Qed.

Lemma clamp_collapsed (value max : Q) :
  max <= 0 -> Magnifier.clamp value 0 max == 0.
Proof. intros H. unfold Magnifier.clamp. minmax_cases; lra. Qed.

Lemma clamp_lower (value min max : Q) : min <= Magnifier.clamp value min max.
Proof. unfold Magnifier.clamp. apply Math_max_ge_l. Qed.

End LensEdges.

(** X21.  The lens outside the usual conditions.  When the natural size of
    the current frame is unknown, that is when the width or the height that
    the cached image and the image element report is 0, [moveMagnifier]
    returns before it writes anything: the lens keeps its position and its
    background position.  Otherwise it always positions the lens, at a left
    and a top that are never negative, and in a container that is no wider
    (higher) than the lens the left (top) is 0 wherever the pointer is. *)
Theorem X21_lens_outside_usual_conditions :
  forall (imgRect containerRect : DOMRect) (clientX clientY : Q) (st : Page Magnifier.Lens),
    let w := Magnifier.nW (Magnifier.currentImage st) (ext st) in
    let h := Magnifier.nH (Magnifier.currentImage st) (ext st) in
    let l := Magnifier.moveMagnifier imgRect containerRect clientX clientY st in
    ((w == 0 \/ h == 0)%Q -> l = ext st)
    /\ ((~ w == 0)%Q -> (~ h == 0)%Q ->
        exists left top : Q,
          Magnifier.left_px (Magnifier.style l) = Some left
          /\ Magnifier.top_px (Magnifier.style l) = Some top
          /\ (0 <= left)%Q /\ (0 <= top)%Q
          /\ ((rect_width containerRect <= Magnifier.MAG_DIAMETER)%Q -> (left == 0)%Q)
          /\ ((rect_height containerRect <= Magnifier.MAG_DIAMETER)%Q -> (top == 0)%Q)).
Proof.
  intros imgRect containerRect cx cy st w h l. subst l.
  unfold Magnifier.moveMagnifier. fold (Magnifier.currentImage st). fold w. fold h.
  split.
  - intros [H | H]; rewrite (truthy_zero _ H); simpl; [reflexivity |].
    destruct (truthy w); reflexivity.
  - intros Hw Hh. rewrite (truthy_nonzero w Hw), (truthy_nonzero h Hh). simpl.
    eexists _, _. split; [reflexivity |]. split; [reflexivity |].
    split; [apply clamp_lower |]. split; [apply clamp_lower |].
    split; intros H; apply clamp_collapsed; lra.
Qed.

(** X21 on the loaded page in a container 150 px wide, and on a page whose
    current frame has no known size. *)
Lemma X21_witness :
  (exists left : Q,
      Magnifier.left_px
        (Magnifier.style
           (Magnifier.moveMagnifier (mkRect 0 0 150 300) (mkRect 0 0 150 300) 120 200
              Scenario.lens)) = Some left
      /\ (left == 0)%Q)
  /\ Magnifier.moveMagnifier (mkRect 0 0 400 300) (mkRect 0 0 400 300) 120 200
       Magnifier.initial = ext Magnifier.initial.
Proof.
  split.
  - destruct (X21_lens_outside_usual_conditions (mkRect 0 0 150 300) (mkRect 0 0 150 300)
                120 200 Scenario.lens) as (_ & H).
    destruct H as (left & top & L & _ & _ & _ & Z & _);
      try (vm_compute; discriminate).
    exists left. split; [exact L |]. apply Z. vm_compute. discriminate.
  - apply (X21_lens_outside_usual_conditions (mkRect 0 0 400 300) (mkRect 0 0 400 300)
             120 200 Magnifier.initial).
    left. vm_compute. reflexivity.
Defined.
